(** * json-formatter: the JSON document model of [JsonUtils] and [JsonEditor]

    A shallow embedding of [utils/JsonUtils.ts] (parse, toJsonTree,
    fromJsonTree, findNodeByPath, applyEdit, validatePath) and of the
    [toggleNode] handler of [components/JsonEditor.tsx], followed by the
    properties the specification states about them. *)

From Stdlib Require Import String Ascii List ZArith NArith Lia Bool.
From Stdlib Require Import DecimalString DecimalNat DecimalN.
From stdpp Require Import base option list gmap.
Import ListNotations.

Set Warnings "-register-all,-clear-no-such-hyp".

Local Open Scope string_scope.
Local Open Scope list_scope.

(* ================================================================== *)
(** ** JavaScript values *)
(* ================================================================== *)

(** The values a TypeScript [any] can hold in this program.  An Array is
    an exotic object: besides its indexed elements (a hole is [None]) it
    may own named properties, which is what [fromJsonTree] creates when it
    assigns [result[node.key]] with a key that is not an array index.  An
    Object is the list of its own enumerable properties in the order
    [Object.entries] visits them.  Number payloads are only stored, copied
    and compared by the code under study; they are carried as [Z], which
    leaves the fractions and the sign of zero of a double out. *)
Inductive JsVal : Type :=
| JUndefined
| JNull
| JBool (b : bool)
| JNum (n : Z)
| JStr (s : string)
| JArr (elems : list (option JsVal)) (props : list (string * JsVal))
| JObj (props : list (string * JsVal)).

(** [typeof v] *)
Definition typeof (v : JsVal) : string :=
  match v with
  | JUndefined => "undefined"
  | JNull => "object"
  | JBool _ => "boolean"
  | JNum _ => "number"
  | JStr _ => "string"
  | JArr _ _ => "object"
  | JObj _ => "object"
  end.

(** [Array.isArray(v)] *)
Definition isArray (v : JsVal) : bool :=
  match v with JArr _ _ => true | _ => false end.

(** [v !== null] *)
Definition not_null (v : JsVal) : bool :=
  match v with JNull => false | _ => true end.

(** [Number.prototype.toString] on a non-negative integer. *)
Definition toString (n : nat) : string :=
  NilEmpty.string_of_uint (N.to_uint (N.of_nat n)).

(* ================================================================== *)
(** ** Tree nodes *)
(* ================================================================== *)

(** [interface JsonNode].  The optional members [expanded?], [children?]
    and [index?] are [None] when the property is absent. *)
Inductive JsonNode : Type := mkNode {
  key : string;
  value : JsVal;
  type : string;
  path : string;
  level : nat;
  expanded : option bool;
  children : option (list JsonNode);
  index : option nat
}.

(** The conditional expression that computes [type] in [toJsonTree]:
    [Array.isArray(x) ? 'array'
       : typeof x === 'object' && x !== null ? 'object' : typeof x]. *)
Definition node_type (x : JsVal) : string :=
  if isArray x then "array"
  else if (typeof x =? "object") && not_null x then "object"
  else typeof x.

(** [node.type === 'object' || node.type === 'array'] *)
Definition is_container_type (t : string) : bool :=
  (t =? "object") || (t =? "array").

(** [parentPath ? `${parentPath}[${index}]` : `[${index}]`] *)
Definition index_path (parentPath : string) (i : nat) : string :=
  if (parentPath =? "") then "[" ++ toString i ++ "]"
  else parentPath ++ "[" ++ toString i ++ "]".

(** [parentPath ? `${parentPath}.${key}` : key] *)
Definition field_path (parentPath : string) (k : string) : string :=
  if (parentPath =? "") then k else parentPath ++ "." ++ k.

(** [JsonUtils.toJsonTree(data, parentPath, level)].  [forEach] visits the
    present elements of an array with their index and skips holes;
    [Object.entries] yields the own properties in order. *)
Fixpoint toJsonTree (data : JsVal) (parentPath : string) (level : nat)
  : list JsonNode :=
  match data with
  | JArr elems _ =>
      (fix each (l : list (option JsVal)) (i : nat) {struct l} : list JsonNode :=
         match l with
         | [] => []
         | None :: l' => each l' (S i)
         | Some item :: l' =>
             let p := index_path parentPath i in
             let ty := node_type item in
             {| key := toString i; value := item; type := ty; path := p;
                level := level; expanded := Some (level <? 2)%nat;
                children := if is_container_type ty
                            then Some (toJsonTree item p (S level)) else None;
                index := Some i |} :: each l' (S i)
         end) elems 0%nat
  | JObj props =>
      (fix each (l : list (string * JsVal)) {struct l} : list JsonNode :=
         match l with
         | [] => []
         | (k, v) :: l' =>
             let p := field_path parentPath k in
             let ty := node_type v in
             {| key := k; value := v; type := ty; path := p;
                level := level; expanded := Some (level <? 2)%nat;
                children := if is_container_type ty
                            then Some (toJsonTree v p (S level)) else None;
                index := None |} :: each l'
         end) props
  | _ => []
  end.

(** The two loops of [toJsonTree], named. *)
Fixpoint array_nodes (parentPath : string) (level : nat)
    (l : list (option JsVal)) (i : nat) : list JsonNode :=
  match l with
  | [] => []
  | None :: l' => array_nodes parentPath level l' (S i)
  | Some item :: l' =>
      let p := index_path parentPath i in
      let ty := node_type item in
      {| key := toString i; value := item; type := ty; path := p;
         level := level; expanded := Some (level <? 2)%nat;
         children := if is_container_type ty
                     then Some (toJsonTree item p (S level)) else None;
         index := Some i |} :: array_nodes parentPath level l' (S i)
  end.

Fixpoint object_nodes (parentPath : string) (level : nat)
    (l : list (string * JsVal)) : list JsonNode :=
  match l with
  | [] => []
  | (k, v) :: l' =>
      let p := field_path parentPath k in
      let ty := node_type v in
      {| key := k; value := v; type := ty; path := p;
         level := level; expanded := Some (level <? 2)%nat;
         children := if is_container_type ty
                     then Some (toJsonTree v p (S level)) else None;
         index := None |} :: object_nodes parentPath level l'
  end.

(* ================================================================== *)
(** ** Assignment to a property of an Array *)
(* ================================================================== *)

(** A property key is an array index when it is the canonical decimal
    form of an integer below 2^32 - 1. *)
Definition array_index (k : string) : option nat :=
  match NilEmpty.uint_of_string k with
  | Some d =>
      let n := N.of_uint d in
      if (NilEmpty.string_of_uint (N.to_uint n) =? k) && (n <? 4294967295)%N
      then Some (N.to_nat n) else None
  | None => None
  end.

(** [a[i] = x]: overwrite inside the array, or grow it, leaving holes
    between the old end and [i]. *)
Definition set_elem (elems : list (option JsVal)) (i : nat) (x : JsVal)
  : list (option JsVal) :=
  if (i <? length elems)%nat then <[i := Some x]> elems
  else elems ++ replicate (i - length elems) None ++ [Some x].

(** [a[k] = x] for a key that is not an index: overwrite the own property
    in place or append a new one. *)
Fixpoint set_prop (props : list (string * JsVal)) (k : string) (x : JsVal)
  : list (string * JsVal) :=
  match props with
  | [] => [(k, x)]
  | (k', y) :: rest =>
      if (k' =? k) then (k, x) :: rest else (k', y) :: set_prop rest k x
  end.

(** [result[k] = x] on an Array [result].  The keys [length] and
    [__proto__] do not create a property (the first resizes the array or
    raises RangeError, the second sets the prototype); the model stops
    there with [None]. *)
Definition array_put (a : list (option JsVal) * list (string * JsVal))
    (k : string) (x : JsVal)
  : option (list (option JsVal) * list (string * JsVal)) :=
  match array_index k with
  | Some i => Some (set_elem a.1 i x, a.2)
  | None =>
      if (k =? "length") || (k =? "__proto__") then None
      else Some (a.1, set_prop a.2 k x)
  end.

(* ================================================================== *)
(** ** fromJsonTree *)
(* ================================================================== *)

(** One pass of the [forEach] callback of [fromJsonTree] on the array
    under construction: [result[key] = x]. *)
Definition put_entry
    (acc : option (list (option JsVal) * list (string * JsVal)))
    (e : string * option JsVal)
  : option (list (option JsVal) * list (string * JsVal)) :=
  match acc, e.2 with
  | Some a, Some x => array_put a e.1 x
  | _, _ => None
  end.

(** The body of [fromJsonTree]: [result] starts as [[]] because
    [Array.isArray(nodes)] holds for every [JsonNode[]], then each entry is
    assigned in order. *)
Definition assign_all (entries : list (string * option JsVal)) : option JsVal :=
  match fold_left put_entry entries (Some ([], [])) with
  | Some a => Some (JArr a.1 a.2)
  | None => None
  end.

(** The right-hand side of the assignment for one node:
    [node.children && node.expanded ? fromJsonTree(node.children)
                                    : node.value]. *)
Fixpoint assigned_value (n : JsonNode) : option JsVal :=
  match n with
  | mkNode _ v _ _ _ e ch _ =>
      match ch, e with
      | Some cs, Some true =>
          assign_all (map (fun c => (key c, assigned_value c)) cs)
      | _, _ => Some v
      end
  end.

(** [JsonUtils.fromJsonTree(nodes)] *)
Definition fromJsonTree (nodes : list JsonNode) : option JsVal :=
  assign_all (map (fun c => (key c, assigned_value c)) nodes).

(* ================================================================== *)
(** ** findNodeByPath and the expand/collapse handler *)
(* ================================================================== *)

(** The first [Some] a function yields along a list: the shape of a
    [for ... of] loop that returns from inside. *)
Fixpoint first_some {A B : Type} (f : A -> option B) (l : list A) : option B :=
  match l with
  | [] => None
  | a :: l' => match f a with Some b => Some b | None => first_some f l' end
  end.

(** One iteration of the loop of [findNodeByPath]. *)
Fixpoint find_in (p : string) (n : JsonNode) : option JsonNode :=
  if (path n =? p) then Some n
  else match children n with
       | Some cs => first_some (find_in p) cs
       | None => None
       end.

(** [JsonUtils.findNodeByPath(nodes, path)] *)
Definition findNodeByPath (nodes : list JsonNode) (p : string)
  : option JsonNode :=
  first_some (find_in p) nodes.

(** [!node.expanded]: an absent flag is falsy. *)
Definition not_expanded (n : JsonNode) : bool :=
  match expanded n with Some true => false | _ => true end.

(** The callback of [nodes.map] in [updateExpanded]. *)
Fixpoint updateExpanded_node (p : string) (n : JsonNode) : JsonNode :=
  if (path n =? p) then
    {| key := key n; value := value n; type := type n; path := path n;
       level := level n; expanded := Some (not_expanded n);
       children := children n; index := index n |}
  else match children n with
       | Some cs =>
           {| key := key n; value := value n; type := type n; path := path n;
              level := level n; expanded := expanded n;
              children := Some (map (updateExpanded_node p) cs);
              index := index n |}
       | None => n
       end.

(** [updateExpanded(nodes)], the local function of [toggleNode(path)]. *)
Definition updateExpanded (p : string) (nodes : list JsonNode)
  : list JsonNode :=
  map (updateExpanded_node p) nodes.

(** [toggleNode(path)]: the state update [prev => updateExpanded(prev)]
    applied to the tree the editor holds. *)
Definition toggleNode (p : string) (prev : list JsonNode) : list JsonNode :=
  updateExpanded p prev.

(* ================================================================== *)
(** ** Induction over values and nodes *)
(* ================================================================== *)

Section JsVal_induction.
Variable P : JsVal -> Prop.
Hypothesis Hundefined : P JUndefined.
Hypothesis Hnull : P JNull.
Hypothesis Hbool : forall b, P (JBool b).
Hypothesis Hnum : forall n, P (JNum n).
Hypothesis Hstr : forall s, P (JStr s).
Hypothesis Harr : forall elems props,
      Forall (fun e => match e with Some x => P x | None => True end) elems ->
      Forall (fun kv => P kv.2) props ->
      P (JArr elems props).
Hypothesis Hobj : forall props,
      Forall (fun kv => P kv.2) props -> P (JObj props).

Fixpoint JsVal_nested_ind (v : JsVal) : P v :=
    let props_ind :=
      fix go (l : list (string * JsVal)) : Forall (fun kv => P kv.2) l :=
        match l with
        | [] => List.Forall_nil _
        | (k, x) :: l' =>
            List.Forall_cons (fun kv => P kv.2) (k, x) l' (JsVal_nested_ind x) (go l')
        end in
    match v with
    | JUndefined => Hundefined
    | JNull => Hnull
    | JBool b => Hbool b
    | JNum n => Hnum n
    | JStr s => Hstr s
    | JArr elems props =>
        Harr elems props
          ((fix go (l : list (option JsVal))
              : Forall (fun e => match e with Some x => P x | None => True end) l :=
              match l with
              | [] => List.Forall_nil _
              | e :: l' =>
                  List.Forall_cons _ e l'
                    (match e return match e with Some x => P x | None => True end
                     with Some x => JsVal_nested_ind x | None => I end)
                    (go l')
              end) elems)
          (props_ind props)
    | JObj props => Hobj props (props_ind props)
    end.
End JsVal_induction.

Section JsonNode_induction.
Variable P : JsonNode -> Prop.
Hypothesis Hnode : forall k v t p l e ch i,
      match ch with Some cs => Forall P cs | None => True end ->
      P (mkNode k v t p l e ch i).

Fixpoint JsonNode_nested_ind (n : JsonNode) : P n :=
    match n with
    | mkNode k v t p l e ch i =>
        Hnode k v t p l e ch i
          (match ch return match ch with Some cs => Forall P cs | None => True end
           with
           | Some cs =>
               (fix go (l : list JsonNode) : Forall P l :=
                  match l with
                  | [] => List.Forall_nil _
                  | c :: l' => List.Forall_cons _ c l' (JsonNode_nested_ind c) (go l')
                  end) cs
           | None => I
           end)
    end.
End JsonNode_induction.

(* ================================================================== *)
(** ** Trees that differ only in their expansion flags *)
(* ================================================================== *)

(** The node with every [expanded] flag, its own and its descendants',
    removed. *)
Fixpoint erase_expanded (n : JsonNode) : JsonNode :=
  match n with
  | mkNode k v t p l _ ch i =>
      mkNode k v t p l None
        (match ch with
         | Some cs => Some (map erase_expanded cs)
         | None => None
         end) i
  end.

(** Two trees are the same up to which nodes are expanded or collapsed. *)
Definition same_up_to_expanded (t1 t2 : list JsonNode) : Prop :=
  map erase_expanded t1 = map erase_expanded t2.

(* ================================================================== *)
(** ** Values that survive the projection: arrays of plain members *)
(* ================================================================== *)

(** An Array without holes or named properties, no longer than a
    JavaScript array can be, whose members are booleans, numbers, strings
    or again such arrays. *)
Fixpoint plain_array (v : JsVal) : bool :=
  match v with
  | JArr elems [] =>
      (N.of_nat (length elems) <=? 4294967295)%N &&
      forallb (fun e =>
                 match e with
                 | Some x =>
                     match x with
                     | JBool _ | JNum _ | JStr _ => true
                     | JArr _ _ => plain_array x
                     | _ => false
                     end
                 | None => false
                 end) elems
  | _ => false
  end.

Definition plain_member (e : option JsVal) : bool :=
  match e with
  | Some x =>
      match x with
      | JBool _ | JNum _ | JStr _ => true
      | JArr _ _ => plain_array x
      | _ => false
      end
  | None => false
  end.

(** What the round trip gives for one value, whatever the path and level
    it is projected at and whatever the expansion flags. *)
Definition round_trips (x : JsVal) : Prop :=
  forall parentPath level t,
    same_up_to_expanded t (toJsonTree x parentPath level) ->
    fromJsonTree t = Some x.

(* ================================================================== *)
(** ** String primitives *)
(* ================================================================== *)

Definition dot : ascii := "."%char.
Definition newline : ascii := "010"%char.

Fixpoint lastIndexOf_from (s : string) (c : ascii) (i found : Z) : Z :=
  match s with
  | EmptyString => found
  | String a s' =>
      lastIndexOf_from s' c (i + 1) (if Ascii.eqb a c then i else found)
  end.

(** [s.lastIndexOf(c)]: the index of the last occurrence, or -1. *)
Definition lastIndexOf (s : string) (c : ascii) : Z :=
  lastIndexOf_from s c 0 (-1).

(** [s.substring(a, b)]: both ends are clamped to [0, s.length] and
    swapped when they come in the wrong order. *)
Definition substring (s : string) (a b : Z) : string :=
  let len := Z.of_nat (String.length s) in
  let a' := Z.max 0 (Z.min a len) in
  let b' := Z.max 0 (Z.min b len) in
  let lo := Z.min a' b' in
  let hi := Z.max a' b' in
  String.substring (Z.to_nat lo) (Z.to_nat (hi - lo)) s.

(** [s.split(sep)] for a one-character separator: never empty. *)
Fixpoint split (sep : ascii) (s : string) : list string :=
  match s with
  | EmptyString => [EmptyString]
  | String a s' =>
      if Ascii.eqb a sep then EmptyString :: split sep s'
      else match split sep s' with
           | h :: t => String a h :: t
           | [] => [String a EmptyString]
           end
  end.

(** [pieces.pop()] read as a string, and [pieces[pieces.length - 1]]. *)
Definition last_piece (pieces : list string) : string :=
  List.last pieces EmptyString.

(* ================================================================== *)
(** ** The edit engine *)
(* ================================================================== *)

(** [JsonEditOperation['type']] *)
Inductive EditType : Type := EditAdd | EditUpdate | EditDelete | EditMove.

(** [interface JsonEditOperation].  [op_key] is read through
    [operation.key!]; an absent [value] is [JUndefined]. *)
Record JsonEditOperation : Type := mkOp {
  op_type : EditType;
  op_path : string;
  op_key : string;
  op_value : JsVal;
  op_oldKey : option string;
  op_newPath : option string
}.

(** [JSON.parse(JSON.stringify(v))] on a value: an Array keeps its
    indexed elements only, with [null] for holes and [undefined]; an
    Object drops the properties whose value is [undefined]. *)
Fixpoint json_copy (v : JsVal) : JsVal :=
  match v with
  | JArr elems _ =>
      JArr (map (fun e =>
                   match e with
                   | Some x =>
                       match x with
                       | JUndefined => Some JNull
                       | _ => Some (json_copy x)
                       end
                   | None => Some JNull
                   end) elems) []
  | JObj props =>
      JObj (flat_map (fun kv =>
                        match kv with
                        | (k, x) =>
                            match x with
                            | JUndefined => []
                            | _ => [(k, json_copy x)]
                            end
                        end) props)
  | _ => v
  end.

(** [JSON.parse(JSON.stringify(node))]: every member is copied; one that
    is [undefined] is left out, which reads back as [undefined]. *)
Fixpoint copy_node (n : JsonNode) : JsonNode :=
  match n with
  | mkNode k v t p l e ch i =>
      mkNode k (json_copy v) t p l e
        (match ch with
         | Some cs => Some (map copy_node cs)
         | None => None
         end) i
  end.

(** [operation.path.substring(0, operation.path.lastIndexOf('.'))] *)
Definition parent_path (p : string) : string :=
  substring p 0 (lastIndexOf p dot).

(** [JsonUtils._addNode] *)
Definition _addNode (nodes : list JsonNode) (operation : JsonEditOperation)
  : list JsonNode :=
  let parentPath := parent_path (op_path operation) in
  if (parentPath =? "") then
    nodes ++ [ {| key := op_key operation; value := op_value operation;
                  type := typeof (op_value operation);
                  path := op_key operation; level := 0;
                  expanded := None; children := None; index := None |} ]
  else nodes.

(** Rewrite the first element a function accepts, as a loop that stops at
    its first hit does. *)
Fixpoint first_update {A : Type} (g : A -> option A) (l : list A)
  : option (list A) :=
  match l with
  | [] => None
  | a :: l' =>
      match g a with
      | Some a' => Some (a' :: l')
      | None =>
          match first_update g l' with
          | Some l'' => Some (a :: l'')
          | None => None
          end
      end
  end.

(** The write through the reference [findNodeByPath] returns: the node it
    finds (the first one in its traversal order whose path matches) is
    replaced by [f] of it, inside the tree. *)
Fixpoint write_in (p : string) (f : JsonNode -> JsonNode) (n : JsonNode)
  : option JsonNode :=
  if (path n =? p) then Some (f n)
  else match children n with
       | Some cs =>
           match first_update (write_in p f) cs with
           | Some cs' =>
               Some {| key := key n; value := value n; type := type n;
                       path := path n; level := level n;
                       expanded := expanded n; children := Some cs';
                       index := index n |}
           | None => None
           end
       | None => None
       end.

(** [node.value = v; node.type = typeof v] *)
Definition set_value (v : JsVal) (n : JsonNode) : JsonNode :=
  {| key := key n; value := v; type := typeof v; path := path n;
     level := level n; expanded := expanded n; children := children n;
     index := index n |}.

(** [JsonUtils._updateNode] *)
Definition _updateNode (nodes : list JsonNode) (operation : JsonEditOperation)
  : list JsonNode :=
  match findNodeByPath nodes (op_path operation) with
  | Some _ =>
      match first_update
              (write_in (op_path operation) (set_value (op_value operation)))
              nodes
      with
      | Some nodes' => nodes'
      | None => nodes
      end
  | None => nodes
  end.

(** [JsonUtils._deleteNode] *)
Definition _deleteNode (nodes : list JsonNode) (operation : JsonEditOperation)
  : list JsonNode :=
  let parentPath := parent_path (op_path operation) in
  let k := last_piece (split dot (op_path operation)) in
  if (parentPath =? "") then
    List.filter (fun node => negb (key node =? k)) nodes
  else nodes.

(** [JsonUtils._moveNode] *)
Definition _moveNode (nodes : list JsonNode) (operation : JsonEditOperation)
  : list JsonNode :=
  nodes.

(** [JsonUtils.applyEdit] *)
Definition applyEdit (root : list JsonNode) (operation : JsonEditOperation)
  : list JsonNode :=
  let newRoot := map copy_node root in
  match op_type operation with
  | EditAdd => _addNode newRoot operation
  | EditUpdate => _updateNode newRoot operation
  | EditDelete => _deleteNode newRoot operation
  | EditMove => _moveNode newRoot operation
  end.

(* ================================================================== *)
(** ** Regular expressions *)
(* ================================================================== *)

(** The fragment of regular expressions [JsonUtils] uses, with
    [RegExp.prototype.test] on an anchored pattern decided by
    derivatives. *)
Inductive regex : Type :=
| re_none
| re_empty
| re_class (c : ascii -> bool)
| re_alt (r1 r2 : regex)
| re_cat (r1 r2 : regex)
| re_star (r : regex).

Definition re_plus (r : regex) : regex := re_cat r (re_star r).
Definition re_char (c : ascii) : regex := re_class (Ascii.eqb c).

Fixpoint nullable (r : regex) : bool :=
  match r with
  | re_none => false
  | re_empty => true
  | re_class _ => false
  | re_alt r1 r2 => nullable r1 || nullable r2
  | re_cat r1 r2 => nullable r1 && nullable r2
  | re_star _ => true
  end.

Fixpoint derive (a : ascii) (r : regex) : regex :=
  match r with
  | re_none => re_none
  | re_empty => re_none
  | re_class c => if c a then re_empty else re_none
  | re_alt r1 r2 => re_alt (derive a r1) (derive a r2)
  | re_cat r1 r2 =>
      if nullable r1
      then re_alt (re_cat (derive a r1) r2) (derive a r2)
      else re_cat (derive a r1) r2
  | re_star r' => re_cat (derive a r') (re_star r')
  end.

(** [/^r$/.test(s)] *)
Fixpoint matches (r : regex) (s : string) : bool :=
  match s with
  | EmptyString => nullable r
  | String a s' => matches (derive a r) s'
  end.

(** [\d] *)
Definition is_digit (c : ascii) : bool :=
  let n := nat_of_ascii c in (48 <=? n)%nat && (n <=? 57)%nat.

(** [\w]: a letter, a digit or the underscore. *)
Definition is_word (c : ascii) : bool :=
  let n := nat_of_ascii c in
  ((65 <=? n)%nat && (n <=? 90)%nat)
  || ((97 <=? n)%nat && (n <=? 122)%nat)
  || is_digit c
  || (n =? 95)%nat.

(** [(\w+|\[\d+\])] *)
Definition segment_re : regex :=
  re_alt (re_plus (re_class is_word))
         (re_cat (re_char "["%char)
                 (re_cat (re_plus (re_class is_digit)) (re_char "]"%char))).

(** [/^(\w+|\[\d+\])(\.(\w+|\[\d+\]))*$/] *)
Definition path_re : regex :=
  re_cat segment_re (re_star (re_cat (re_char dot) segment_re)).

(** [JsonUtils.validatePath] *)
Definition validatePath (p : string) : bool := matches path_re p.

(* ================================================================== *)
(** ** parse *)
(* ================================================================== *)

(** How a call of an engine function ends: with a value, or by throwing
    an error that carries a message. *)
Inductive Completion (A : Type) : Type :=
| Return (a : A)
| Throw (message : string).
Arguments Return {A} a.
Arguments Throw {A} message.

(** [interface JsonParseError] *)
Record JsonParseError : Type := mkError {
  message : string;
  line : nat;
  column : nat
}.

(** The object [parse] returns: [{ data, error }], with [null] as [JNull]
    for [data] and as [None] for [error]. *)
Record ParseResult : Type := mkResult {
  data : JsVal;
  error : option JsonParseError
}.

Fixpoint strip_prefix (pre s : string) : option string :=
  match pre with
  | EmptyString => Some s
  | String a pre' =>
      match s with
      | String b s' => if Ascii.eqb a b then strip_prefix pre' s' else None
      | EmptyString => None
      end
  end.

(** The longest run of digits a string starts with: what a greedy [\d+]
    or [\d*] consumes. *)
Fixpoint take_digits (s : string) : string :=
  match s with
  | String c s' => if is_digit c then String c (take_digits s') else EmptyString
  | EmptyString => EmptyString
  end.

(** [msg.match(/position (\d+)/)]: the capture of the leftmost match, or
    [None] when there is none. *)
Fixpoint match_position (msg : string) : option string :=
  let here :=
    match strip_prefix "position " msg with
    | Some rest =>
        let ds := take_digits rest in
        if (ds =? "") then None else Some ds
    | None => None
    end in
  match here with
  | Some ds => Some ds
  | None =>
      match msg with
      | EmptyString => None
      | String _ msg' => match_position msg'
      end
  end.

Fixpoint parseInt_from (s : string) (acc : Z) : Z :=
  match s with
  | String c s' =>
      if is_digit c
      then parseInt_from s' (acc * 10 + (Z.of_nat (nat_of_ascii c) - 48))
      else acc
  | EmptyString => acc
  end.

(** [parseInt(ds)] on a string that starts with a digit. *)
Definition parseInt (ds : string) : Z := parseInt_from ds 0.

Section Engine.

(** [JSON.parse] of the host engine: the parsed value, or a SyntaxError
    with its message.  The engine is not part of the repository; [parse]
    is stated for whatever it answers. *)
Variable JSON_parse : string -> Completion JsVal.

(** The offset [parse] reads out of the engine's message, 0 without one. *)
Definition error_position (msg : string) : Z :=
  match match_position msg with
  | Some ds => parseInt ds
  | None => 0
  end.

(** [JsonUtils.parse] *)
Definition parse (jsonString : string) : ParseResult :=
  match JSON_parse jsonString with
  | Return d => {| data := d; error := None |}
  | Throw msg =>
      let position := error_position msg in
      let lines := split newline (substring jsonString 0 position) in
      let line := length lines in
      let column := (String.length (last_piece lines) + 1)%nat in
      {| data := JNull;
         error := Some {| message := msg; line := line; column := column |} |}
  end.

End Engine.

(* ================================================================== *)
(** ** JSON values, well-formed trees and the invariants of the spec *)
(* ================================================================== *)

(** The values [JSON.parse] produces: no [undefined], no holes, no named
    properties on arrays. *)
Fixpoint json_value (v : JsVal) : bool :=
  match v with
  | JUndefined => false
  | JArr elems props =>
      match props with
      | [] => forallb (fun e => match e with
                                | Some x => json_value x
                                | None => false
                                end) elems
      | _ => false
      end
  | JObj props =>
      forallb (fun kv => match kv with (_, x) => json_value x end) props
  | _ => true
  end.

(** A node whose [value], and those of its descendants, is a JSON value
    or absent. *)
Fixpoint json_node (n : JsonNode) : bool :=
  match n with
  | mkNode _ v _ _ _ _ ch _ =>
      (match v with JUndefined => true | _ => json_value v end)
      && match ch with
         | Some cs => forallb json_node cs
         | None => true
         end
  end.

(** Every node, at every depth, carries its [expanded] flag. *)
Fixpoint has_flags (n : JsonNode) : bool :=
  match n with
  | mkNode _ _ _ _ _ e ch _ =>
      (match e with Some _ => true | None => false end)
      && match ch with
         | Some cs => forallb has_flags cs
         | None => true
         end
  end.

(** A node followed by its descendants, in document order. *)
Fixpoint flatten (n : JsonNode) : list JsonNode :=
  match n with
  | mkNode _ _ _ _ _ _ ch _ =>
      n :: match ch with
           | Some cs => flat_map flatten cs
           | None => []
           end
  end.



(** [child.path] is [parent.path] extended by one segment: the field
    segment of the child's key, or the index segment of its index. *)
Definition extends_by_one_segment (parent child : JsonNode) : bool :=
  (path child =? field_path (path parent) (key child))
  || match index child with
     | Some i => (path child =? index_path (path parent) i)
     | None => false
     end.

(** The TreeNode invariant of the specification, at a node and below:
    [children] is present exactly when [type] is object or array, every
    child is one level deeper and its path extends its parent's by one
    segment. *)
Fixpoint node_invariant (n : JsonNode) : bool :=
  match n with
  | mkNode _ _ t _ l _ ch _ =>
      match ch with
      | Some cs =>
          is_container_type t
          && forallb (fun c => (level c =? S l)%nat
                               && extends_by_one_segment n c
                               && node_invariant c) cs
      | None => negb (is_container_type t)
      end
  end.

Definition tree_invariant (t : list JsonNode) : bool :=
  forallb node_invariant t.


(** The double quote, for JSON texts. *)
Definition dquote : ascii := "034"%char.

(** The running example of the specification: the value of the text
    [{ a: 1, b: [2, 3] }] (keys quoted) and its tree. *)
Definition sample_value : JsVal :=
  JObj [("a", JNum 1); ("b", JArr [Some (JNum 2); Some (JNum 3)] [])].

Definition sample_tree : list JsonNode := toJsonTree sample_value "" 0.

Definition delete_op (p : string) : JsonEditOperation :=
  {| op_type := EditDelete; op_path := p; op_key := ""; op_value := JUndefined;
     op_oldKey := None; op_newPath := None |}.

Definition update_op (p : string) (v : JsVal) : JsonEditOperation :=
  {| op_type := EditUpdate; op_path := p; op_key := ""; op_value := v;
     op_oldKey := None; op_newPath := None |}.

Definition add_op (p k : string) (v : JsVal) : JsonEditOperation :=
  {| op_type := EditAdd; op_path := p; op_key := k; op_value := v;
     op_oldKey := None; op_newPath := None |}.

Definition move_op (p q : string) : JsonEditOperation :=
  {| op_type := EditMove; op_path := p; op_key := ""; op_value := JUndefined;
     op_oldKey := None; op_newPath := Some q |}.

(** A node of a sequence projected at [parentPath] and [lv]: it sits at
    that level, its path extends [parentPath] by its own segment, and the
    invariant holds below it. *)
Definition projected_at (parentPath : string) (lv : nat) (c : JsonNode) : bool :=
  (level c =? lv)%nat
  && ((path c =? field_path parentPath (key c))
      || match index c with
         | Some i => (path c =? index_path parentPath i)
         | None => false
         end)
  && node_invariant c.

(** The words of a regular expression. *)
Inductive lang : regex -> string -> Prop :=
| lang_empty : lang re_empty EmptyString
| lang_class (c : ascii -> bool) (a : ascii) :
    c a = true -> lang (re_class c) (String a EmptyString)
| lang_alt_l (r1 r2 : regex) (s : string) :
    lang r1 s -> lang (re_alt r1 r2) s
| lang_alt_r (r1 r2 : regex) (s : string) :
    lang r2 s -> lang (re_alt r1 r2) s
| lang_cat (r1 r2 : regex) (s1 s2 : string) :
    lang r1 s1 -> lang r2 s2 -> lang (re_cat r1 r2) (s1 ++ s2)
| lang_star_nil (r : regex) : lang (re_star r) EmptyString
| lang_star_cons (r : regex) (s1 s2 : string) :
    lang r s1 -> lang (re_star r) s2 -> lang (re_star r) (s1 ++ s2).

(** Every character of a string satisfies a class. *)
Fixpoint all_chars (c : ascii -> bool) (s : string) : bool :=
  match s with
  | EmptyString => true
  | String a s' => c a && all_chars c s'
  end.

(** A key that is one [\w+] segment. *)
Definition is_word_key (k : string) : bool :=
  negb (k =? "") && all_chars is_word k.

(** Scalars, and Objects with word keys whose members are again such
    values: no Array anywhere. *)
Fixpoint word_keyed (v : JsVal) : bool :=
  match v with
  | JObj props =>
      forallb (fun kv => match kv with
                         | (k, x) => is_word_key k && word_keyed x
                         end) props
  | JArr _ _ => false
  | _ => true
  end.

(** Values in which an Array occurs as the top-level value only and every
    Object key is a word. *)
Definition dotted_value (v : JsVal) : bool :=
  match v with
  | JArr elems _ =>
      forallb (fun e => match e with
                        | Some x => word_keyed x
                        | None => true
                        end) elems
  | _ => word_keyed v
  end.

(* ================================================================== *)
(** ** Line and column of an offset, as the specification words them *)
(* ================================================================== *)

(** The number of newline characters strictly before [offset]. *)
Fixpoint newlines_before (s : string) (offset : nat) : nat :=
  match offset, s with
  | S o, String c s' =>
      ((if Ascii.eqb c newline then 1 else 0) + newlines_before s' o)%nat
  | _, _ => 0%nat
  end.

(** The index of the last newline character strictly before [offset],
    when there is one. *)
Fixpoint last_newline_before (s : string) (offset : nat) : option nat :=
  match offset, s with
  | S o, String c s' =>
      match last_newline_before s' o with
      | Some k => Some (S k)
      | None => if Ascii.eqb c newline then Some 0%nat else None
      end
  | _, _ => None
  end.

(** The 1-based column of [offset] within its line: the distance from
    the preceding newline, or from just before the start of the text. *)
Definition column_of (s : string) (offset : nat) : nat :=
  match last_newline_before s offset with
  | Some k => (offset - k)%nat
  | None => (offset + 1)%nat
  end.

(** An engine that rejects every text with one message: enough to run
    [parse] on a failing text whose message is known. *)
Definition rejecting_engine (msg : string) : string -> Completion JsVal :=
  fun _ => Throw msg.

(** An engine as far as the literal [null] goes: [JSON.parse] of the text
    [null] is the value [null]. *)
Definition null_engine (s : string) : Completion JsVal :=
  if (s =? "null") then Return JNull else Throw "Unexpected token".


Definition broken_second_line : string :=
  "{" ++ String dquote "a" ++ String dquote ": 1," ++ String newline "x}".

(* ================================================================== *)
(** ** The store: node objects and arrays behind references *)
(* ================================================================== *)

(** [applyEdit] and its helpers work on objects: [push] and the
    assignments to [node.value] and [node.type] write into the object a
    reference points to.  The store maps references to the two kinds of
    object a tree is made of.  The payload [value] stays a value: no code
    of [JsonUtils] writes into it. *)
Inductive object : Type :=
| NodeObj (k : string) (v : JsVal) (t : string) (p : string) (lv : nat)
    (e : option bool) (ch : option positive) (i : option nat)
| ArrayObj (items : list positive).

Abbreviation heap := (gmap positive object).

(** A tree laid out in the store: [node_at h n l F] says the object at
    [l] and the objects below it spell the node [n], and [F] is the set
    of the references they occupy, each used once. *)
Inductive node_at (h : heap) : JsonNode -> positive -> gset positive -> Prop :=
| node_at_leaf k v t p lv e i l :
    h !! l = Some (NodeObj k v t p lv e None i) ->
    node_at h (mkNode k v t p lv e None i) l {[l]}
| node_at_branch k v t p lv e i l a ls cs F :
    h !! l = Some (NodeObj k v t p lv e (Some a) i) ->
    h !! a = Some (ArrayObj ls) ->
    nodes_at h cs ls F ->
    l <> a -> l ∉ F -> a ∉ F ->
    node_at h (mkNode k v t p lv e (Some cs) i) l ({[l]} ∪ {[a]} ∪ F)
with nodes_at (h : heap)
  : list JsonNode -> list positive -> gset positive -> Prop :=
| nodes_at_nil : nodes_at h [] [] ∅
| nodes_at_cons c cs l ls F1 F2 :
    node_at h c l F1 ->
    nodes_at h cs ls F2 ->
    F1 ## F2 ->
    nodes_at h (c :: cs) (l :: ls) (F1 ∪ F2).

Scheme node_at_mut := Minimality for node_at Sort Prop
  with nodes_at_mut := Minimality for nodes_at Sort Prop.
Combined Scheme node_nodes_at_ind from node_at_mut, nodes_at_mut.

(** A [JsonNode[]] behind the reference [a]. *)
Definition tree_at (h : heap) (a : positive) (t : list JsonNode)
    (F : gset positive) : Prop :=
  exists ls F',
    (h !! a = Some (ArrayObj ls)) /\ nodes_at h t ls F'
    /\ (a ∉ F') /\ (F = {[a]} ∪ F').

(** A new object, at a reference not in use. *)
Definition alloc (o : object) (h : heap) : positive * heap :=
  let l := fresh (dom h) in (l, <[l := o]> h).

(** [JSON.parse] building the objects of a serialised tree. *)
Fixpoint alloc_node (n : JsonNode) (h : heap) : positive * heap :=
  match n with
  | mkNode k v t p lv e ch i =>
      match ch with
      | Some cs =>
          let '(ls, h1) :=
            (fix alloc_each (cs : list JsonNode) (h : heap)
               : list positive * heap :=
               match cs with
               | [] => ([], h)
               | c :: cs' =>
                   let '(l, h1) := alloc_node c h in
                   let '(ls, h2) := alloc_each cs' h1 in
                   (l :: ls, h2)
               end) cs h in
          let '(a, h2) := alloc (ArrayObj ls) h1 in
          alloc (NodeObj k v t p lv e (Some a) i) h2
      | None => alloc (NodeObj k v t p lv e None i) h
      end
  end.

Fixpoint alloc_nodes (cs : list JsonNode) (h : heap) : list positive * heap :=
  match cs with
  | [] => ([], h)
  | c :: cs' =>
      let '(l, h1) := alloc_node c h in
      let '(ls, h2) := alloc_nodes cs' h1 in
      (l :: ls, h2)
  end.

Definition alloc_array (cs : list JsonNode) (h : heap) : positive * heap :=
  let '(ls, h1) := alloc_nodes cs h in alloc (ArrayObj ls) h1.

(** [JSON.stringify] reading a tree out of the store.  The fuel bounds
    the nesting it follows. *)
Fixpoint read_node (fuel : nat) (h : heap) (l : positive) : option JsonNode :=
  match fuel with
  | O => None
  | S fuel' =>
      match h !! l with
      | Some (NodeObj k v t p lv e ch i) =>
          match ch with
          | Some a =>
              match h !! a with
              | Some (ArrayObj ls) =>
                  match mapM (read_node fuel' h) ls with
                  | Some cs => Some (mkNode k v t p lv e (Some cs) i)
                  | None => None
                  end
              | _ => None
              end
          | None => Some (mkNode k v t p lv e None i)
          end
      | _ => None
      end
  end.

Definition read_array (fuel : nat) (h : heap) (a : positive)
  : option (list JsonNode) :=
  match h !! a with
  | Some (ArrayObj ls) => mapM (read_node fuel h) ls
  | _ => None
  end.

(** [findNodeByPath] on the store: the reference of the node it returns,
    [Some None] for [null]. *)
Fixpoint find_node_h (fuel : nat) (h : heap) (p : string) (l : positive)
  : option (option positive) :=
  match fuel with
  | O => None
  | S fuel' =>
      match h !! l with
      | Some (NodeObj _ _ _ q _ _ ch _) =>
          if (q =? p) then Some (Some l)
          else match ch with
               | Some a =>
                   match h !! a with
                   | Some (ArrayObj ls) =>
                       (fix loop (ls : list positive) : option (option positive) :=
                          match ls with
                          | [] => Some None
                          | c :: ls' =>
                              match find_node_h fuel' h p c with
                              | Some (Some r) => Some (Some r)
                              | Some None => loop ls'
                              | None => None
                              end
                          end) ls
                   | _ => None
                   end
               | None => Some None
               end
      | _ => None
      end
  end.

Fixpoint find_nodes_h (fuel : nat) (h : heap) (p : string) (ls : list positive)
  : option (option positive) :=
  match ls with
  | [] => Some None
  | c :: ls' =>
      match find_node_h fuel h p c with
      | Some (Some r) => Some (Some r)
      | Some None => find_nodes_h fuel h p ls'
      | None => None
      end
  end.

Definition findNodeByPath_h (fuel : nat) (h : heap) (nodes : positive)
    (p : string) : option (option positive) :=
  match h !! nodes with
  | Some (ArrayObj ls) => find_nodes_h fuel h p ls
  | _ => None
  end.

(** [_addNode] on the store: [nodes.push(newNode)] writes the array. *)
Definition _addNode_h (h : heap) (nodes : positive)
    (operation : JsonEditOperation) : option (positive * heap) :=
  if (parent_path (op_path operation) =? "") then
    let '(ln, h1) :=
      alloc (NodeObj (op_key operation) (op_value operation)
               (typeof (op_value operation)) (op_key operation) 0
               None None None) h in
    match h1 !! nodes with
    | Some (ArrayObj ls) => Some (nodes, <[nodes := ArrayObj (ls ++ [ln])]> h1)
    | _ => None
    end
  else Some (nodes, h).

(** [_updateNode] on the store: the two assignments write the node
    [findNodeByPath] returned. *)
Definition _updateNode_h (fuel : nat) (h : heap) (nodes : positive)
    (operation : JsonEditOperation) : option (positive * heap) :=
  match findNodeByPath_h fuel h nodes (op_path operation) with
  | Some (Some ln) =>
      match h !! ln with
      | Some (NodeObj k _ _ p lv e ch i) =>
          Some (nodes,
                <[ln := NodeObj k (op_value operation)
                          (typeof (op_value operation)) p lv e ch i]> h)
      | _ => None
      end
  | Some None => Some (nodes, h)
  | None => None
  end.

(** [node.key !== key] for the node behind a reference. *)
Definition key_differs (h : heap) (k : string) (l : positive) : bool :=
  match h !! l with
  | Some (NodeObj k' _ _ _ _ _ _ _) => negb (k' =? k)
  | _ => false
  end.

(** [_deleteNode] on the store: [filter] returns a new array. *)
Definition _deleteNode_h (h : heap) (nodes : positive)
    (operation : JsonEditOperation) : option (positive * heap) :=
  if (parent_path (op_path operation) =? "") then
    match h !! nodes with
    | Some (ArrayObj ls) =>
        Some (alloc (ArrayObj
                       (List.filter
                          (key_differs h
                             (last_piece (split dot (op_path operation))))
                          ls)) h)
    | _ => None
    end
  else Some (nodes, h).

(** [applyEdit] on the store: serialise the tree behind [root], build
    the copy, edit the copy. *)
Definition applyEdit_h (fuel : nat) (h : heap) (root : positive)
    (operation : JsonEditOperation) : option (positive * heap) :=
  match read_array fuel h root with
  | Some t =>
      let '(newRoot, h1) := alloc_array (map copy_node t) h in
      match op_type operation with
      | EditAdd => _addNode_h h1 newRoot operation
      | EditUpdate => _updateNode_h fuel h1 newRoot operation
      | EditDelete => _deleteNode_h h1 newRoot operation
      | EditMove => Some (newRoot, h1)
      end
  | None => None
  end.

(** What an allocation does to the store: the footprint [F] it fills was
    free, and nothing outside [F] changes. *)
Definition allocated (h h1 : heap) (F : gset positive) : Prop :=
  F ## dom h /\ dom h1 = dom h ∪ F /\ (forall x, x ∉ F -> h1 !! x = h !! x).

(** The object of a node, with another array of children behind it. *)
Definition object_of (m : JsonNode) (ch : option positive) : object :=
  NodeObj (key m) (value m) (type m) (path m) (level m) (expanded m) ch
    (index m).

(** What [findNodeByPath] and the assignments through its result do on a
    layout with footprint [F], against the tree the layout spells:
    nothing is found on either side, or the node found is at a reference
    of [F] and writing it there spells the rewritten tree. *)
Definition found_in_layout {T : Type} (h : heap) (F : gset positive)
    (pure_find : option JsonNode)
    (store_find : nat -> option (option positive))
    (pure_write : (JsonNode -> JsonNode) -> option T)
    (spelled : heap -> T -> Prop) : Prop :=
  match pure_find with
  | None =>
      (exists f0, forall f, (f0 <= f)%nat -> store_find f = Some None)
      /\ forall g, pure_write g = None
  | Some m =>
      exists ln chl,
        (exists f0, forall f, (f0 <= f)%nat -> store_find f = Some (Some ln))
        /\ ln ∈ F
        /\ h !! ln = Some (object_of m chl)
        /\ forall v, exists t',
            pure_write (set_value v) = Some t'
            /\ spelled (<[ln := object_of (set_value v m) chl]> h) t'
  end.

(** The outcome of an edit of the copy, against the store [h] the call
    started from: the tree [t'] is laid out behind [r'] in objects that
    did not exist in [h], and [h'] is [h] plus new objects. *)
Definition edit_outcome (h : heap) (r' : positive) (h' : heap)
    (t' : list JsonNode) : Prop :=
  exists G F', tree_at h' r' t' F' /\ F' ⊆ G /\ allocated h h' G.

(** A store that holds the one-node tree of the text [{ a: 1 }] behind
    the reference 1. *)
Definition one_node_tree : list JsonNode :=
  toJsonTree (JObj [("a", JNum 1)]) "" 0.

Definition one_node_store : heap :=
  {[ 1%positive := ArrayObj [2%positive];
     2%positive := NodeObj "a" (JNum 1) "number" "a" 0 (Some true) None None ]}.


(* ================================================================== *)
(** ** Further vocabulary for the projector and the edits *)
(* ================================================================== *)

(** What [toJsonTree] stores in a node for the member [x] it projects:
    the type computed from [x], the subtree projected from [x] under the
    node's own path one level down, and the default expansion. *)
Definition projects_value (n : JsonNode) : Prop :=
  type n = node_type (value n)
  /\ children n
     = (if is_container_type (type n)
        then Some (toJsonTree (value n) (path n) (S (level n)))
        else None)
  /\ expanded n = Some (level n <? 2)%nat.

(** A text without a dot. *)
Definition dot_free (s : string) : bool :=
  all_chars (fun c => negb (Ascii.eqb c dot)) s.



(** A node on its own: its members, with the children reduced to the
    fact that there are some. *)
Definition row (n : JsonNode) : JsonNode :=
  {| key := key n; value := value n; type := type n; path := path n;
     level := level n; expanded := expanded n;
     children := match children n with Some _ => Some [] | None => None end;
     index := index n |}.

(** All nodes of a tree on their own, in document order. *)
Definition rows (t : list JsonNode) : list JsonNode :=
  map row (flat_map flatten t).

(** A value an edit can carry through the deep copy of a later edit. *)
Definition copyable_value (v : JsVal) : bool :=
  match v with JUndefined => true | _ => json_value v end.

(** What an Update at [p] with [v] does to a sequence of nodes whose
    search for [p] gives [found]: nothing when nothing is found, and
    then no row has the path [p]; else the
    rewritten sequence [t'] differs from [t] in the row of the node
    found, the first row with that path, which becomes the row of the
    node with its value and type set. *)
Definition update_outcome (p : string) (v : JsVal)
    (found : option JsonNode) (written : option (list JsonNode))
    (before : list JsonNode) (refound : list JsonNode -> option JsonNode)
    (rewrite_again : list JsonNode -> option (list JsonNode)) : Prop :=
  match found with
  | None => written = None /\ Forall (fun r => path r <> p) (map row before)
  | Some m =>
      exists t' l1 l2,
        written = Some t'
        /\ map row before = l1 ++ row m :: l2
        /\ Forall (fun r => path r <> p) l1
        /\ path m = p
        /\ rows t' = l1 ++ row (set_value v m) :: l2
        /\ refound t' = Some (set_value v m)
        /\ rewrite_again t' = Some t'
  end.


(** What is left of a string after its leading digits. *)
Fixpoint drop_digits (s : string) : string :=
  match s with
  | String c s' => if is_digit c then drop_digits s' else s
  | EmptyString => EmptyString
  end.

(** A bracketed index: [[], one digit or more, []]. *)
Definition is_index_segment (s : string) : bool :=
  match s with
  | String c r =>
      Ascii.eqb c "["%char
      && negb (take_digits r =? "")
      && (drop_digits r =? "]")
  | EmptyString => false
  end.

(** One segment of a path, as the validator reads it. *)
Definition is_segment (s : string) : bool :=
  is_word_key s || is_index_segment s.

(* ================================================================== *)
(** ** getTypeColor *)
(* ================================================================== *)

(** What a property read gives where the code expects a colour: a string,
    or a member every object inherits from [Object.prototype], which is
    not a string but is truthy. *)
Inductive Looked : Type :=
| Str (s : string)
| Inherited (name : string).

(** The table [colors] of [getTypeColor], in the order of the source. *)
Definition colors : list (string * string) :=
  [("string", "#10b981"); ("number", "#3b82f6"); ("boolean", "#8b5cf6");
   ("null", "#6b7280"); ("object", "#f59e0b"); ("array", "#f59e0b")].

(** The names an object literal inherits from [Object.prototype]. *)
Definition prototype_names : list string :=
  ["constructor"; "hasOwnProperty"; "isPrototypeOf"; "propertyIsEnumerable";
   "toLocaleString"; "toString"; "valueOf"; "__proto__";
   "__defineGetter__"; "__defineSetter__";
   "__lookupGetter__"; "__lookupSetter__"].

Fixpoint own_property (k : string) (table : list (string * string))
  : option string :=
  match table with
  | [] => None
  | (k', c) :: rest => if (k' =? k) then Some c else own_property k rest
  end.

(** [JsonUtils.getTypeColor(type)]: [colors[type] || '#6b7280'].  Every
    colour of the table is a non-empty string, hence truthy. *)
Definition getTypeColor (type : string) : Looked :=
  match own_property type colors with
  | Some c => Str c
  | None =>
      if existsb (String.eqb type) prototype_names then Inherited type
      else Str "#6b7280"
  end.

(* ================================================================== *)
(** ** The editor component: state, events and what it renders *)
(* ================================================================== *)

(** ['tree' | 'raw'] *)
Inductive ViewMode : Type := TreeView | RawView.

(** The five state variables of [JsonEditor]; [parseError] is the state
    variable [error]. *)
Record EditorState : Type := mkEditor {
  jsonInput : string;
  jsonTree : list JsonNode;
  parseError : option JsonParseError;
  viewMode : ViewMode;
  isEditing : bool
}.

(** What the controls of the component call when they fire. *)
Inductive Event : Type :=
| SetViewMode (m : ViewMode)
| FormatJson
| CompactJson
| ToggleEditMode
| ToggleNode (p : string)
| InputChange (value : string).

(** The attributes the component sets on its elements.  [OnClick] holds
    the call the handler makes; [OnChange] stands for
    [onChange={handleInputChange}]. *)
Inductive Attr : Type :=
| Key (k : string)
| ClassName (c : string)
| Height (h : string)
| PaddingLeft (px : nat)
| Color (c : Looked)
| OnClick (ev : Event)
| OnChange
| Disabled (b : bool)
| ReadOnly (b : bool)
| Value (s : string)
| SpellCheck (b : bool).

(** What a render returns: elements with attributes and children, text,
    a JavaScript value given as a child, and the [false] or [undefined]
    left by a condition that does not hold. *)
Inductive Element : Type :=
| Tag (name : string) (attrs : list Attr) (kids : list Element)
| Fragment (kids : list Element)
| Text (s : string)
| Shown (v : JsVal)
| Nothing.

Definition quoted (s : string) : string :=
  String dquote (s ++ String dquote EmptyString).

(** [node.type === 'object' ? a : b] *)
Definition bracket (type a b : string) : Element :=
  Tag "span" [ClassName "json-bracket"]
      [Text (if (type =? "object") then a else b)].

(** [renderNode(node, isArray)] *)
Fixpoint renderNode (node : JsonNode) (isArray : bool) : Element :=
  let indent := (level node * 20)%nat in
  let isExpandable := is_container_type (type node) in
  let isExpanded := negb (not_expanded node) in
  Tag "div" [Key (path node); ClassName "json-node"]
    [ Tag "div" [ClassName "json-node-content"; PaddingLeft indent]
        [ (if isExpandable
           then Tag "button" [ClassName "expand-btn";
                              OnClick (ToggleNode (path node))]
                    [Text (if isExpanded then "▼" else "▶")]
           else Nothing);
          (if negb isExpandable
           then Tag "span" [ClassName "no-expand-spacer"] []
           else Nothing);
          Tag "span" [ClassName "json-key"]
              [Text (if isArray then "[" ++ key node ++ "]"
                     else quoted (key node))];
          Tag "span" [ClassName "json-colon"] [Text ":"];
          (if isExpandable && isExpanded then bracket (type node) "{" "["
           else if isExpandable then bracket (type node) "{...}" "[...]"
           else Tag "span" [ClassName "json-value";
                            Color (getTypeColor (type node))]
                    [match value node with
                     | JStr s => Text (quoted s)
                     | v => Shown v
                     end]) ];
      (if isExpandable && isExpanded then
         match children node with
         | Some cs =>
             Tag "div" [ClassName "json-children"]
               (map (fun child => renderNode child (type node =? "array")) cs
                ++ [Tag "div" [ClassName "json-node-content";
                               PaddingLeft indent]
                        [bracket (type node) "}" "]"]])
         | None => Nothing
         end
       else Nothing) ].

Definition ViewMode_eqb (a b : ViewMode) : bool :=
  match a, b with
  | TreeView, TreeView | RawView, RawView => true
  | _, _ => false
  end.

Definition Event_eqb (a b : Event) : bool :=
  match a, b with
  | SetViewMode m, SetViewMode m' => ViewMode_eqb m m'
  | FormatJson, FormatJson => true
  | CompactJson, CompactJson => true
  | ToggleEditMode, ToggleEditMode => true
  | ToggleNode p, ToggleNode p' => (p =? p')
  | InputChange v, InputChange v' => (v =? v')
  | _, _ => false
  end.

(** A control with these attributes fires the event: a click handler
    that makes this call on a control that is not disabled, or the change
    handler of a text area that is not read-only, for any new text. *)
Definition fires (ev : Event) (attrs : list Attr) : bool :=
  (existsb (fun a => match a with
                     | OnClick ev' => Event_eqb ev ev'
                     | _ => false
                     end) attrs
   && negb (existsb (fun a => match a with
                              | Disabled true => true
                              | _ => false
                              end) attrs))
  || (match ev with InputChange _ => true | _ => false end
      && existsb (fun a => match a with OnChange => true | _ => false end)
           attrs
      && negb (existsb (fun a => match a with
                                 | ReadOnly true => true
                                 | _ => false
                                 end) attrs)).

(** Some control of the rendered output fires the event. *)
Fixpoint offers (ev : Event) (e : Element) : bool :=
  match e with
  | Tag _ attrs kids => fires ev attrs || existsb (offers ev) kids
  | Fragment kids => existsb (offers ev) kids
  | _ => false
  end.

(** The keys of the [json-node] elements of a render, in document
    order: the paths of the nodes that are on display. *)
Fixpoint displayed (e : Element) : list string :=
  match e with
  | Tag _ attrs kids =>
      flat_map (fun a => match a with Key k => [k] | _ => [] end) attrs
      ++ flat_map displayed kids
  | Fragment kids => flat_map displayed kids
  | _ => []
  end.

(** The colours a render asks for. *)
Fixpoint colours (e : Element) : list Looked :=
  match e with
  | Tag _ attrs kids =>
      flat_map (fun a => match a with Color c => [c] | _ => [] end) attrs
      ++ flat_map colours kids
  | Fragment kids => flat_map colours kids
  | _ => []
  end.

Section Editor.

(** [JSON.parse] and [JSON.stringify] of the host engine; the second
    argument of [JSON_stringify] is the indent, [None] when it is left
    out.  On what [JSON.parse] answers, [JSON.stringify] gives a string. *)
Variable JSON_parse : string -> Completion JsVal.
Variable JSON_stringify : JsVal -> option nat -> string.

(** The props of the component. *)
Variable initialJson : string.
Variable height : string.
Variable readOnly : bool.

(** [JsonUtils.format(data, indent = 2)] *)
Definition format (d : JsVal) (indent : nat) : string :=
  JSON_stringify d (Some indent).

(** [JsonUtils.compact(data)] *)
Definition compact (d : JsVal) : string := JSON_stringify d None.

(** [parseJson(jsonString)] *)
Definition parseJson (jsonString : string) (st : EditorState) : EditorState :=
  let r := parse JSON_parse jsonString in
  match error r with
  | Some e =>
      {| jsonInput := jsonInput st; jsonTree := []; parseError := Some e;
         viewMode := viewMode st; isEditing := isEditing st |}
  | None =>
      {| jsonInput := jsonInput st; jsonTree := toJsonTree (data r) "" 0;
         parseError := None;
         viewMode := viewMode st; isEditing := isEditing st |}
  end.

(** The state of the first render, and the state once the effect has
    run [parseJson(jsonInput)]. *)
Definition first_render : EditorState :=
  {| jsonInput := initialJson; jsonTree := []; parseError := None;
     viewMode := TreeView; isEditing := false |}.

Definition mounted : EditorState := parseJson initialJson first_render.

Definition with_input (value : string) (st : EditorState) : EditorState :=
  {| jsonInput := value; jsonTree := jsonTree st;
     parseError := parseError st;
     viewMode := viewMode st; isEditing := isEditing st |}.

(** [handleInputChange(e)], with [value] for [e.target.value] *)
Definition handleInputChange (value : string) (st : EditorState)
  : EditorState :=
  match viewMode st with
  | RawView => parseJson value (with_input value st)
  | TreeView => with_input value st
  end.

(** [formatJson()]: [JSON.parse] is called outside any [try]. *)
Definition formatJson (st : EditorState) : Completion EditorState :=
  match parseError st with
  | Some _ => Return st
  | None =>
      match JSON_parse (jsonInput st) with
      | Return d => Return (with_input (format d 2) st)
      | Throw msg => Throw msg
      end
  end.

(** [compactJson()] *)
Definition compactJson (st : EditorState) : Completion EditorState :=
  match parseError st with
  | Some _ => Return st
  | None =>
      match JSON_parse (jsonInput st) with
      | Return d => Return (with_input (compact d) st)
      | Throw msg => Throw msg
      end
  end.

(** [toggleEditMode()] *)
Definition toggleEditMode (st : EditorState) : EditorState :=
  let st' := if isEditing st then parseJson (jsonInput st) st else st in
  {| jsonInput := jsonInput st'; jsonTree := jsonTree st';
     parseError := parseError st';
     viewMode := viewMode st'; isEditing := negb (isEditing st) |}.

(** What each event calls. *)
Definition handle (ev : Event) (st : EditorState) : Completion EditorState :=
  match ev with
  | SetViewMode m =>
      Return {| jsonInput := jsonInput st; jsonTree := jsonTree st;
                parseError := parseError st;
                viewMode := m; isEditing := isEditing st |}
  | FormatJson => formatJson st
  | CompactJson => compactJson st
  | ToggleEditMode => Return (toggleEditMode st)
  | ToggleNode p =>
      Return {| jsonInput := jsonInput st;
                jsonTree := toggleNode p (jsonTree st);
                parseError := parseError st;
                viewMode := viewMode st; isEditing := isEditing st |}
  | InputChange value => Return (handleInputChange value st)
  end.

Definition action_button (ev : Event) (off : bool) (label : string)
  : Element :=
  Tag "button" [OnClick ev; Disabled off] [Text label].

Definition textarea (st : EditorState) (more : list Attr) : Element :=
  Tag "textarea"
      ([ClassName "json-textarea"; Value (jsonInput st); OnChange;
        SpellCheck false; Height ("calc(" ++ height ++ " - 60px)")] ++ more)
      [].

(** What the component returns for a state. *)
Definition render (st : EditorState) : Element :=
  let has_error :=
    match parseError st with Some _ => true | None => false end in
  Tag "div" [ClassName "json-editor"; Height height]
    [ Tag "div" [ClassName "json-editor-header"]
        [ Tag "div" [ClassName "view-mode-toggle"]
            [ Tag "button"
                  [ClassName (match viewMode st with
                              | TreeView => "active" | RawView => "" end);
                   OnClick (SetViewMode TreeView)]
                  [Text "树视图"];
              Tag "button"
                  [ClassName (match viewMode st with
                              | RawView => "active" | TreeView => "" end);
                   OnClick (SetViewMode RawView)]
                  [Text "原始视图"] ];
          Tag "div" [ClassName "json-actions"]
            [ match viewMode st with
              | TreeView =>
                  Fragment [action_button FormatJson has_error "格式化";
                            action_button CompactJson has_error "压缩"]
              | RawView => Nothing
              end;
              Tag "button" [OnClick ToggleEditMode]
                  [Text (if isEditing st then "应用" else "编辑")] ] ];
      match parseError st with
      | Some e =>
          Tag "div" [ClassName "json-error"]
            [Text "JSON解析错误 (行 "; Shown (JNum (Z.of_nat (line e)));
             Text ", 列 "; Shown (JNum (Z.of_nat (column e)));
             Text "): "; Text (message e)]
      | None => Nothing
      end;
      match viewMode st with
      | TreeView =>
          Tag "div" [ClassName "json-tree-view"]
            [ if isEditing st then textarea st []
              else Tag "div" [ClassName "json-tree-container"]
                     (map (fun node => renderNode node false) (jsonTree st)) ]
      | RawView => textarea st [ReadOnly readOnly]
      end ].

(** The states the component can be in: the mounted one, and the ones an
    event that some control of the current render fires leads to when
    its handler returns. *)
Inductive reachable : EditorState -> Prop :=
| reachable_mounted : reachable mounted
| reachable_step st ev st' :
    reachable st ->
    offers ev (render st) = true ->
    handle ev st = Return st' ->
    reachable st'.

(** The events one after the other, as long as each is fired by a control
    of the current render; [None] when one is not. *)
Fixpoint run (evs : list Event) (st : EditorState)
  : option (Completion EditorState) :=
  match evs with
  | [] => Some (Return st)
  | ev :: rest =>
      if offers ev (render st) then
        match handle ev st with
        | Return st' => run rest st'
        | Throw msg => Some (Throw msg)
        end
      else None
  end.

(** The tree and the error the editor holds are those of one parse of
    [text], whichever nodes have been toggled since. *)
Definition shows (st : EditorState) (text : string) : Prop :=
  match error (parse JSON_parse text) with
  | Some e => parseError st = Some e /\ jsonTree st = []
  | None =>
      parseError st = None
      /\ same_up_to_expanded (jsonTree st)
           (toJsonTree (data (parse JSON_parse text)) "" 0)
  end.

(** [JSON.parse] reads back what [JSON.stringify] writes of a parsed
    value. *)
Definition reads_back : Prop :=
  forall text d indent,
    JSON_parse text = Return d ->
    JSON_parse (JSON_stringify d indent) = Return d.

End Editor.

(** A node as [toJsonTree] makes it, with all below it. *)
Definition fresh (n : JsonNode) : Prop := Forall projects_value (flatten n).

(** At every depth, a node that is not a container has one of the three
    types of a JSON scalar other than [null]. *)
Fixpoint scalar_typed (n : JsonNode) : bool :=
  match n with
  | mkNode _ _ t _ _ _ ch _ =>
      (is_container_type t
       || existsb (String.eqb t) ["string"; "number"; "boolean"])
      && match ch with
         | Some cs => forallb scalar_typed cs
         | None => true
         end
  end.

(** The value with an empty Object in place of every [null] that an
    element of an Array or a property of an Object holds. *)
Fixpoint null_as_empty (v : JsVal) : JsVal :=
  match v with
  | JNull => JObj []
  | JArr elems props =>
      JArr (map (fun e => match e with
                          | Some x => Some (null_as_empty x)
                          | None => None
                          end) elems) props
  | JObj props =>
      JObj (map (fun kv => match kv with
                           | (k, x) => (k, null_as_empty x)
                           end) props)
  | _ => v
  end.

(* ================================================================== *)
(** ** What the round trip makes of Objects *)
(* ================================================================== *)

(** A key that names a property of an Array: not an index, not
    [length], not [__proto__]. *)
Definition name_key (k : string) : bool :=
  match array_index k with
  | Some _ => false
  | None => negb ((k =? "length") || (k =? "__proto__"))
  end.

Fixpoint distinct_keys (ks : list string) : bool :=
  match ks with
  | [] => true
  | k :: rest => negb (existsb (String.eqb k) rest) && distinct_keys rest
  end.

(** Down to depth [d]: the Arrays have no hole and no more elements than
    an Array can have, and the Objects have distinct keys that name
    properties. *)
Fixpoint tame (d : nat) (v : JsVal) : bool :=
  match d with
  | O => true
  | S d' =>
      match v with
      | JArr elems _ =>
          (N.of_nat (length elems) <=? 4294967295)%N
          && forallb (fun e => match e with
                               | Some x => tame d' x
                               | None => false
                               end) elems
      | JObj props =>
          forallb name_key (map fst props)
          && distinct_keys (map fst props)
          && forallb (fun kv => tame d' kv.2) props
      | _ => true
      end
  end.

(** The value with its Objects and its [null]s turned into Arrays down
    to depth [d]: the members of an Object become the named properties
    of an Array without elements, a [null] becomes an empty Array, an
    Array loses its named properties. *)
Fixpoint as_arrays (d : nat) (v : JsVal) : JsVal :=
  match d with
  | O => v
  | S d' =>
      match v with
      | JNull => JArr [] []
      | JArr elems _ =>
          JArr (map (fun e => match e with
                              | Some x => Some (as_arrays d' x)
                              | None => None
                              end) elems) []
      | JObj props =>
          JArr [] (map (fun kv => (kv.1, as_arrays d' kv.2)) props)
      | _ => v
      end
  end.

(* ================================================================== *)
(** ** A small engine for the examples *)
(* ================================================================== *)

(** The text of the running example: [{ a: 1, b: [2, 3] }], keys quoted
    and without blanks. *)
Definition sample_text : string :=
  "{" ++ quoted "a" ++ ":1," ++ quoted "b" ++ ":[2,3]}".

(** An engine as far as the running example and the literal [null] go. *)
Definition sample_parse (s : string) : Completion JsVal :=
  if (s =? sample_text) then Return sample_value
  else if (s =? "null") then Return JNull
  else Throw "Unexpected token".

Definition sample_stringify (d : JsVal) (indent : option nat) : string :=
  match d with
  | JObj _ => sample_text
  | _ => "null"
  end.

(** The mounted editor of the running example, and the state it is in
    after a switch to the raw view and the input of a lone brace. *)
Definition sample_editor : EditorState :=
  mounted sample_parse sample_text.

Definition sample_editor_raw : EditorState :=
  handleInputChange sample_parse "{"
    {| jsonInput := sample_text; jsonTree := sample_tree;
       parseError := None; viewMode := RawView; isEditing := false |}.

(** An Object three levels deep and more, with a [null] on the way. *)
Definition deep_value : JsVal :=
  JObj [("a", JNum 1);
        ("b", JObj [("c", JNull);
                    ("d", JObj [("e", JObj [("f", JNum 1)])])])].

(** The two loops are what [toJsonTree] runs. *)
Lemma toJsonTree_array elems props parentPath level :
  toJsonTree (JArr elems props) parentPath level
  = array_nodes parentPath level elems 0.
Proof.
  simpl.
  match goal with
  | |- ?each elems 0%nat = _ =>
      enough (forall i, each elems i = array_nodes parentPath level elems i)
        by done
  end.
  induction elems as [|[item|] l IH]; intros i; simpl; [done| |apply IH].
  by rewrite IH.
Qed.

Lemma toJsonTree_object props parentPath level :
  toJsonTree (JObj props) parentPath level
  = object_nodes parentPath level props.
Proof.
  simpl. induction props as [|[k v] l IH]; simpl; [done|]. by rewrite IH.
Qed.

Lemma plain_array_unfold elems props :
  plain_array (JArr elems props)
  = match props with
    | [] => (N.of_nat (length elems) <=? 4294967295)%N
            && forallb plain_member elems
    | _ => false
    end.
Proof. reflexivity. Qed.

Lemma array_index_toString (i : nat) :
  (N.of_nat i < 4294967295)%N -> array_index (toString i) = Some i.
Proof.
  intros Hi. unfold array_index, toString.
  rewrite NilEmpty.usu. cbv zeta.
  rewrite DecimalN.Unsigned.of_to, String.eqb_refl.
  apply N.ltb_lt in Hi. rewrite Hi. simpl. by rewrite Nat2N.id.
Qed.

Lemma set_elem_push (elems : list (option JsVal)) (x : JsVal) :
  set_elem elems (length elems) x = elems ++ [Some x].
Proof.
  unfold set_elem. rewrite Nat.ltb_irrefl, Nat.sub_diag. reflexivity.
Qed.

Lemma assigned_plain_member (x : JsVal) (n : JsonNode) k p lv e i :
  plain_member (Some x) = true ->
  (plain_array x = true -> round_trips x) ->
  erase_expanded n
  = erase_expanded
      (mkNode k x (node_type x) p lv e
         (if is_container_type (node_type x)
          then Some (toJsonTree x p (S lv)) else None) i) ->
  key n = k /\ assigned_value n = Some x.
Proof.
  intros Hx IH He. destruct n as [k' v' t' p' l' e' ch' i'].
  destruct x; try discriminate Hx; simpl in He.
  1-3: injection He as -> -> _ _ _ Hch _; split; [done|];
       destruct ch'; [discriminate Hch|]; by destruct e' as [[]|].
  injection He as -> -> _ _ _ Hch _. split; [done|].
  destruct ch' as [cs|]; [|discriminate Hch].
  injection Hch as Hcs.
  destruct e' as [[]|]; simpl; try done.
  apply (IH Hx _ _ _ Hcs).
Qed.

Lemma assign_plain_members parentPath lv (es : list (option JsVal)) :
  forall (t : list JsonNode) (acc : list (option JsVal)),
    forallb plain_member es = true ->
    Forall (fun e => match e with
                     | Some x => plain_array x = true -> round_trips x
                     | None => True
                     end) es ->
    (N.of_nat (length acc + length es) <= 4294967295)%N ->
    map erase_expanded t
    = map erase_expanded (array_nodes parentPath lv es (length acc)) ->
    fold_left put_entry (map (fun c => (key c, assigned_value c)) t)
      (Some (acc, []))
    = Some (acc ++ es, []).
Proof.
  induction es as [|e es IH]; intros t acc Hes HIH Hlen Ht.
  - destruct t; [|discriminate Ht]. simpl. by rewrite app_nil_r.
  - simpl in Hes. apply andb_true_iff in Hes as [He Hes].
    destruct e as [x|]; [|discriminate He].
    inversion HIH as [|? ? Hx HIH']; subst.
    simpl in Ht. destruct t as [|n t]; [discriminate Ht|].
    simpl in Ht. injection Ht as Hn Ht.
    destruct (assigned_plain_member x n (toString (length acc))
                (index_path parentPath (length acc)) lv None
                (Some (length acc)) He Hx Hn) as [Hk Hv].
    simpl. rewrite Hk, Hv. unfold array_put. simpl.
    rewrite array_index_toString by (simpl in Hlen; lia).
    rewrite set_elem_push.
    rewrite (IH t (acc ++ [Some x]) Hes HIH').
    + by rewrite <- app_assoc.
    + rewrite length_app. simpl in *. lia.
    + rewrite length_app. simpl. by replace (length acc + 1)%nat with (S (length acc)) by lia.
Qed.

Lemma plain_array_round_trips (v : JsVal) :
  plain_array v = true -> round_trips v.
Proof.
  induction v as [| | | | |elems props IHe _|] using JsVal_nested_ind;
    try discriminate.
  rewrite plain_array_unfold. destruct props; [|discriminate].
  intros [Hlen Hes]%andb_true_iff parentPath lv t Ht.
  red in Ht. rewrite toJsonTree_array in Ht.
  unfold fromJsonTree, assign_all.
  rewrite (assign_plain_members parentPath lv elems t []); try done.
  simpl. by apply N.leb_le.
Qed.


(* ================================================================== *)
(** ** The tree round trip (C1) *)
(* ================================================================== *)

(** An array of plain members, with a nested array collapsed by hand. *)
Example round_trip_sample :
  let v := JArr [Some (JNum 1); Some (JArr [Some (JBool true); Some (JStr "x")] [])] [] in
  fromJsonTree (toggleNode "[1]" (toJsonTree v "" 0)) = Some v.
Proof. reflexivity. Qed.

(** What the projection does outside the plain arrays: the members of an
    Object come back as named properties of an Array, and a [null] member
    of an expanded level comes back as an empty Array. *)
Example fromJsonTree_object_sample :
  fromJsonTree (toJsonTree (JObj [("a", JNum 1)]) "" 0)
  = Some (JArr [] [("a", JNum 1)]).
Proof. reflexivity. Qed.

Example fromJsonTree_null_sample :
  fromJsonTree (toJsonTree (JArr [Some JNull] []) "" 0)
  = Some (JArr [Some (JArr [] [])] [])
  /\ fromJsonTree (map erase_expanded (toJsonTree (JArr [Some JNull] []) "" 0))
     = Some (JArr [Some JNull] []).
Proof. split; reflexivity. Qed.

(** C1, as amended: for every Array [v] without holes whose members are
    booleans, numbers, strings or again such Arrays, converting [v] to a
    tree and back yields [v], whichever nodes of the tree are expanded or
    collapsed. *)
Theorem C1_plain_array_round_trip (v : JsVal) (t : list JsonNode) :
  plain_array v = true ->
  same_up_to_expanded t (toJsonTree v "" 0) ->
  fromJsonTree t = Some v.
Proof.
  intros Hv Ht. exact (plain_array_round_trips v Hv "" 0%nat t Ht).
Qed.

Lemma C1_plain_array_round_trip_witness :
  let v := JArr [Some (JNum 1); Some (JArr [Some (JBool true); Some (JStr "x")] [])] [] in
  let t := toggleNode "[1]" (toJsonTree v "" 0) in
  plain_array v = true
  /\ same_up_to_expanded t (toJsonTree v "" 0)
  /\ fromJsonTree t = Some v.
Proof.
  intros v t.
  split; [reflexivity|]. split; [reflexivity|].
  apply (C1_plain_array_round_trip v t); reflexivity.
Defined.

(** C1 as stated fails on a scalar: the number 1 is a JSON value, its
    tree is the empty sequence, and the empty sequence converts back to an
    empty Array. *)
Lemma C1_scalar_counterexample :
  json_value (JNum 1) = true
  /\ toJsonTree (JNum 1) "" 0 = []
  /\ fromJsonTree (toJsonTree (JNum 1) "" 0) = Some (JArr [] [])
  /\ fromJsonTree (toJsonTree (JNum 1) "" 0) <> Some (JNum 1).
Proof. repeat split; discriminate. Qed.

(* ================================================================== *)
(** ** The deep copy taken by applyEdit *)
(* ================================================================== *)

Lemma json_copy_id (v : JsVal) : json_value v = true -> json_copy v = v.
Proof.
  induction v as [| | | | |elems props IHe _|props IHp] using JsVal_nested_ind;
    try done.
  - simpl. destruct props; [|discriminate]. intros Hes. f_equal.
    induction elems as [|e es IH]; [done|].
    simpl in Hes. apply andb_true_iff in Hes as [He Hes].
    inversion IHe as [|? ? Hx IHe']; subst.
    simpl. rewrite (IH IHe' Hes). f_equal.
    destruct e as [x|]; [|discriminate].
    rewrite (Hx He). by destruct x.
  - simpl. intros Hps. f_equal.
    induction props as [|[k x] ps IH]; [done|].
    simpl in Hps. apply andb_true_iff in Hps as [Hx Hps].
    inversion IHp as [|? ? Hx' IHp']; subst.
    simpl. rewrite (IH IHp' Hps). simpl in Hx'.
    rewrite (Hx' Hx). by destruct x.
Qed.

Lemma copy_node_id (n : JsonNode) : json_node n = true -> copy_node n = n.
Proof.
  induction n as [k v t p l e ch i IH] using JsonNode_nested_ind.
  simpl. intros [Hv Hch]%andb_true_iff.
  assert (json_copy v = v) as ->.
  { destruct v; try done; by apply json_copy_id. }
  f_equal. destruct ch as [cs|]; [|done]. f_equal.
  induction cs as [|c cs IHcs]; [done|].
  simpl in Hch. apply andb_true_iff in Hch as [Hc Hcs].
  inversion IH as [|? ? Hc' IH']; subst.
  simpl. by rewrite (Hc' Hc), (IHcs IH' Hcs).
Qed.

Lemma copy_tree_id (t : list JsonNode) :
  forallb json_node t = true -> map copy_node t = t.
Proof.
  induction t as [|n t IH]; [done|].
  simpl. intros [Hn Ht]%andb_true_iff.
  by rewrite (copy_node_id n Hn), (IH Ht).
Qed.

Lemma json_value_node_value (v : JsVal) :
  json_value v = true ->
  match v with JUndefined => true | _ => json_value v end = true.
Proof. by destruct v. Qed.

Lemma toJsonTree_json_node (v : JsVal) :
  json_value v = true ->
  forall parentPath lv, forallb json_node (toJsonTree v parentPath lv) = true.
Proof.
  induction v as [| | | | |elems props IHe _|props IHp] using JsVal_nested_ind;
    try done.
  - intros Hv parentPath lv. rewrite toJsonTree_array.
    simpl in Hv. destruct props; [|discriminate].
    generalize 0%nat.
    induction elems as [|e es IH]; intros i; [done|].
    simpl in Hv. apply andb_true_iff in Hv as [He Hes].
    inversion IHe as [|? ? Hx IHe']; subst.
    destruct e as [x|]; [|discriminate]. simpl.
    rewrite (json_value_node_value x He), (IH IHe' Hes). simpl.
    rewrite andb_true_r.
    destruct (is_container_type (node_type x)); [|done]. by apply Hx.
  - intros Hv parentPath lv. rewrite toJsonTree_object.
    induction props as [|[k x] ps IH]; [done|].
    simpl in Hv. apply andb_true_iff in Hv as [Hx Hps].
    inversion IHp as [|? ? Hx' IHp']; subst. simpl in Hx'. simpl.
    rewrite (json_value_node_value x Hx), (IH IHp' Hps). simpl.
    rewrite andb_true_r.
    destruct (is_container_type (node_type x)); [|done]. by apply Hx'.
Qed.

(* ================================================================== *)
(** ** The end-to-end scenario (C2) *)
(* ================================================================== *)

(** The tree of the running example: two top-level nodes, [a] a number
    and [b] an expanded array with the children [0] and [1]. *)
Example sample_tree_shape :
  map key sample_tree = ["a"; "b"]
  /\ map type sample_tree = ["number"; "array"]
  /\ map path (flat_map flatten sample_tree) = ["a"; "b"; "b[0]"; "b[1]"].
Proof. repeat split. Qed.

(** The path [b[0]] has no dot: its parent path is empty and the key
    [_deleteNode] filters on is the whole text. *)
Example delete_key_of_index_path :
  parent_path "b[0]" = "" /\ last_piece (split dot "b[0]") = "b[0]".
Proof. split; reflexivity. Qed.

(** C2, as amended: on the tree built from the running example the edit
    Delete with path [b[0]] returns the tree unchanged; node [b] keeps
    its two children, keyed 0 and 1 and holding 2 and 3. *)
Theorem C2_delete_index_path_keeps_tree :
  applyEdit sample_tree (delete_op "b[0]") = sample_tree
  /\ (exists b c0 c1,
        findNodeByPath (applyEdit sample_tree (delete_op "b[0]")) "b" = Some b
        /\ children b = Some [c0; c1]
        /\ (key c0, value c0) = ("0", JNum 2)
        /\ (key c1, value c1) = ("1", JNum 3)).
Proof.
  split; [reflexivity|].
  eexists _, _, _. split; [reflexivity|]. repeat split.
Qed.

(** C2 as stated fails: after the edit node [b] does not have a single
    child keyed 0 holding 3, and the tree does not convert back to the
    value of the text with [b] reduced to [3]. *)
Lemma C2_delete_index_path_counterexample :
  ~ (exists b c,
        findNodeByPath (applyEdit sample_tree (delete_op "b[0]")) "b" = Some b
        /\ children b = Some [c] /\ key c = "0" /\ value c = JNum 3)
  /\ fromJsonTree (applyEdit sample_tree (delete_op "b[0]"))
     <> Some (JObj [("a", JNum 1); ("b", JArr [Some (JNum 3)] [])]).
Proof.
  split; [|discriminate].
  intros (b & c & Hb & Hc & _). vm_compute in Hb.
  injection Hb as <-. discriminate Hc.
Qed.

(** A top-level path is deleted by key. *)
Example delete_top_level_sample :
  map key (applyEdit sample_tree (delete_op "b")) = ["a"].
Proof. reflexivity. Qed.

(* ================================================================== *)
(** ** Update at a path that does not resolve (C3) *)
(* ================================================================== *)




(* ================================================================== *)
(** ** Expanding and collapsing (C7) *)
(* ================================================================== *)

(** Every tree [toJsonTree] builds carries its flags, and a toggle keeps
    them: the tree state of the editor always does. *)
Lemma toJsonTree_has_flags (v : JsVal) :
  forall parentPath lv, forallb has_flags (toJsonTree v parentPath lv) = true.
Proof.
  induction v as [| | | | |elems props IHe _|props IHp] using JsVal_nested_ind;
    try done.
  - intros parentPath lv. rewrite toJsonTree_array. generalize 0%nat.
    induction elems as [|e es IH]; intros i; [done|].
    inversion IHe as [|? ? Hx IHe']; subst.
    destruct e as [x|]; simpl; [|by apply IH].
    rewrite (IH IHe'), andb_true_r.
    destruct (is_container_type (node_type x)); [|done]. by apply Hx.
  - intros parentPath lv. rewrite toJsonTree_object.
    induction props as [|[k x] ps IH]; [done|].
    inversion IHp as [|? ? Hx IHp']; subst. simpl in Hx. simpl.
    rewrite (IH IHp'), andb_true_r.
    destruct (is_container_type (node_type x)); [|done]. by apply Hx.
Qed.

Lemma updateExpanded_has_flags (p : string) (n : JsonNode) :
  has_flags n = true -> has_flags (updateExpanded_node p n) = true.
Proof.
  induction n as [k v t q l e ch i IH] using JsonNode_nested_ind.
  simpl. destruct (q =? p); [by intros [_ ?]%andb_true_iff|].
  destruct ch as [cs|]; [|done]. simpl.
  intros [He Hcs]%andb_true_iff. rewrite He. simpl.
  induction cs as [|c cs IHcs]; [done|].
  simpl in Hcs. apply andb_true_iff in Hcs as [Hc Hcs].
  inversion IH as [|? ? Hc' IH']; subst.
  simpl. by rewrite (Hc' Hc), (IHcs IH' Hcs).
Qed.

Lemma toggleNode_has_flags (p : string) (t : list JsonNode) :
  forallb has_flags t = true -> forallb has_flags (toggleNode p t) = true.
Proof.
  induction t as [|n t IH]; [done|]. simpl.
  intros [Hn Ht]%andb_true_iff.
  by rewrite (updateExpanded_has_flags p n Hn), (IH Ht).
Qed.


Lemma updateExpanded_erase (p : string) (n : JsonNode) :
  erase_expanded (updateExpanded_node p n) = erase_expanded n.
Proof.
  induction n as [k v t q l e ch i IH] using JsonNode_nested_ind.
  simpl. destruct (q =? p); [done|].
  destruct ch as [cs|]; [|done]. simpl. do 2 f_equal.
  induction cs as [|c cs IHcs]; [done|].
  inversion IH as [|? ? Hc IH']; subst.
  simpl. by rewrite Hc, (IHcs IH').
Qed.






(* ================================================================== *)
(** ** The TreeNode invariant (C9) *)
(* ================================================================== *)

Lemma node_invariant_unfold k v t p l e ch i :
  node_invariant (mkNode k v t p l e ch i)
  = match ch with
    | Some cs => is_container_type t && forallb (projected_at p (S l)) cs
    | None => negb (is_container_type t)
    end.
Proof. reflexivity. Qed.

(** The projector establishes the invariant, at every level. *)
Lemma toJsonTree_projected_at (v : JsVal) :
  forall parentPath lv,
    forallb (projected_at parentPath lv) (toJsonTree v parentPath lv) = true.
Proof.
  induction v as [| | | | |elems props IHe _|props IHp] using JsVal_nested_ind;
    try done.
  - intros parentPath lv. rewrite toJsonTree_array. generalize 0%nat.
    induction elems as [|e es IH]; intros i; [done|].
    inversion IHe as [|? ? Hx IHe']; subst.
    destruct e as [x|]; [|by apply IH].
    cbn [array_nodes forallb]. rewrite (IH IHe'), andb_true_r.
    unfold projected_at at 1. rewrite node_invariant_unfold. cbn [level path index key].
    rewrite Nat.eqb_refl, (String.eqb_refl (index_path parentPath i)), orb_true_r.
    simpl. destruct (is_container_type (node_type x)); [|done]. by apply Hx.
  - intros parentPath lv. rewrite toJsonTree_object.
    induction props as [|[k x] ps IH]; [done|].
    inversion IHp as [|? ? Hx IHp']; subst. simpl in Hx.
    cbn [object_nodes forallb]. rewrite (IH IHp'), andb_true_r.
    unfold projected_at at 1. rewrite node_invariant_unfold. cbn [level path index key].
    rewrite Nat.eqb_refl, (String.eqb_refl (field_path parentPath k)).
    simpl. destruct (is_container_type (node_type x)); [|done]. by apply Hx.
Qed.

Lemma projected_at_invariant parentPath lv (t : list JsonNode) :
  forallb (projected_at parentPath lv) t = true -> tree_invariant t = true.
Proof.
  unfold tree_invariant. induction t as [|n t IH]; [done|]. simpl.
  intros [[_ Hn]%andb_true_iff Ht]%andb_true_iff. by rewrite Hn, (IH Ht).
Qed.

(** X1: every tree [toJsonTree] makes of a value satisfies the
    invariant of tree nodes. *)
Lemma toJsonTree_invariant (v : JsVal) :
  tree_invariant (toJsonTree v "" 0) = true.
Proof.
  apply (projected_at_invariant "" 0%nat), toJsonTree_projected_at.
Qed.

(** The deep copy changes values only, which the invariant does not
    read. *)
Lemma copy_node_invariant (n : JsonNode) :
  node_invariant (copy_node n) = node_invariant n.
Proof.
  induction n as [k v t p l e ch i IH] using JsonNode_nested_ind.
  cbn [copy_node]. rewrite !node_invariant_unfold.
  destruct ch as [cs|]; [|done]. f_equal.
  induction cs as [|c cs IHcs]; [done|].
  inversion IH as [|? ? Hc IH']; subst.
  cbn [map forallb]. rewrite (IHcs IH'). f_equal.
  unfold projected_at. rewrite Hc. by destruct c.
Qed.

Lemma copy_tree_invariant (t : list JsonNode) :
  tree_invariant (map copy_node t) = tree_invariant t.
Proof.
  unfold tree_invariant. induction t as [|n t IH]; [done|].
  simpl. by rewrite copy_node_invariant, IH.
Qed.

(** X2: Delete and Move keep the invariant of the tree they are given. *)
Lemma delete_move_invariant (t : list JsonNode) (p q : string) :
  tree_invariant t = true ->
  tree_invariant (applyEdit t (delete_op p)) = true
  /\ tree_invariant (applyEdit t (move_op p q)) = true.
Proof.
  intros Ht. rewrite <- copy_tree_invariant in Ht.
  split; [|exact Ht].
  unfold applyEdit, _deleteNode. cbn [op_type delete_op op_path].
  destruct (parent_path p =? ""); [|exact Ht].
  revert Ht. unfold tree_invariant. generalize (map copy_node t) as l.
  induction l as [|n l IH]; [done|]. simpl.
  intros [Hn Hl]%andb_true_iff.
  destruct (negb _); simpl; [by rewrite Hn, (IH Hl)|exact (IH Hl)].
Qed.

Lemma delete_move_invariant_sample :
  tree_invariant sample_tree = true
  /\ tree_invariant (applyEdit sample_tree (delete_op "b")) = true
  /\ tree_invariant (applyEdit sample_tree (move_op "a" "b.a")) = true.
Proof.
  split; [reflexivity|].
  apply (delete_move_invariant sample_tree "b" "b.a"). reflexivity.
Defined.

(** C9 at its failing inputs: the tree of the running example satisfies
    the invariant; after Update of the leaf [a] with an array the node has
    type [object] and no children; after Update of the array [b] with a
    number the node has type [number] and still its children; after Add
    of an empty object at top level the new node has type [object] and no
    children. *)
Theorem C9_update_add_break_invariant :
  tree_invariant sample_tree = true
  /\ tree_invariant
       (applyEdit sample_tree (update_op "a" (JArr [Some (JNum 1)] []))) = false
  /\ tree_invariant (applyEdit sample_tree (update_op "b" (JNum 7))) = false
  /\ tree_invariant (applyEdit sample_tree (add_op "c" "c" (JObj []))) = false
  /\ option_map (fun n => (type n, children n))
       (findNodeByPath
          (applyEdit sample_tree (update_op "a" (JArr [Some (JNum 1)] []))) "a")
     = Some ("object", None).
Proof. repeat split. Qed.

(* ================================================================== *)
(** ** The matcher accepts the words of its expression *)
(* ================================================================== *)

Lemma lang_nullable (r : regex) (s : string) :
  lang r s -> s = EmptyString -> nullable r = true.
Proof.
  induction 1 as [|c a Hc|r1 r2 s _ IH|r1 r2 s _ IH
                  |r1 r2 s1 s2 _ IH1 _ IH2| |r s1 s2 _ _ _ _]; intros Hs;
    simpl; try done.
  - by rewrite IH.
  - rewrite IH by done. apply orb_true_r.
  - destruct s1; [|discriminate Hs]. simpl in Hs. by rewrite IH1, IH2.
Qed.

Lemma lang_derive (r : regex) (s : string) :
  lang r s -> forall a s', s = String a s' -> lang (derive a r) s'.
Proof.
  induction 1 as [|c b Hc|r1 r2 s _ IH|r1 r2 s _ IH
                  |r1 r2 s1 s2 H1 IH1 H2 IH2| |r s1 s2 H1 IH1 H2 IH2];
    intros a s' Hs; simpl; try discriminate Hs.
  - injection Hs as -> <-. rewrite Hc. constructor.
  - apply lang_alt_l. by apply IH.
  - apply lang_alt_r. by apply IH.
  - destruct s1 as [|b s1].
    + simpl in Hs. rewrite (lang_nullable r1 EmptyString H1 eq_refl).
      apply lang_alt_r. by apply IH2.
    + simpl in Hs. injection Hs as -> <-.
      pose proof (lang_cat _ _ _ _ (IH1 a s1 eq_refl) H2) as Hcat.
      destruct (nullable r1); [by apply lang_alt_l|done].
  - destruct s1 as [|b s1].
    + simpl in Hs. by apply IH2.
    + simpl in Hs. injection Hs as -> <-.
      exact (lang_cat _ _ _ _ (IH1 a s1 eq_refl) H2).
Qed.

Lemma lang_matches (s : string) :
  forall r, lang r s -> matches r s = true.
Proof.
  induction s as [|a s IH]; intros r Hr; simpl.
  - by apply (lang_nullable r EmptyString).
  - apply IH. by apply (lang_derive r (String a s)).
Qed.

Lemma string_app_cons (a : ascii) (s t : string) :
  (String a s ++ t)%string = String a (s ++ t).
Proof. reflexivity. Qed.

Lemma string_app_nil_r (s : string) : (s ++ "")%string = s.
Proof.
  induction s as [|a s IH]; [done|]. by rewrite string_app_cons, IH.
Qed.

Lemma string_app_assoc (s1 s2 s3 : string) :
  ((s1 ++ s2) ++ s3)%string = (s1 ++ s2 ++ s3)%string.
Proof.
  induction s1 as [|a s1 IH]; [done|]. by rewrite !string_app_cons, IH.
Qed.

Lemma lang_star_snoc (r : regex) (s1 s2 : string) :
  lang (re_star r) s1 -> lang r s2 -> lang (re_star r) (s1 ++ s2).
Proof.
  intros H1 H2. remember (re_star r) as rs eqn:Hrs.
  induction H1 as [| | | | | r'|r' t1 t2 Ht1 _ Ht2 IH]; try discriminate Hrs.
  - injection Hrs as ->. change (lang (re_star r) s2).
    rewrite <- (string_app_nil_r s2).
    apply lang_star_cons; [exact H2|constructor].
  - injection Hrs as ->. rewrite string_app_assoc.
    apply lang_star_cons; [exact Ht1|]. by apply IH.
Qed.

Lemma lang_plus_class (c : ascii -> bool) (s : string) :
  s <> EmptyString -> all_chars c s = true -> lang (re_plus (re_class c)) s.
Proof.
  destruct s as [|a s]; [done|]. intros _. simpl.
  intros [Ha Hs]%andb_true_iff.
  change (String a s) with (String a EmptyString ++ s)%string.
  apply lang_cat; [by constructor|].
  induction s as [|b s IH]; [constructor|].
  simpl in Hs. apply andb_true_iff in Hs as [Hb Hs].
  change (String b s) with (String b EmptyString ++ s)%string.
  apply lang_star_cons; [by constructor|by apply IH].
Qed.

(* ================================================================== *)
(** ** Paths of the projector and the validator (C8) *)
(* ================================================================== *)

Lemma string_of_uint_digits (d : Decimal.uint) :
  all_chars is_digit (NilEmpty.string_of_uint d) = true.
Proof. induction d; simpl; done. Qed.

Lemma toString_digits (i : nat) :
  toString i <> EmptyString /\ all_chars is_digit (toString i) = true.
Proof.
  unfold toString. split; [|apply string_of_uint_digits].
  destruct (N.of_nat i) as [|q]; [done|].
  pose proof (DecimalPos.Unsigned.to_uint_nonnil q) as Hq.
  simpl. by destruct (Pos.to_uint q).
Qed.

Lemma lang_segment_word (k : string) :
  is_word_key k = true -> lang segment_re k.
Proof.
  unfold is_word_key. intros [Hk Hw]%andb_true_iff.
  apply lang_alt_l, lang_plus_class; [|done].
  intros ->. discriminate Hk.
Qed.

Lemma lang_segment_index (i : nat) :
  lang segment_re ("[" ++ toString i ++ "]").
Proof.
  apply lang_alt_r.
  change ("[" ++ toString i ++ "]")%string
    with (String "["%char EmptyString ++ (toString i ++ "]"))%string.
  apply lang_cat; [by constructor|].
  apply lang_cat; [|by constructor].
  destruct (toString_digits i). by apply lang_plus_class.
Qed.

Lemma lang_path_one (s : string) : lang segment_re s -> lang path_re s.
Proof.
  intros Hs. rewrite <- (string_app_nil_r s).
  apply lang_cat; [done|constructor].
Qed.

Lemma lang_path_dot (p s : string) :
  lang path_re p -> lang segment_re s -> lang path_re (p ++ "." ++ s).
Proof.
  intros Hp Hs. inversion Hp as [| | | |r1 r2 s1 s2 H1 H2| |]; subst.
  rewrite string_app_assoc. apply lang_cat; [done|].
  apply lang_star_snoc; [done|].
  change ("." ++ s)%string with (String dot EmptyString ++ s)%string.
  apply lang_cat; [by constructor|done].
Qed.

Lemma lang_field_path (parentPath k : string) :
  parentPath = EmptyString \/ lang path_re parentPath ->
  is_word_key k = true ->
  lang path_re (field_path parentPath k).
Proof.
  intros Hp Hk. unfold field_path.
  destruct (parentPath =? "") eqn:He.
  - by apply lang_path_one, lang_segment_word.
  - destruct Hp as [->|Hp]; [discriminate He|].
    by apply lang_path_dot, lang_segment_word.
Qed.

(** Below a valid parent path, an array-free value with word keys
    projects to nodes with valid paths. *)
Lemma word_keyed_paths (v : JsVal) :
  word_keyed v = true ->
  forall parentPath lv,
    parentPath = EmptyString \/ lang path_re parentPath ->
    Forall (fun n => lang path_re (path n))
      (flat_map flatten (toJsonTree v parentPath lv)).
Proof.
  induction v as [| | | | |elems props _ _|props IHp] using JsVal_nested_ind;
    try (intros; constructor); try discriminate.
  intros Hv parentPath lv Hp. rewrite toJsonTree_object.
  induction props as [|[k x] ps IH]; [constructor|].
  simpl in Hv. apply andb_true_iff in Hv as [[Hk Hx]%andb_true_iff Hps].
  inversion IHp as [|? ? Hx' IHp']; subst. simpl in Hx'.
  pose proof (lang_field_path parentPath k Hp Hk) as Hpath.
  cbn [object_nodes flat_map flatten]. rewrite <- app_comm_cons.
  constructor; [exact Hpath|].
  apply Forall_app. split; [|by apply IH].
  destruct (is_container_type (node_type x)); [|constructor].
  apply Hx'; [done|by right].
Qed.

Lemma dotted_value_paths (v : JsVal) :
  dotted_value v = true ->
  Forall (fun n => lang path_re (path n))
    (flat_map flatten (toJsonTree v "" 0)).
Proof.
  destruct v as [| | | | |elems props|props];
    try (intros; apply word_keyed_paths; [done|by left]).
  intros Hv. rewrite toJsonTree_array. simpl in Hv.
  enough (forall i, Forall (fun n => lang path_re (path n))
                      (flat_map flatten (array_nodes "" 0 elems i))) by done.
  induction elems as [|e es IH]; intros i; [constructor|].
  simpl in Hv. apply andb_true_iff in Hv as [He Hes].
  destruct e as [x|]; [|by apply IH].
  cbn [array_nodes flat_map flatten]. rewrite <- app_comm_cons.
  pose proof (lang_path_one _ (lang_segment_index i)) as Hpath.
  constructor; [exact Hpath|].
  apply Forall_app. split; [|by apply IH].
  destruct (is_container_type (node_type x)); [|constructor].
  apply word_keyed_paths; [done|by right].
Qed.

(** The validator rejects an index segment that follows another segment
    without a dot, and accepts it after a dot. *)
Example validatePath_index_samples :
  map validatePath ["b[0]"; "settings.tags[0]"; "[0][1]"; "b.[0]"; "[0]"; "[0].a"]
  = [false; false; false; true; true; true].
Proof. reflexivity. Qed.

(** C8, as amended: for every value in which each Object key is a
    non-empty word over letters, digits and the underscore and an Array
    occurs only as the top-level value, the validator accepts the path of
    every node, at any depth, of the tree of the value. *)
Theorem C8_validatePath_accepts_dotted_paths (v : JsVal) :
  dotted_value v = true ->
  Forall (fun n => validatePath (path n) = true)
    (flat_map flatten (toJsonTree v "" 0)).
Proof.
  intros Hv. eapply Forall_impl; [exact (dotted_value_paths v Hv)|].
  intros n Hn. by apply lang_matches.
Qed.

Lemma C8_validatePath_accepts_dotted_paths_witness :
  let v := JArr [Some (JObj [("name", JStr "x"); ("opts", JObj [("a_1", JNull)])])] [] in
  dotted_value v = true
  /\ Forall (fun n => validatePath (path n) = true)
       (flat_map flatten (toJsonTree v "" 0)).
Proof.
  intros v. split; [reflexivity|].
  apply (C8_validatePath_accepts_dotted_paths v). reflexivity.
Defined.

(** C8 as stated fails on a key that is not a word: the Object with the
    single key [my-key] is a JSON value, and the validator rejects the
    path of its node. *)
Lemma C8_validatePath_counterexample :
  json_value (JObj [("my-key", JNum 1)]) = true
  /\ map path (flat_map flatten (toJsonTree (JObj [("my-key", JNum 1)]) "" 0))
     = ["my-key"]
  /\ validatePath "my-key" = false.
Proof. repeat split. Qed.

(* ================================================================== *)
(** ** Line and column of a parse error (C5, C10) *)
(* ================================================================== *)

Lemma split_not_nil (c : ascii) (s : string) : split c s <> [].
Proof.
  destruct s as [|a s]; [done|]. simpl.
  destruct (Ascii.eqb a c); [done|]. by destruct (split c s).
Qed.

Lemma last_piece_cons (x y : string) (l : list string) :
  last_piece (x :: y :: l) = last_piece (y :: l).
Proof. reflexivity. Qed.

Lemma last_piece_snoc (l : list string) (x : string) :
  last_piece (l ++ [x]) = x.
Proof. unfold last_piece. by rewrite List.last_last. Qed.

Lemma substring_0_length (s : string) (n : nat) :
  (n <= String.length s)%nat -> String.length (String.substring 0 n s) = n.
Proof.
  revert n. induction s as [|a s IH]; intros [|n] Hn; simpl in *; try done.
  - lia.
  - rewrite IH; [done|lia].
Qed.

Lemma substring_0_all (s : string) (n : nat) :
  (String.length s <= n)%nat -> String.substring 0 n s = s.
Proof.
  revert n. induction s as [|a s IH]; intros [|n] Hn; simpl in *; try done.
  - lia.
  - rewrite IH; [done|lia].
Qed.

(** [s.substring(0, position)] is the prefix of that length. *)
Lemma substring_prefix (s : string) (position : Z) :
  substring s 0 position = String.substring 0 (Z.to_nat position) s.
Proof.
  unfold substring. cbv zeta.
  set (len := Z.of_nat (String.length s)).
  assert (0 <= len)%Z by (unfold len; lia).
  replace (Z.max 0 (Z.min 0 len)) with 0%Z by lia.
  rewrite Z.min_l, Z.max_r, Z.sub_0_r by lia. simpl (Z.to_nat 0).
  destruct (Z.le_gt_cases position len) as [Hle|Hgt].
  - f_equal. lia.
  - replace (Z.max 0 (Z.min position len)) with len by lia.
    unfold len. rewrite Nat2Z.id, !substring_0_all; [done|lia|lia].
Qed.

Lemma split_prefix_lines (s : string) :
  forall o, length (split newline (String.substring 0 o s))
            = S (newlines_before s o).
Proof.
  induction s as [|a s IH]; intros [|o]; try done.
  simpl. specialize (IH o). destruct (Ascii.eqb a newline); simpl.
  - by rewrite IH.
  - destruct (split newline (String.substring 0 o s)); simpl in *; done.
Qed.

(** The pieces of a prefix: a single one when no newline precedes the
    offset, and otherwise a last piece that starts right after the last
    newline. *)
Lemma split_prefix_last (s : string) :
  forall o, (o <= String.length s)%nat ->
    match last_newline_before s o with
    | None => split newline (String.substring 0 o s) = [String.substring 0 o s]
    | Some k =>
        exists h t l,
          split newline (String.substring 0 o s) = h :: t ++ [l]
          /\ (String.length l + 1 = o - k)%nat
    end.
Proof.
  induction s as [|a s IH]; intros [|o] Ho; try (simpl in Ho; lia); try done.
  simpl in Ho. specialize (IH o ltac:(lia)). simpl.
  destruct (last_newline_before s o) as [k|].
  - destruct IH as (h & t & l & Hsplit & Hlen). rewrite Hsplit.
    destruct (Ascii.eqb a newline).
    + exists EmptyString, (h :: t), l. split; [done|lia].
    + exists (String a h), t, l. split; [done|lia].
  - rewrite IH. destruct (Ascii.eqb a newline).
    + exists EmptyString, [], (String.substring 0 o s). split; [done|].
      rewrite substring_0_length by lia. simpl. lia.
    + done.
Qed.

Lemma split_prefix_column (s : string) (o : nat) :
  (o <= String.length s)%nat ->
  (String.length (last_piece (split newline (String.substring 0 o s))) + 1)%nat
  = column_of s o.
Proof.
  intros Ho. pose proof (split_prefix_last s o Ho) as H. unfold column_of.
  destruct (last_newline_before s o) as [k|].
  - destruct H as (h & t & l & -> & Hlen).
    rewrite app_comm_cons, last_piece_snoc. exact Hlen.
  - rewrite H. unfold last_piece. simpl. by rewrite substring_0_length.
Qed.

(** Without a last newline there is no newline before the offset. *)
Lemma no_newline_get (s : string) :
  forall o j, last_newline_before s o = None -> (j < o)%nat ->
    String.get j s <> Some newline.
Proof.
  induction s as [|a s IH]; intros [|o] j Hnone Hj; try lia.
  - by destruct j.
  - simpl in Hnone.
    destruct (last_newline_before s o) eqn:Hs; [done|].
    destruct (Ascii.eqb a newline) eqn:Ha; [done|].
    destruct j as [|j]; simpl.
    + intros [= ->]. by rewrite Ascii.eqb_refl in Ha.
    + apply (IH o j); [done|lia].
Qed.

(** What [last_newline_before] finds is a newline before the offset with
    no newline between it and the offset. *)
Lemma last_newline_before_spec (s : string) :
  forall o k, last_newline_before s o = Some k ->
    (k < o)%nat /\ String.get k s = Some newline
    /\ forall j, (k < j < o)%nat -> String.get j s <> Some newline.
Proof.
  induction s as [|a s IH]; intros [|o] k; try done. simpl.
  destruct (last_newline_before s o) as [k'|] eqn:Hk'.
  - intros [= <-]. destruct (IH o k' Hk') as (Hlt & Hget & Hno).
    split; [lia|]. split; [done|].
    intros [|j] Hj; [lia|]. simpl. apply Hno. lia.
  - destruct (Ascii.eqb a newline) eqn:Ha; [|done]. intros [= <-].
    apply Ascii.eqb_eq in Ha as ->. split; [lia|]. split; [done|].
    intros [|j] Hj; [lia|]. simpl.
    apply (no_newline_get s o j Hk'). lia.
Qed.


Section ParseFacts.

Variable JSON_parse : string -> Completion JsVal.

(** The shape of a failing [parse], with the line computed from the
    prefix the code cuts. *)
Lemma parse_failure (jsonString msg : string) :
  JSON_parse jsonString = Throw msg ->
  parse JSON_parse jsonString
  = {| data := JNull;
       error := Some
         {| message := msg;
            line := S (newlines_before jsonString
                         (Z.to_nat (error_position msg)));
            column :=
              String.length
                (last_piece
                   (split newline
                      (String.substring 0 (Z.to_nat (error_position msg))
                         jsonString))) + 1 |} |}.
Proof.
  intros Hthrow. unfold parse. rewrite Hthrow. cbv zeta.
  by rewrite substring_prefix, split_prefix_lines.
Qed.


(** With a value that is [null] a successful [parse] returns both
    members [null]. *)
Lemma parse_null_text :
  JSON_parse "null" = Return JNull ->
  parse JSON_parse "null" = {| data := JNull; error := None |}.
Proof. intros H. unfold parse. by rewrite H. Qed.

End ParseFacts.

(** The two-line text fails at offset 9, the stray [x] that opens its
    second line: line 2, column 1 of that line. *)
Example parse_broken_second_line :
  String.get 9 broken_second_line = Some "x"%char
  /\ String.get 8 broken_second_line = Some newline
  /\ option_map (fun e => (line e, column e))
       (error (parse (rejecting_engine "Unexpected token x in JSON at position 9")
                 broken_second_line))
     = Some (2%nat, 1%nat).
Proof. repeat split. Qed.



(** C10, as amended: for every text, [parse] returns a result.  When the
    engine accepts the text the result holds the parsed value and no
    error; when it rejects the text the result holds [null] as data and
    an error with the engine's message whose line and column are at least
    1, and both 1 when the message carries no position.  The array of
    lines [parse] indexes is never empty. *)
Theorem C10_parse_result_shape
    (JSON_parse : string -> Completion JsVal) (jsonString : string) :
  match JSON_parse jsonString with
  | Return d => parse JSON_parse jsonString = {| data := d; error := None |}
  | Throw msg =>
      split newline (substring jsonString 0 (error_position msg)) <> []
      /\ exists e,
          parse JSON_parse jsonString = {| data := JNull; error := Some e |}
          /\ message e = msg
          /\ (1 <= line e)%nat /\ (1 <= column e)%nat
          /\ (match_position msg = None ->
              line e = 1%nat /\ column e = 1%nat)
  end.
Proof.
  destruct (JSON_parse jsonString) as [d|msg] eqn:Hengine.
  - unfold parse. by rewrite Hengine.
  - split; [apply split_not_nil|].
    eexists. split; [exact (parse_failure JSON_parse _ _ Hengine)|].
    cbn [message line column]. split; [done|]. split; [lia|]. split; [lia|].
    intros Hnone. unfold error_position. rewrite Hnone. simpl.
    by destruct jsonString.
Qed.

(** C10 as stated fails on the text [null]: the engine accepts it with
    the value [null], and [parse] returns both members [null]. *)
Lemma C10_parse_null_counterexample :
  null_engine "null" = Return JNull
  /\ data (parse null_engine "null") = JNull
  /\ error (parse null_engine "null") = None.
Proof. repeat split. Qed.

(* ================================================================== *)
(** ** Trees in the store (C6) *)
(* ================================================================== *)

(** A layout only reads its own footprint. *)
Lemma layout_agree (h : heap) :
  (forall n l F, node_at h n l F ->
     forall h' : heap, (forall x, x ∈ F -> h' !! x = h !! x) -> node_at h' n l F)
  /\ (forall cs ls F, nodes_at h cs ls F ->
        forall h' : heap, (forall x, x ∈ F -> h' !! x = h !! x) ->
                          nodes_at h' cs ls F).
Proof.
  apply node_nodes_at_ind.
  - intros k v t p lv e i l Hl h' Hagree. constructor.
    rewrite Hagree; [done|set_solver].
  - intros k v t p lv e i l a ls cs F Hl Ha _ IH Hla HlF HaF h' Hagree.
    apply node_at_branch with (ls := ls); try done.
    + rewrite Hagree; [done|set_solver].
    + rewrite Hagree; [done|set_solver].
    + apply IH. intros x Hx. apply Hagree. set_solver.
  - intros h' _. constructor.
  - intros c cs l ls F1 F2 _ IH1 _ IH2 Hdisj h' Hagree. constructor.
    + apply IH1. intros x Hx. apply Hagree. set_solver.
    + apply IH2. intros x Hx. apply Hagree. set_solver.
    + done.
Qed.

Lemma tree_at_agree (h h' : heap) a t F :
  tree_at h a t F -> (forall x, x ∈ F -> h' !! x = h !! x) -> tree_at h' a t F.
Proof.
  intros (ls & F' & Ha & Hns & HaF & ->) Hagree.
  exists ls, F'. split; [rewrite Hagree; [done|set_solver]|].
  split; [|done].
  apply (proj2 (layout_agree h) _ _ _ Hns). intros x Hx. apply Hagree. set_solver.
Qed.

(** The footprint holds the references of the layout, all in use. *)
Lemma layout_footprint (h : heap) :
  (forall n l F, node_at h n l F -> l ∈ F /\ F ⊆ dom h)
  /\ (forall cs ls F, nodes_at h cs ls F ->
        (forall l, l ∈ ls -> l ∈ F) /\ F ⊆ dom h).
Proof.
  apply node_nodes_at_ind.
  - intros k v t p lv e i l Hl. split; [set_solver|].
    apply singleton_subseteq_l, elem_of_dom. by eexists.
  - intros k v t p lv e i l a ls cs F Hl Ha _ [_ IH] _ _ _.
    split; [set_solver|].
    assert (l ∈ dom h) by (apply elem_of_dom; by eexists).
    assert (a ∈ dom h) by (apply elem_of_dom; by eexists).
    set_solver.
  - split; [set_solver|set_solver].
  - intros c cs l ls F1 F2 _ [IH1 IH1'] _ [IH2 IH2'] _. split; [|set_solver].
    intros x [->|Hx]%elem_of_cons; [set_solver|]. specialize (IH2 x Hx). set_solver.
Qed.

(** Serialising a layout, with fuel enough for its depth, gives the
    tree. *)
Lemma layout_read (h : heap) :
  (forall n l F, node_at h n l F ->
     exists f0, forall f, (f0 <= f)%nat -> read_node f h l = Some n)
  /\ (forall cs ls F, nodes_at h cs ls F ->
        exists f0, forall f, (f0 <= f)%nat ->
                             mapM (read_node f h) ls = Some cs).
Proof.
  apply node_nodes_at_ind.
  - intros k v t p lv e i l Hl. exists 1%nat. intros [|f] Hf; [lia|].
    simpl. by rewrite Hl.
  - intros k v t p lv e i l a ls cs F Hl Ha _ [f0 IH] _ _ _.
    exists (S f0). intros [|f] Hf; [lia|].
    simpl. rewrite Hl, Ha, IH; [done|lia].
  - exists 0%nat. done.
  - intros c cs l ls F1 F2 _ [f1 IH1] _ [f2 IH2] _.
    exists (Nat.max f1 f2). intros f Hf.
    cbn [mapM]. rewrite IH1 by lia. simpl. rewrite IH2 by lia. done.
Qed.

Lemma tree_at_read (h : heap) a t F :
  tree_at h a t F ->
  exists f0, forall f, (f0 <= f)%nat -> read_array f h a = Some t.
Proof.
  intros (ls & F' & Ha & Hns & _ & _).
  destruct (proj2 (layout_read h) _ _ _ Hns) as [f0 Hf0].
  exists f0. intros f Hf. unfold read_array. rewrite Ha. by apply Hf0.
Qed.

Lemma alloc_node_branch k v t p lv e cs i (h : heap) :
  alloc_node (mkNode k v t p lv e (Some cs) i) h
  = let '(ls, h1) := alloc_nodes cs h in
    let '(a, h2) := alloc (ArrayObj ls) h1 in
    alloc (NodeObj k v t p lv e (Some a) i) h2.
Proof.
  cbn [alloc_node].
  match goal with
  | |- (let '(_, _) := ?each cs h in _) = _ =>
      assert (forall cs h, each cs h = alloc_nodes cs h) as ->; [|done]
  end.
  clear. induction cs as [|c cs IH]; intros h; [done|].
  cbn [alloc_nodes]. destruct (alloc_node c h) as [l h1]. by rewrite IH.
Qed.

Lemma alloc_allocated (o : object) (h : heap) :
  allocated h (alloc o h).2 {[(alloc o h).1]}
  /\ (alloc o h).2 !! (alloc o h).1 = Some o.
Proof.
  unfold alloc. simpl. pose proof (is_fresh (dom h)) as Hfresh.
  split; [|by rewrite lookup_insert_eq].
  split; [set_solver|]. split; [rewrite dom_insert_L; set_solver|].
  intros x Hx. rewrite lookup_insert_ne; [done|set_solver].
Qed.

Lemma allocated_trans (h h1 h2 : heap) (F1 F2 : gset positive) :
  allocated h h1 F1 -> allocated h1 h2 F2 ->
  allocated h h2 (F1 ∪ F2) /\ F1 ## F2.
Proof.
  intros (Hd1 & Hdom1 & Hfr1) (Hd2 & Hdom2 & Hfr2).
  split; [|set_solver]. split; [set_solver|]. split; [set_solver|].
  intros x Hx. rewrite Hfr2, Hfr1; [done|set_solver|set_solver].
Qed.

(** Building the objects of a tree lays the tree out in free space. *)
Lemma alloc_node_layout (n : JsonNode) :
  forall h : heap,
    exists F, node_at (alloc_node n h).2 n (alloc_node n h).1 F
              /\ allocated h (alloc_node n h).2 F.
Proof.
  induction n as [k v t p lv e ch i IH] using JsonNode_nested_ind.
  intros h. destruct ch as [cs|].
  - assert (forall h : heap,
               exists F, nodes_at (alloc_nodes cs h).2 cs (alloc_nodes cs h).1 F
                         /\ allocated h (alloc_nodes cs h).2 F) as Hcs.
    { clear h. induction cs as [|c cs IHcs]; intros h.
      - exists ∅. split; [constructor|]. split; [set_solver|].
        split; [set_solver|done].
      - inversion IH as [|? ? Hc IH']; subst.
        cbn [alloc_nodes]. destruct (Hc h) as (F1 & Hn1 & Ha1).
        destruct (alloc_node c h) as [l h1]. simpl in Hn1, Ha1.
        destruct (IHcs IH' h1) as (F2 & Hn2 & Ha2).
        destruct (alloc_nodes cs h1) as [ls h2]. simpl in Hn2, Ha2. simpl.
        destruct (allocated_trans _ _ _ _ _ Ha1 Ha2) as [Ha Hdisj].
        exists (F1 ∪ F2). split; [|done].
        constructor; [|done|done].
        apply (proj1 (layout_agree h1) _ _ _ Hn1).
        intros x Hx. apply Ha2. set_solver. }
    rewrite alloc_node_branch. destruct (Hcs h) as (F & Hn & Ha).
    destruct (alloc_nodes cs h) as [ls h1]. simpl in Hn, Ha.
    destruct (alloc_allocated (ArrayObj ls) h1) as [Haa Hla].
    destruct (alloc (ArrayObj ls) h1) as [a h2]. simpl in Haa, Hla.
    destruct (alloc_allocated (NodeObj k v t p lv e (Some a) i) h2) as [Hal Hll].
    destruct (alloc (NodeObj k v t p lv e (Some a) i) h2) as [l h3].
    simpl in Hal, Hll. simpl.
    destruct (allocated_trans _ _ _ _ _ Ha Haa) as [Ha2 Hd2].
    destruct (allocated_trans _ _ _ _ _ Ha2 Hal) as [Ha3 Hd3].
    exists ({[l]} ∪ {[a]} ∪ F). split.
    + apply node_at_branch with (ls := ls); [done| | |set_solver..].
      * destruct Hal as (_ & _ & Hfr). rewrite Hfr; [done|set_solver].
      * apply (proj2 (layout_agree h1) _ _ _ Hn).
        intros x Hx. destruct Hal as (_ & _ & Hfr3), Haa as (_ & _ & Hfr2).
        rewrite Hfr3, Hfr2; [done|set_solver|set_solver].
    + by replace ({[l]} ∪ {[a]} ∪ F) with (F ∪ {[a]} ∪ {[l]}) by set_solver.
  - cbn [alloc_node].
    destruct (alloc_allocated (NodeObj k v t p lv e None i) h) as [Hal Hll].
    exists {[(alloc (NodeObj k v t p lv e None i) h).1]}. split; [|done].
    by constructor.
Qed.

Lemma alloc_nodes_layout (cs : list JsonNode) :
  forall h : heap,
    exists F, nodes_at (alloc_nodes cs h).2 cs (alloc_nodes cs h).1 F
              /\ allocated h (alloc_nodes cs h).2 F.
Proof.
  induction cs as [|c cs IHcs]; intros h.
  - exists ∅. split; [constructor|]. split; [set_solver|].
    split; [set_solver|done].
  - cbn [alloc_nodes]. destruct (alloc_node_layout c h) as (F1 & Hn1 & Ha1).
    destruct (alloc_node c h) as [l h1]. simpl in Hn1, Ha1.
    destruct (IHcs h1) as (F2 & Hn2 & Ha2).
    destruct (alloc_nodes cs h1) as [ls h2]. simpl in Hn2, Ha2. simpl.
    destruct (allocated_trans _ _ _ _ _ Ha1 Ha2) as [Ha Hdisj].
    exists (F1 ∪ F2). split; [|done].
    constructor; [|done|done].
    apply (proj1 (layout_agree h1) _ _ _ Hn1).
    intros x Hx. apply Ha2. set_solver.
Qed.

Lemma alloc_array_layout (t : list JsonNode) (h : heap) :
  exists F, tree_at (alloc_array t h).2 (alloc_array t h).1 t F
            /\ allocated h (alloc_array t h).2 F.
Proof.
  unfold alloc_array. destruct (alloc_nodes_layout t h) as (F & Hn & Ha).
  destruct (alloc_nodes t h) as [ls h1]. simpl in Hn, Ha.
  destruct (alloc_allocated (ArrayObj ls) h1) as [Haa Hla].
  destruct (alloc (ArrayObj ls) h1) as [a h2]. simpl in Haa, Hla. simpl.
  destruct (allocated_trans _ _ _ _ _ Ha Haa) as [Ha2 Hd2].
  exists ({[a]} ∪ F). split.
  - exists ls, F. split; [done|]. split; [|set_solver].
    apply (proj2 (layout_agree h1) _ _ _ Hn).
    intros x Hx. apply Haa. set_solver.
  - by replace ({[a]} ∪ F) with (F ∪ {[a]}) by set_solver.
Qed.

Lemma find_node_h_step (f : nat) (h : heap) (p : string) (l : positive) :
  find_node_h (S f) h p l
  = match h !! l with
    | Some (NodeObj _ _ _ q _ _ ch _) =>
        if (q =? p) then Some (Some l)
        else match ch with
             | Some a =>
                 match h !! a with
                 | Some (ArrayObj ls) => find_nodes_h f h p ls
                 | _ => None
                 end
             | None => Some None
             end
    | _ => None
    end.
Proof.
  cbn [find_node_h]. destruct (h !! l) as [[k v t q lv e ch i|]|]; try done.
  destruct (q =? p); [done|]. destruct ch as [a|]; [|done].
  destruct (h !! a) as [[|ls]|]; try done.
  induction ls as [|c ls IH]; [done|]. cbn [find_nodes_h]. by rewrite IH.
Qed.

(** [findNodeByPath] on a layout finds the node the pure search finds,
    and writing through the reference rewrites that node of the tree. *)
Lemma layout_find_write (h : heap) (p : string) :
  (forall n l F, node_at h n l F ->
     found_in_layout h F (find_in p n) (fun f => find_node_h f h p l)
       (fun g => write_in p g n) (fun h' n' => node_at h' n' l F))
  /\ (forall cs ls F, nodes_at h cs ls F ->
        found_in_layout h F (first_some (find_in p) cs)
          (fun f => find_nodes_h f h p ls)
          (fun g => first_update (write_in p g) cs)
          (fun h' cs' => nodes_at h' cs' ls F)).
Proof.
  apply node_nodes_at_ind.
  - intros k v t q lv e i l Hl. unfold found_in_layout. cbn [find_in path children].
    destruct (q =? p) eqn:Hq.
    + exists l, None. split.
      { exists 1%nat. intros [|f] Hf; [lia|]. rewrite find_node_h_step, Hl. by rewrite Hq. }
      split; [set_solver|]. split; [done|].
      intros v'. eexists. cbn [write_in path]. rewrite Hq. split; [done|].
      constructor. by rewrite lookup_insert_eq.
    + split.
      { exists 1%nat. intros [|f] Hf; [lia|]. rewrite find_node_h_step, Hl. by rewrite Hq. }
      intros g. cbn [write_in path children]. by rewrite Hq.
  - intros k v t q lv e i l a ls cs F Hl Ha Hcs IH Hla HlF HaF.
    unfold found_in_layout in *. cbn [find_in path children].
    destruct (q =? p) eqn:Hq.
    + exists l, (Some a). split.
      { exists 1%nat. intros [|f] Hf; [lia|]. rewrite find_node_h_step, Hl. by rewrite Hq. }
      split; [set_solver|]. split; [done|].
      intros v'. eexists. cbn [write_in path]. rewrite Hq. split; [done|].
      apply node_at_branch with (ls := ls); try done.
      * by rewrite lookup_insert_eq.
      * by rewrite lookup_insert_ne.
      * apply (proj2 (layout_agree h) _ _ _ Hcs).
        intros x Hx. rewrite lookup_insert_ne; [done|set_solver].
    + destruct (first_some (find_in p) cs) as [m|].
      * destruct IH as (ln & chl & [f0 Hf0] & HlnF & Hln & Hwrite).
        exists ln, chl. split.
        { exists (S f0). intros [|f] Hf; [lia|].
          rewrite find_node_h_step, Hl, Hq, Ha. apply Hf0. lia. }
        split; [set_solver|]. split; [done|].
        intros v'. destruct (Hwrite v') as (cs' & Hcs' & Hat).
        eexists. cbn [write_in path children]. rewrite Hq, Hcs'. split; [done|].
        apply node_at_branch with (ls := ls); try done.
        -- rewrite lookup_insert_ne; [done|set_solver].
        -- rewrite lookup_insert_ne; [done|set_solver].
      * destruct IH as [[f0 Hf0] Hnone]. split.
        { exists (S f0). intros [|f] Hf; [lia|].
          rewrite find_node_h_step, Hl, Hq, Ha. apply Hf0. lia. }
        intros g. cbn [write_in path children]. by rewrite Hq, Hnone.
  - unfold found_in_layout. simpl. split; [by exists 0%nat|done].
  - intros c cs l ls F1 F2 Hc IH1 Hcs IH2 Hdisj.
    unfold found_in_layout in *. cbn [first_some].
    destruct (find_in p c) as [m|].
    + destruct IH1 as (ln & chl & [f0 Hf0] & HlnF & Hln & Hwrite).
      exists ln, chl. split.
      { exists f0. intros f Hf. cbn [find_nodes_h]. by rewrite Hf0. }
      split; [set_solver|]. split; [done|].
      intros v'. destruct (Hwrite v') as (c' & Hc' & Hat).
      eexists. cbn [first_update]. rewrite Hc'. split; [done|].
      constructor; [done| |done].
      apply (proj2 (layout_agree h) _ _ _ Hcs).
      intros x Hx. rewrite lookup_insert_ne; [done|set_solver].
    + destruct IH1 as [[f1 Hf1] Hnone1].
      destruct (first_some (find_in p) cs) as [m|].
      * destruct IH2 as (ln & chl & [f2 Hf2] & HlnF & Hln & Hwrite).
        exists ln, chl. split.
        { exists (Nat.max f1 f2). intros f Hf. cbn [find_nodes_h].
          rewrite Hf1 by lia. apply Hf2. lia. }
        split; [set_solver|]. split; [done|].
        intros v'. destruct (Hwrite v') as (cs' & Hcs' & Hat).
        eexists. cbn [first_update]. rewrite Hnone1, Hcs'. split; [done|].
        constructor; [|done|done].
        apply (proj1 (layout_agree h) _ _ _ Hc).
        intros x Hx. rewrite lookup_insert_ne; [done|set_solver].
      * destruct IH2 as [[f2 Hf2] Hnone2]. split.
        { exists (Nat.max f1 f2). intros f Hf. cbn [find_nodes_h].
          rewrite Hf1 by lia. apply Hf2. lia. }
        intros g. cbn [first_update]. by rewrite Hnone1, Hnone2.
Qed.

Lemma tree_at_footprint (h : heap) a t F : tree_at h a t F -> F ⊆ dom h.
Proof.
  intros (ls & F' & Ha & Hns & _ & ->).
  destruct (proj2 (layout_footprint h) _ _ _ Hns) as [_ HF'].
  assert (a ∈ dom h) by (apply elem_of_dom; by eexists). set_solver.
Qed.

Lemma allocated_keeps (h h1 : heap) (F1 : gset positive) :
  allocated h h1 F1 -> forall l o, h !! l = Some o -> h1 !! l = Some o.
Proof.
  intros (Hd & _ & Hfr) l o Hl. rewrite Hfr; [done|].
  assert (l ∈ dom h) by (apply elem_of_dom; by eexists). set_solver.
Qed.

Lemma tree_at_allocated (h h1 : heap) (F1 : gset positive) a t F :
  tree_at h a t F -> allocated h h1 F1 -> tree_at h1 a t F.
Proof.
  intros Ht Ha. apply (tree_at_agree h); [done|].
  intros x Hx. apply Ha. pose proof (tree_at_footprint _ _ _ _ Ht).
  destruct Ha as (Hd & _). set_solver.
Qed.

Lemma node_at_key (h : heap) n l F (k : string) :
  node_at h n l F -> key_differs h k l = negb (key n =? k).
Proof. intros Hn. unfold key_differs. by inversion Hn; subst; rewrite H. Qed.

Lemma nodes_at_snoc (h : heap) c l Fc :
  node_at h c l Fc ->
  forall cs ls F, nodes_at h cs ls F -> F ## Fc ->
                  nodes_at h (cs ++ [c]) (ls ++ [l]) (F ∪ Fc).
Proof.
  intros Hc. induction cs as [|c0 cs IH]; intros ls F Hcs Hdisj.
  - inversion Hcs; subst. simpl.
    replace (∅ ∪ Fc) with (Fc ∪ ∅) by set_solver.
    constructor; [done|constructor|set_solver].
  - inversion Hcs as [|? ? l0 ls0 F1 F2 H1 H2 H12]; subst. simpl.
    replace (F1 ∪ F2 ∪ Fc) with (F1 ∪ (F2 ∪ Fc)) by set_solver.
    constructor; [done|apply IH; [done|set_solver]|set_solver].
Qed.

Lemma nodes_at_filter (h : heap) (k : string) :
  forall cs ls F, nodes_at h cs ls F ->
    exists F', F' ⊆ F
      /\ nodes_at h (List.filter (fun node => negb (key node =? k)) cs)
           (List.filter (key_differs h k) ls) F'.
Proof.
  induction cs as [|c cs IH]; intros ls F Hcs.
  - inversion Hcs; subst. exists ∅. split; [done|constructor].
  - inversion Hcs as [|? ? l0 ls0 F1 F2 H1 H2 H12]; subst.
    destruct (IH _ _ H2) as (F' & Hsub & Hf). simpl.
    rewrite (node_at_key h c l0 F1 k H1).
    destruct (negb (key c =? k)).
    + exists (F1 ∪ F'). split; [set_solver|]. constructor; [done|done|set_solver].
    + exists F'. split; [set_solver|done].
Qed.

Section EditsOfTheCopy.

Variables (h h1 : heap) (a : positive) (t1 : list JsonNode) (F1 : gset positive).
Hypothesis Hcopy : tree_at h1 a t1 F1.
Hypothesis Halloc : allocated h h1 F1.

Lemma edit_copy_move : edit_outcome h a h1 t1.
Proof. exists F1, F1. split; [exact Hcopy|]. split; [done|exact Halloc]. Qed.

Lemma edit_copy_add (operation : JsonEditOperation) :
  exists r' h',
    _addNode_h h1 a operation = Some (r', h')
    /\ edit_outcome h r' h' (_addNode t1 operation).
Proof.
  unfold _addNode_h, _addNode.
  destruct (parent_path (op_path operation) =? "");
    [|exists a, h1; split; [done|apply edit_copy_move]].
  set (o := NodeObj (op_key operation) (op_value operation)
              (typeof (op_value operation)) (op_key operation) 0 None None None).
  destruct (alloc_allocated o h1) as [Hal Hln].
  destruct (alloc o h1) as [ln h2]. simpl in Hal, Hln.
  destruct Hcopy as (ls & F1' & Ha & Hns & HaF & ->).
  destruct Halloc as (Hd & Hdom & Hfr).
  destruct Hal as (Hd2 & Hdom2 & Hfr2).
  assert (a ∈ dom h1) as Hadom by (apply elem_of_dom; by eexists).
  destruct (proj2 (layout_footprint h1) _ _ _ Hns) as [_ HF1'].
  assert (ln ∉ dom h1) as Hlnew by set_solver.
  assert (h2 !! a = Some (ArrayObj ls)) as Ha2
    by (rewrite Hfr2; [done|set_solver]).
  rewrite Ha2. eexists _, _. split; [done|].
  exists ({[a]} ∪ F1' ∪ {[ln]}), ({[a]} ∪ (F1' ∪ {[ln]})).
  split; [|split; [set_solver|]].
  - exists (ls ++ [ln]), (F1' ∪ {[ln]}).
    split; [by rewrite lookup_insert_eq|]. split; [|set_solver].
    apply nodes_at_snoc; [| |set_solver].
    + constructor. rewrite lookup_insert_ne; [done|set_solver].
    + apply (proj2 (layout_agree h1) _ _ _ Hns). intros x Hx.
      rewrite lookup_insert_ne, Hfr2; [done|set_solver|set_solver].
  - split; [set_solver|]. split.
    + rewrite dom_insert_L. set_solver.
    + intros x Hx.
      rewrite lookup_insert_ne, Hfr2, Hfr; [done|set_solver..].
Qed.

Lemma edit_copy_delete (operation : JsonEditOperation) :
  exists r' h',
    _deleteNode_h h1 a operation = Some (r', h')
    /\ edit_outcome h r' h' (_deleteNode t1 operation).
Proof.
  unfold _deleteNode_h, _deleteNode.
  destruct (parent_path (op_path operation) =? "");
    [|exists a, h1; split; [done|apply edit_copy_move]].
  set (k := last_piece (split dot (op_path operation))).
  destruct Hcopy as (ls & F1' & Ha & Hns & HaF & ->). rewrite Ha.
  set (o := ArrayObj (List.filter (key_differs h1 k) ls)).
  destruct (alloc_allocated o h1) as [Hal Hr].
  destruct (alloc o h1) as [r h2]. simpl in Hal, Hr.
  exists r, h2. split; [done|].
  destruct (nodes_at_filter h1 k _ _ _ Hns) as (F' & Hsub & Hf).
  destruct (allocated_trans _ _ _ _ _ Halloc Hal) as [Hall Hdisj].
  exists ({[a]} ∪ F1' ∪ {[r]}), ({[r]} ∪ F').
  split; [|split; [set_solver|done]].
  exists (List.filter (key_differs h1 k) ls), F'.
  split; [done|]. split; [|set_solver].
  apply (proj2 (layout_agree h1) _ _ _ Hf). intros x Hx.
  apply Hal. set_solver.
Qed.

Lemma edit_copy_update (operation : JsonEditOperation) :
  exists r' h',
    (exists f0, forall f, (f0 <= f)%nat ->
                          _updateNode_h f h1 a operation = Some (r', h'))
    /\ edit_outcome h r' h' (_updateNode t1 operation).
Proof.
  unfold _updateNode_h, _updateNode, findNodeByPath_h, findNodeByPath.
  destruct Hcopy as (ls & F1' & Ha & Hns & HaF & ->). rewrite Ha.
  pose proof (proj2 (layout_find_write h1 (op_path operation)) _ _ _ Hns)
    as Hfind.
  unfold found_in_layout in Hfind.
  destruct (first_some (find_in (op_path operation)) t1) as [m|].
  - destruct Hfind as (ln & chl & [f0 Hf0] & HlnF & Hln & Hwrite).
    destruct (Hwrite (op_value operation)) as (t' & Ht' & Hat).
    rewrite Ht'. eexists a, _. split.
    { exists f0. intros f Hf. rewrite (Hf0 f Hf), Hln. reflexivity. }
    destruct Halloc as (Hd & Hdom & Hfr).
    exists ({[a]} ∪ F1'), ({[a]} ∪ F1'). split; [|split; [done|]].
    + exists ls, F1'. split; [|done].
      rewrite lookup_insert_ne; [done|set_solver].
    + split; [done|]. split.
      * rewrite dom_insert_L, Hdom. set_solver.
      * intros x Hx. rewrite lookup_insert_ne, Hfr; [done|set_solver..].
  - destruct Hfind as [[f0 Hf0] _]. exists a, h1. split.
    { exists f0. intros f Hf. by rewrite (Hf0 f Hf). }
    exists ({[a]} ∪ F1'), ({[a]} ∪ F1'). split; [|done].
    by exists ls, F1'.
Qed.

End EditsOfTheCopy.

(** C6: when the reference [root] holds the tree [t] in the store [h],
    the call [applyEdit(root, operation)] returns, for every operation; the
    store it leaves keeps every object of [h] as it was, so [root] still
    holds [t]; and the reference it returns holds the edited tree in
    objects that did not exist in [h], none of them an object of the
    snapshot. *)
Theorem C6_applyEdit_keeps_snapshot
    (h : heap) (root : positive) (t : list JsonNode) (F : gset positive)
    (operation : JsonEditOperation) :
  tree_at h root t F ->
  exists (r' : positive) (h' : heap) (F' : gset positive),
    (exists fuel0, forall fuel, (fuel0 <= fuel)%nat ->
        applyEdit_h fuel h root operation = Some (r', h'))
    /\ (forall l o, h !! l = Some o -> h' !! l = Some o)
    /\ tree_at h' root t F
    /\ tree_at h' r' (applyEdit t operation) F'
    /\ F' ## dom h.
Proof.
  intros Ht. destruct (tree_at_read _ _ _ _ Ht) as [fr Hread].
  destruct (alloc_array_layout (map copy_node t) h) as (F1 & Hcopy & Halloc).
  assert (exists r' h',
             (exists f0, forall f, (f0 <= f)%nat ->
                match op_type operation with
                | EditAdd => _addNode_h (alloc_array (map copy_node t) h).2
                               (alloc_array (map copy_node t) h).1 operation
                | EditUpdate => _updateNode_h f (alloc_array (map copy_node t) h).2
                                  (alloc_array (map copy_node t) h).1 operation
                | EditDelete => _deleteNode_h (alloc_array (map copy_node t) h).2
                                  (alloc_array (map copy_node t) h).1 operation
                | EditMove => Some (alloc_array (map copy_node t) h)
                end = Some (r', h'))
             /\ edit_outcome h r' h' (applyEdit t operation))
    as (r' & h' & [f0 Hrun] & (G & F' & Hat & Hsub & Hall)).
  { unfold applyEdit. destruct (op_type operation).
    - destruct (edit_copy_add h _ _ _ _ Hcopy Halloc operation)
        as (r' & h' & Hrun & Hout).
      exists r', h'. split; [by exists 0%nat|done].
    - destruct (edit_copy_update h _ _ _ _ Hcopy Halloc operation)
        as (r' & h' & Hrun & Hout).
      by exists r', h'.
    - destruct (edit_copy_delete h _ _ _ _ Hcopy Halloc operation)
        as (r' & h' & Hrun & Hout).
      exists r', h'. split; [by exists 0%nat|done].
    - exists (alloc_array (map copy_node t) h).1, (alloc_array (map copy_node t) h).2.
      split; [exists 0%nat; intros; by destruct (alloc_array _ _)|].
      exact (edit_copy_move h _ _ _ F1 Hcopy Halloc). }
  exists r', h', F'. split.
  { exists (Nat.max fr f0). intros fuel Hfuel. unfold applyEdit_h.
    rewrite Hread by lia. specialize (Hrun fuel ltac:(lia)).
    by destruct (alloc_array (map copy_node t) h). }
  split; [exact (allocated_keeps _ _ _ Hall)|].
  split; [exact (tree_at_allocated _ _ _ _ _ _ Ht Hall)|].
  split; [done|]. destruct Hall as (Hd & _). set_solver.
Qed.

(** The store model runs: an Update of the one-node tree leaves the
    objects 1 and 2 of the snapshot as they were and returns the
    reference 4 of a new array whose node, at 3, carries the new value. *)
Example applyEdit_h_sample :
  match applyEdit_h 2 one_node_store 1 (update_op "a" (JNum 7)) with
  | Some (r', h') =>
      r' = 4%positive
      /\ read_array 2 h' 1 = Some one_node_tree
      /\ read_array 2 h' r'
         = Some (applyEdit one_node_tree (update_op "a" (JNum 7)))
  | None => False
  end.
Proof. vm_compute. repeat split. Qed.

Lemma one_node_store_layout :
  tree_at one_node_store 1 one_node_tree ({[1%positive]} ∪ ({[2%positive]} ∪ ∅)).
Proof.
  exists [2%positive], ({[2%positive]} ∪ ∅).
  split; [reflexivity|]. split; [|split; [set_solver|reflexivity]].
  constructor; [|constructor|set_solver].
  apply node_at_leaf. reflexivity.
Defined.

Lemma C6_applyEdit_keeps_snapshot_witness :
  exists (r' : positive) (h' : heap) (F' : gset positive),
    (exists fuel0, forall fuel, (fuel0 <= fuel)%nat ->
        applyEdit_h fuel one_node_store 1 (update_op "a" (JNum 7))
        = Some (r', h'))
    /\ tree_at h' 1 one_node_tree ({[1%positive]} ∪ ({[2%positive]} ∪ ∅))
    /\ tree_at h' r' (applyEdit one_node_tree (update_op "a" (JNum 7))) F'
    /\ F' ## dom one_node_store.
Proof.
  destruct (C6_applyEdit_keeps_snapshot one_node_store 1 one_node_tree _
              (update_op "a" (JNum 7)) one_node_store_layout)
    as (r' & h' & F' & Hrun & _ & Hold & Hnew & Hfresh).
  exists r', h', F'. split; [exact Hrun|]. split; [exact Hold|].
  split; [exact Hnew|exact Hfresh].
Defined.


(* ================================================================== *)
(** ** The shape of a projected tree *)
(* ================================================================== *)

(** X3: One node per entry of an Object, in the order of the entries, with
    the entry's key and value, at the level asked for and at the path of
    the key below the parent path. *)
Theorem toJsonTree_object_entries props parentPath lv :
  map (fun n => (key n, value n)) (toJsonTree (JObj props) parentPath lv)
  = props
  /\ Forall (fun n => level n = lv
                      /\ path n = field_path parentPath (key n)
                      /\ index n = None)
       (toJsonTree (JObj props) parentPath lv).
Proof.
  rewrite toJsonTree_object.
  induction props as [|[k x] ps [IHm IHf]]; [by split|].
  cbn [object_nodes map]. split; [by rewrite IHm|].
  constructor; [done|exact IHf].
Qed.

Lemma array_nodes_dense parentPath lv (xs : list JsVal) :
  forall i,
    map value (array_nodes parentPath lv (map Some xs) i) = xs
    /\ map index (array_nodes parentPath lv (map Some xs) i)
       = map Some (seq i (length xs))
    /\ Forall (fun n => level n = lv
                        /\ (exists j, index n = Some j
                                      /\ key n = toString j
                                      /\ path n = index_path parentPath j))
         (array_nodes parentPath lv (map Some xs) i).
Proof.
  induction xs as [|x xs IH]; intros i; [by repeat split|].
  destruct (IH (S i)) as (IHv & IHi & IHf).
  cbn [map array_nodes length seq]. rewrite IHv, IHi.
  split; [done|]. split; [done|].
  constructor; [|exact IHf]. split; [done|]. by exists i.
Qed.

(** X4: One node per element of an Array without holes, in index order, with
    the element as value, its index as [index], the decimal text of the
    index as key and the bracketed index appended to the parent path. *)
Theorem toJsonTree_array_entries (xs : list JsVal) props parentPath lv :
  map value (toJsonTree (JArr (map Some xs) props) parentPath lv) = xs
  /\ map index (toJsonTree (JArr (map Some xs) props) parentPath lv)
     = map Some (seq 0 (length xs))
  /\ Forall (fun n => level n = lv
                      /\ (exists j, index n = Some j
                                    /\ key n = toString j
                                    /\ path n = index_path parentPath j))
       (toJsonTree (JArr (map Some xs) props) parentPath lv).
Proof. rewrite toJsonTree_array. apply array_nodes_dense. Qed.

(** A value that is neither an Array nor an Object, [null] included, has
    no node at all. *)
Lemma toJsonTree_scalar (v : JsVal) parentPath lv :
  is_container_type (node_type v) = false \/ v = JNull ->
  toJsonTree v parentPath lv = [].
Proof. intros [Hv| ->]; [|done]. by destruct v. Qed.

Lemma flatten_projects_value (v : JsVal) :
  forall parentPath lv,
    Forall projects_value (flat_map flatten (toJsonTree v parentPath lv)).
Proof.
  induction v as [| | | | |elems props IHe _|props IHp] using JsVal_nested_ind;
    try (intros; constructor).
  - intros parentPath lv. rewrite toJsonTree_array. generalize 0%nat.
    induction elems as [|e es IH]; intros i; [constructor|].
    inversion IHe as [|? ? Hx IHe']; subst.
    destruct e as [x|]; [|by apply IH].
    cbn [array_nodes flat_map flatten]. rewrite <- app_comm_cons.
    constructor; [by repeat split|].
    apply Forall_app. split; [|by apply IH].
    destruct (is_container_type (node_type x)); [apply Hx|constructor].
  - intros parentPath lv. rewrite toJsonTree_object.
    induction props as [|[k x] ps IH]; [constructor|].
    inversion IHp as [|? ? Hx IHp']; subst. simpl in Hx.
    cbn [object_nodes flat_map flatten]. rewrite <- app_comm_cons.
    constructor; [by repeat split|].
    apply Forall_app. split; [|by apply IH].
    destruct (is_container_type (node_type x)); [apply Hx|constructor].
Qed.

(** X5: Every node of a projected tree, at any depth, carries the type
    computed from its value, the projection of its value as children
    when that type is a container type, and the default expansion of its
    level. *)
Theorem toJsonTree_nodes_project (v : JsVal) (parentPath : string) (lv : nat) :
  Forall projects_value (flat_map flatten (toJsonTree v parentPath lv)).
Proof. apply flatten_projects_value. Qed.

Lemma node_type_cases (x : JsVal) :
  node_type x <> "null"
  /\ (is_container_type (node_type x) = true <-> typeof x = "object")
  /\ (x = JNull -> node_type x = "object").
Proof. destruct x; repeat split; try done; try discriminate; by intros ->. Qed.

(** X6: No node of a projected tree has the type [null]: a [null] member is
    typed [object] and gets an empty sequence of children; and a node has
    children exactly when [typeof] of its value is [object]. *)
Theorem toJsonTree_null_is_object (v : JsVal) parentPath lv :
  Forall (fun n => type n <> "null"
                   /\ (value n = JNull ->
                       type n = "object" /\ children n = Some [])
                   /\ (children n <> None <-> typeof (value n) = "object"))
    (flat_map flatten (toJsonTree v parentPath lv)).
Proof.
  eapply Forall_impl; [apply flatten_projects_value|].
  intros n (Ht & Hch & _).
  destruct (node_type_cases (value n)) as (Hnull & Hcont & Hobj).
  rewrite Ht. split; [done|]. split.
  - intros Hv. split; [by apply Hobj|].
    rewrite Hch, Ht, Hv. reflexivity.
  - rewrite Hch, Ht. rewrite <- Hcont.
    by destruct (is_container_type (node_type (value n))).
Qed.

(* ================================================================== *)
(** ** findNodeByPath is the first match in document order *)
(* ================================================================== *)

Lemma find_app_first {A : Type} (f : A -> bool) (l1 l2 : list A) :
  List.find f (l1 ++ l2)
  = match List.find f l1 with Some x => Some x | None => List.find f l2 end.
Proof.
  induction l1 as [|a l1 IH]; [done|]. simpl. by destruct (f a).
Qed.

Lemma find_in_flatten (p : string) (n : JsonNode) :
  find_in p n = List.find (fun m => path m =? p) (flatten n).
Proof.
  induction n as [k v t q l e ch i IH] using JsonNode_nested_ind.
  cbn [find_in flatten List.find path children].
  destruct (q =? p); [done|]. destruct ch as [cs|]; [|done].
  induction cs as [|c cs IHcs]; [done|].
  inversion IH as [|? ? Hc IH']; subst.
  cbn [first_some flat_map]. rewrite find_app_first, <- Hc.
  destruct (find_in p c); [done|exact (IHcs IH')].
Qed.

(** X7: [findNodeByPath] returns the first node, in document order over all
    depths, whose path is the one asked for, and [null] when there is
    none. *)
Theorem findNodeByPath_first_match (t : list JsonNode) (p : string) :
  findNodeByPath t p
  = List.find (fun m => path m =? p) (flat_map flatten t).
Proof.
  unfold findNodeByPath. induction t as [|n t IH]; [done|].
  cbn [first_some flat_map]. rewrite find_app_first, <- find_in_flatten.
  destruct (find_in p n); [done|exact IH].
Qed.

(* ================================================================== *)
(** ** More on expanding and collapsing *)
(* ================================================================== *)

Lemma updateExpanded_node_thrice (p : string) (n : JsonNode) :
  updateExpanded_node p (updateExpanded_node p (updateExpanded_node p n))
  = updateExpanded_node p n.
Proof.
  induction n as [k v t q l e ch i IH] using JsonNode_nested_ind.
  cbn [updateExpanded_node path children]. destruct (q =? p) eqn:Hq.
  - cbn [updateExpanded_node path]. rewrite Hq.
    cbn [updateExpanded_node path]. rewrite Hq.
    by destruct e as [[]|].
  - destruct ch as [cs|];
      repeat (cbn [updateExpanded_node path children]; rewrite Hq); [|done].
    cbn [key value type level expanded index]. do 2 f_equal.
    induction cs as [|c cs IHcs]; [done|].
    inversion IH as [|? ? Hc IH']; subst.
    cbn [map]. by rewrite Hc, (IHcs IH').
Qed.

(** X8: Three toggles of the same path are one toggle, on every sequence of
    nodes, with or without flags. *)
Theorem toggleNode_thrice (p : string) (t : list JsonNode) :
  toggleNode p (toggleNode p (toggleNode p t)) = toggleNode p t.
Proof.
  unfold toggleNode, updateExpanded. induction t as [|n t IH]; [done|].
  cbn [map]. by rewrite updateExpanded_node_thrice, IH.
Qed.

Lemma updateExpanded_node_comm (p q : string) (n : JsonNode) :
  updateExpanded_node p (updateExpanded_node q n)
  = updateExpanded_node q (updateExpanded_node p n).
Proof.
  induction n as [k v t r l e ch i IH] using JsonNode_nested_ind.
  destruct (r =? p) eqn:Hp, (r =? q) eqn:Hq.
  - apply String.eqb_eq in Hp as <-. by apply String.eqb_eq in Hq as <-.
  - cbn [updateExpanded_node path children]. rewrite Hp, Hq.
    destruct ch as [cs|];
      cbn [updateExpanded_node path children]; by rewrite ?Hp, ?Hq.
  - cbn [updateExpanded_node path children]. rewrite Hp, Hq.
    destruct ch as [cs|];
      cbn [updateExpanded_node path children]; by rewrite ?Hp, ?Hq.
  - cbn [updateExpanded_node path children]. rewrite Hp, Hq.
    destruct ch as [cs|];
      cbn [updateExpanded_node path children]; rewrite ?Hp, ?Hq; [|done].
    cbn [key value type level expanded index]. do 2 f_equal.
    induction cs as [|c cs IHcs]; [done|].
    inversion IH as [|? ? Hc IH']; subst.
    cbn [map]. by rewrite Hc, (IHcs IH').
Qed.

(** X9: Toggles of two paths commute. *)
Theorem toggleNode_comm (p q : string) (t : list JsonNode) :
  toggleNode p (toggleNode q t) = toggleNode q (toggleNode p t).
Proof.
  unfold toggleNode, updateExpanded. induction t as [|n t IH]; [done|].
  cbn [map]. by rewrite updateExpanded_node_comm, IH.
Qed.

Lemma updateExpanded_node_absent (p : string) (n : JsonNode) :
  find_in p n = None -> updateExpanded_node p n = n.
Proof.
  induction n as [k v t q l e ch i IH] using JsonNode_nested_ind.
  cbn [find_in updateExpanded_node path children].
  destruct (q =? p); [done|]. destruct ch as [cs|]; [|done].
  intros Hcs. cbn [key value type level expanded index]. do 2 f_equal.
  induction cs as [|c cs IHcs]; [done|].
  inversion IH as [|? ? Hc IH']; subst.
  cbn [first_some] in Hcs. destruct (find_in p c) eqn:Hfc; [done|].
  cbn [map]. by rewrite (Hc eq_refl), (IHcs IH' Hcs).
Qed.

Lemma updateExpanded_node_fixed (p : string) (n : JsonNode) :
  updateExpanded_node p n = n -> find_in p n = None.
Proof.
  induction n as [k v ty q l e ch i IH] using JsonNode_nested_ind.
  cbn [find_in updateExpanded_node path children].
  destruct (q =? p).
  - intros [= He]. by destruct e as [[]|].
  - destruct ch as [cs|]; [|done]. intros [= Hcs].
    induction cs as [|c cs IHcs]; [done|].
    inversion IH as [|? ? Hc IH']; subst.
    cbn [map] in Hcs. injection Hcs as Hc' Hcs.
    cbn [first_some]. rewrite (Hc Hc'). by apply IHcs.
Qed.

Lemma toggleNode_fixed (p : string) (t : list JsonNode) :
  toggleNode p t = t -> findNodeByPath t p = None.
Proof.
  unfold toggleNode, updateExpanded, findNodeByPath.
  induction t as [|n t IH]; [done|]. cbn [map first_some].
  intros [= Hn Ht]. rewrite (updateExpanded_node_fixed p n Hn). by apply IH.
Qed.

(** X10: A toggle at a path no node has returns the tree as it is; the
    toggle of a path some node has changes the tree. *)
Theorem toggleNode_changes_iff_found (p : string) (t : list JsonNode) :
  toggleNode p t = t <-> findNodeByPath t p = None.
Proof.
  split; [apply toggleNode_fixed|].
  unfold toggleNode, updateExpanded, findNodeByPath.
  induction t as [|n t IH]; [done|]. cbn [map first_some].
  destruct (find_in p n) eqn:Hn; [done|]. intros Ht.
  by rewrite (updateExpanded_node_absent p n Hn), (IH Ht).
Qed.

(* ================================================================== *)
(** ** Which paths the edit engine takes as top-level *)
(* ================================================================== *)

Lemma dot_free_cons (a : ascii) (s : string) :
  dot_free (String a s) = negb (Ascii.eqb a dot) && dot_free s.
Proof. reflexivity. Qed.



Lemma substring_0_0 (s : string) : String.substring 0 0 s = EmptyString.
Proof. by destruct s. Qed.


Lemma split_dot_free (s : string) : dot_free s = true -> split dot s = [s].
Proof.
  induction s as [|a s IH]; [done|]. rewrite dot_free_cons. cbn [split].
  intros [Ha Hs]%andb_true_iff. rewrite (IH Hs).
  by destruct (Ascii.eqb a dot).
Qed.


(* ================================================================== *)
(** ** What Update writes *)
(* ================================================================== *)

Lemma rows_cons (n : JsonNode) (t : list JsonNode) :
  rows (n :: t) = rows [n] ++ rows t.
Proof. unfold rows. cbn [flat_map]. by rewrite app_nil_r, map_app. Qed.

Lemma rows_node k v ty q l e (cs : list JsonNode) i :
  rows [mkNode k v ty q l e (Some cs) i]
  = row (mkNode k v ty q l e (Some cs) i) :: rows cs.
Proof. unfold rows. cbn [flat_map flatten]. by rewrite app_nil_r. Qed.

Lemma set_value_twice (v : JsVal) (n : JsonNode) :
  set_value v (set_value v n) = set_value v n.
Proof. reflexivity. Qed.

Lemma update_outcome_nodes (p : string) (v : JsVal) (cs : list JsonNode) :
  Forall (fun c =>
            update_outcome p v (find_in p c)
              (option_map (fun c' => [c']) (write_in p (set_value v) c))
              (flatten c)
              (fun t' => first_some (find_in p) t')
              (fun t' => first_update (write_in p (set_value v)) t')) cs ->
  update_outcome p v (first_some (find_in p) cs)
    (first_update (write_in p (set_value v)) cs)
    (flat_map flatten cs)
    (fun t' => first_some (find_in p) t')
    (fun t' => first_update (write_in p (set_value v)) t').
Proof.
  induction cs as [|c cs IHcs]; intros IH; [by split|].
  inversion IH as [|? ? Hc IH']; subst. specialize (IHcs IH').
  unfold update_outcome in *. cbn [first_some first_update flat_map].
  destruct (find_in p c) as [m|] eqn:Hfc.
  - destruct Hc as (t' & l1 & l2 & Hw & Hb & Hl1 & Hm & Hr & Hf & Hagain).
    destruct (write_in p (set_value v) c) as [c'|]; [|done].
    injection Hw as <-.
    exists (c' :: cs), l1, (l2 ++ rows cs).
    split; [done|]. rewrite map_app, Hb, <- app_assoc. split; [done|].
    split; [done|]. split; [done|].
    split; [by rewrite rows_cons, Hr, <- app_assoc|].
    cbn [first_some first_update] in *.
    destruct (find_in p c') as [m'|]; [|done].
    split; [done|].
    destruct (write_in p (set_value v) c') as [c''|]; [|done].
    by injection Hagain as ->.
  - destruct Hc as [Hw Hnone].
    destruct (write_in p (set_value v) c) as [c'|] eqn:Hwc; [done|].
    destruct (first_some (find_in p) cs) as [m|].
    + destruct IHcs as (t' & l1 & l2 & -> & Hb & Hl1 & Hm & Hr & Hf & Hagain).
      exists (c :: t'), (map row (flatten c) ++ l1), l2.
      split; [done|]. rewrite map_app, Hb, <- app_assoc. split; [done|].
      split; [by apply Forall_app|]. split; [done|].
      split.
      { rewrite rows_cons, Hr, <- app_assoc. unfold rows. cbn [flat_map].
        by rewrite app_nil_r. }
      cbn [first_some first_update]. by rewrite Hfc, Hwc, Hf, Hagain.
    + destruct IHcs as [-> Hrest]. split; [done|].
      rewrite map_app. by apply Forall_app.
Qed.

Lemma update_outcome_node (p : string) (v : JsVal) (n : JsonNode) :
  update_outcome p v (find_in p n)
    (option_map (fun n' => [n']) (write_in p (set_value v) n))
    (flatten n)
    (fun t' => first_some (find_in p) t')
    (fun t' => first_update (write_in p (set_value v)) t').
Proof.
  induction n as [k x ty q l e ch i IH] using JsonNode_nested_ind.
  unfold update_outcome. cbn [find_in write_in path children].
  destruct (q =? p) eqn:Hq.
  - apply String.eqb_eq in Hq as Hqp.
    eexists _, [], _. cbn [option_map]. split; [done|].
    split; [reflexivity|]. split; [constructor|]. split; [done|].
    split.
    { unfold rows. cbn [flat_map]. rewrite app_nil_r. by destruct ch. }
    cbn [first_some first_update find_in write_in set_value path].
    by rewrite Hq.
  - apply String.eqb_neq in Hq as Hqp.
    destruct ch as [cs|]; [|split; [done|by repeat constructor]].
    pose proof (update_outcome_nodes p v cs IH) as Hcs.
    unfold update_outcome in Hcs.
    destruct (first_some (find_in p) cs) as [m|].
    + destruct Hcs as (cs' & l1 & l2 & -> & Hb & Hl1 & Hm & Hr & Hf & Hagain).
      cbn [option_map key value type path level expanded index].
      eexists _, (row (mkNode k x ty q l e (Some cs) i) :: l1), l2.
      split; [done|]. cbn [flatten map]. rewrite Hb. split; [done|].
      split; [by constructor|]. split; [done|].
      split; [by rewrite rows_node, Hr|].
      cbn [first_some first_update find_in write_in path children].
      rewrite Hq, Hf, Hagain. done.
    + destruct Hcs as [-> Hrest]. split; [done|].
      cbn [flatten map]. by constructor.
Qed.

Lemma write_in_json (p : string) (v : JsVal) (n : JsonNode) :
  copyable_value v = true -> json_node n = true ->
  forall n', write_in p (set_value v) n = Some n' -> json_node n' = true.
Proof.
  intros Hv. induction n as [k x ty q l e ch i IH] using JsonNode_nested_ind.
  cbn [write_in path children]. destruct (q =? p).
  - intros Hn n' [= <-]. cbn in Hn |- *.
    apply andb_true_iff in Hn as [_ Hch]. by rewrite Hch, andb_true_r.
  - destruct ch as [cs|]; [|done]. intros Hn n' Hw.
    destruct (first_update (write_in p (set_value v)) cs) as [cs'|] eqn:Hcs;
      [|done].
    injection Hw as <-. cbn in Hn |- *.
    apply andb_true_iff in Hn as [Hx Hch]. rewrite Hx. cbn.
    clear Hx. revert cs' Hcs Hch.
    induction cs as [|c cs IHcs]; intros cs' Hcs Hch; [done|].
    inversion IH as [|? ? Hc IH']; subst.
    cbn in Hch. apply andb_true_iff in Hch as [Hjc Hjcs].
    cbn [first_update] in Hcs.
    destruct (write_in p (set_value v) c) as [c'|] eqn:Hwc.
    + injection Hcs as <-. cbn. by rewrite (Hc Hjc c' eq_refl), Hjcs.
    + destruct (first_update (write_in p (set_value v)) cs) as [cs''|] eqn:Hcs'';
        [|done].
      injection Hcs as <-. cbn. by rewrite Hjc, (IHcs IH' cs'' eq_refl Hjcs).
Qed.

Lemma first_update_json (p : string) (v : JsVal) (t : list JsonNode) :
  copyable_value v = true -> forallb json_node t = true ->
  forall t', first_update (write_in p (set_value v)) t = Some t' ->
             forallb json_node t' = true.
Proof.
  intros Hv. induction t as [|n t IH]; [done|].
  cbn. intros [Hn Ht]%andb_true_iff t' Hw.
  destruct (write_in p (set_value v) n) as [n'|] eqn:Hwn.
  - injection Hw as <-. cbn. by rewrite (write_in_json p v n Hv Hn n' Hwn), Ht.
  - destruct (first_update (write_in p (set_value v)) t) as [t''|]; [|done].
    injection Hw as <-. cbn. by rewrite Hn, (IH Ht t'' eq_refl).
Qed.

(** An edit of a tree of JSON values with a JSON value, or without one,
    returns a tree of JSON values: edits can follow one another with
    the deep copy of each leaving the tree it receives as it is. *)
Lemma applyEdit_json (t : list JsonNode) (operation : JsonEditOperation) :
  forallb json_node t = true ->
  copyable_value (op_value operation) = true ->
  forallb json_node (applyEdit t operation) = true.
Proof.
  intros Ht Hv. unfold applyEdit. rewrite (copy_tree_id t Ht).
  destruct (op_type operation).
  - unfold _addNode. destruct (_ =? ""); [|done].
    rewrite forallb_app, Ht. cbn. unfold copyable_value in Hv. by rewrite Hv.
  - unfold _updateNode. destruct (findNodeByPath _ _); [|done].
    destruct (first_update _ t) as [t'|] eqn:Hw; [|done].
    by apply (first_update_json (op_path operation) (op_value operation) t).
  - unfold _deleteNode. destruct (_ =? ""); [|done].
    induction t as [|n t IH]; [done|]. cbn in Ht |- *.
    apply andb_true_iff in Ht as [Hn Ht].
    destruct (negb _); cbn; [by rewrite Hn, (IH Ht)|by apply IH].
  - done.
Qed.



(** X12: The same Update applied twice is the Update applied once. *)
Theorem applyEdit_update_idempotent (t : list JsonNode) (p : string) (v : JsVal) :
  forallb json_node t = true ->
  copyable_value v = true ->
  applyEdit (applyEdit t (update_op p v)) (update_op p v)
  = applyEdit t (update_op p v).
Proof.
  intros Ht Hv.
  pose proof (applyEdit_json t (update_op p v) Ht Hv) as Ht'.
  unfold applyEdit at 1. cbn [op_type update_op]. rewrite (copy_tree_id _ Ht').
  unfold applyEdit, _updateNode, findNodeByPath in *.
  cbn [op_type update_op op_path op_value] in *. rewrite (copy_tree_id t Ht) in *.
  pose proof (update_outcome_nodes p v t) as Hout.
  unfold update_outcome in Hout.
  destruct (first_some (find_in p) t) as [m|] eqn:Hfound.
  - destruct Hout as (t' & l1 & l2 & -> & _ & _ & _ & _ & Hf & Hagain).
    { apply Forall_forall. intros c _. apply update_outcome_node. }
    by rewrite Hf, Hagain.
  - by rewrite Hfound.
Qed.

Lemma applyEdit_update_idempotent_sample :
  applyEdit (applyEdit sample_tree (update_op "a" (JStr "x")))
    (update_op "a" (JStr "x"))
  = applyEdit sample_tree (update_op "a" (JStr "x")).
Proof.
  apply (applyEdit_update_idempotent sample_tree "a" (JStr "x")); reflexivity.
Defined.

(* ================================================================== *)
(** ** What Add, Delete and Move do *)
(* ================================================================== *)















(* ================================================================== *)
(** ** The reported position always lies within the text *)
(* ================================================================== *)

Lemma newlines_before_beyond (s : string) :
  forall o, (String.length s <= o)%nat ->
            newlines_before s o = newlines_before s (String.length s).
Proof.
  induction s as [|a s IH]; intros [|o] Ho; try done; cbn in Ho; try lia.
  cbn. by rewrite (IH o) by lia.
Qed.

Lemma newlines_before_mono (s : string) :
  forall o o', (o <= o')%nat -> (newlines_before s o <= newlines_before s o')%nat.
Proof.
  induction s as [|a s IH]; intros [|o] [|o'] Ho; cbn; try lia.
  specialize (IH o o' ltac:(lia)). lia.
Qed.

Lemma last_newline_before_lt (s : string) :
  forall o k, last_newline_before s o = Some k -> (k < o)%nat.
Proof. intros o k Hk. by destruct (last_newline_before_spec s o k Hk). Qed.

Lemma column_of_bounds (s : string) (o : nat) :
  (1 <= column_of s o <= o + 1)%nat.
Proof.
  unfold column_of. destruct (last_newline_before s o) as [k|] eqn:Hk; [|lia].
  pose proof (last_newline_before_lt s o k Hk). lia.
Qed.

(** X17: Whatever offset the engine's message carries, the error of a failing
    [parse] is placed within the text: an offset past the end counts as
    the end, the line is at most the number of lines of the text and the
    column at most one past its length. *)
Theorem parse_error_within_text
    (JSON_parse : string -> Completion JsVal) (jsonString msg : string) :
  JSON_parse jsonString = Throw msg ->
  exists e,
    parse JSON_parse jsonString = {| data := JNull; error := Some e |}
    /\ line e
       = (1 + newlines_before jsonString
                (Nat.min (Z.to_nat (error_position msg))
                   (String.length jsonString)))%nat
    /\ column e
       = column_of jsonString
           (Nat.min (Z.to_nat (error_position msg)) (String.length jsonString))
    /\ (line e
        <= 1 + newlines_before jsonString (String.length jsonString))%nat
    /\ (column e <= String.length jsonString + 1)%nat.
Proof.
  intros Hthrow. rewrite (parse_failure JSON_parse _ _ Hthrow).
  set (n := Z.to_nat (error_position msg)).
  set (len := String.length jsonString).
  assert (String.substring 0 n jsonString
          = String.substring 0 (Nat.min n len) jsonString) as ->.
  { destruct (Nat.le_gt_cases n len) as [Hle|Hgt].
    - by rewrite Nat.min_l.
    - rewrite Nat.min_r by lia. unfold len.
      rewrite !substring_0_all; [done|lia|lia]. }
  assert (newlines_before jsonString n
          = newlines_before jsonString (Nat.min n len)) as ->.
  { destruct (Nat.le_gt_cases n len) as [Hle|Hgt].
    - by rewrite Nat.min_l.
    - rewrite Nat.min_r by lia. apply newlines_before_beyond. lia. }
  rewrite split_prefix_column by (unfold len; lia).
  eexists. split; [reflexivity|]. cbn [line column].
  split; [done|]. split; [done|]. split.
  - pose proof (newlines_before_mono jsonString (Nat.min n len) len
                  ltac:(lia)). unfold len in *. lia.
  - pose proof (column_of_bounds jsonString (Nat.min n len)). unfold len in *. lia.
Qed.

Lemma parse_error_within_text_sample :
  exists e,
    parse (rejecting_engine "Unterminated string in JSON at position 400")
      broken_second_line
    = {| data := JNull; error := Some e |}
    /\ line e = 2%nat /\ column e = 3%nat.
Proof.
  destruct (parse_error_within_text
              (rejecting_engine "Unterminated string in JSON at position 400")
              broken_second_line
              "Unterminated string in JSON at position 400")
    as (e & Hparse & Hline & Hcol & _); [reflexivity|].
  exists e. split; [exact Hparse|]. split; [exact Hline|exact Hcol].
Defined.

(* ================================================================== *)
(** ** Reading the offset back from a message *)
(* ================================================================== *)

Lemma parseInt_from_acc (d : Decimal.uint) :
  forall acc : positive,
    parseInt_from (NilEmpty.string_of_uint d) (Z.pos acc)
    = Z.pos (Pos.of_uint_acc d acc).
Proof.
  induction d; intros acc; cbn [NilEmpty.string_of_uint Pos.of_uint_acc];
    [done|..];
    (cbn [parseInt_from]; change (is_digit _) with true; cbv iota;
     rewrite <- IHd; f_equal;
     match goal with
     | |- context [Z.of_nat (nat_of_ascii ?c)] =>
         let z := eval vm_compute in (Z.of_nat (nat_of_ascii c)) in
         change (Z.of_nat (nat_of_ascii c)) with z
     end; lia).
Qed.

Lemma parseInt_from_zero (d : Decimal.uint) :
  parseInt_from (NilEmpty.string_of_uint d) 0 = Z.of_N (Pos.of_uint d).
Proof.
  induction d; cbn [NilEmpty.string_of_uint Pos.of_uint]; [done|..];
    cbn [parseInt_from]; change (is_digit _) with true; cbv iota;
    [exact IHd|..]; cbn [Z.of_N]; rewrite <- parseInt_from_acc; f_equal.
Qed.

(** [parseInt] reads back what [toString] writes. *)
Lemma parseInt_toString (n : nat) : parseInt (toString n) = Z.of_nat n.
Proof.
  unfold parseInt, toString. rewrite parseInt_from_zero.
  change (Pos.of_uint ?d) with (N.of_uint d).
  rewrite DecimalN.Unsigned.of_to. lia.
Qed.

Lemma take_digits_app (ds rest : string) :
  all_chars is_digit ds = true -> take_digits rest = EmptyString ->
  take_digits (ds ++ rest) = ds.
Proof.
  induction ds as [|c ds IH]; [done|]. cbn [all_chars].
  intros [Hc Hds]%andb_true_iff Hrest.
  rewrite string_app_cons. cbn [take_digits]. by rewrite Hc, (IH Hds Hrest).
Qed.

Lemma ascii_eqb_sym (a b : ascii) : Ascii.eqb a b = Ascii.eqb b a.
Proof.
  destruct (Ascii.eqb_spec a b) as [->|Hab].
  - by rewrite Ascii.eqb_refl.
  - symmetry. apply Ascii.eqb_neq. congruence.
Qed.

(** Stripping a prefix from a concatenation: the prefix ends inside the
    first part, or the first part ends inside the prefix. *)
Lemma strip_prefix_app (pre : string) :
  forall u x,
    strip_prefix pre (u ++ x)
    = match strip_prefix pre u with
      | Some r => Some (r ++ x)%string
      | None =>
          match strip_prefix u pre with
          | Some pre' => strip_prefix pre' x
          | None => None
          end
      end.
Proof.
  induction pre as [|a pre IH]; intros u x; [done|].
  destruct u as [|b u]; [done|].
  rewrite string_app_cons. cbn [strip_prefix].
  rewrite (ascii_eqb_sym b a). destruct (Ascii.eqb a b); [apply IH|done].
Qed.

(** No proper, non-empty prefix of the literal is also its suffix: a
    match cannot start before the literal and end inside it. *)
Lemma position_literal_no_border (u rest y : string) :
  u <> EmptyString ->
  strip_prefix "position " u = None ->
  strip_prefix u "position " = Some rest ->
  strip_prefix rest ("position " ++ y) = None.
Proof.
  intros Hu Hnot Hpre.
  destruct u as [|c u]; [done|]. clear Hu.
  do 9 (cbn [strip_prefix] in Hpre;
        match type of Hpre with
        | (if Ascii.eqb ?c ?l then _ else _) = _ =>
            destruct (Ascii.eqb_spec c l) as [->|_]; [|discriminate Hpre]
        | _ => idtac
        end;
        destruct u as [|c' u];
        [try (injection Hpre as <-; reflexivity); try discriminate Hnot;
         try discriminate Hpre|]).
  cbn in Hpre. discriminate Hpre.
Qed.

Lemma take_digits_none_app (r x : string) :
  take_digits r = EmptyString -> take_digits x = EmptyString ->
  take_digits (r ++ x) = EmptyString.
Proof.
  destruct r as [|c r]; [done|]. rewrite string_app_cons. cbn [take_digits].
  by destruct (is_digit c).
Qed.

Lemma match_position_step (msg : string) :
  match_position msg
  = match
      match strip_prefix "position " msg with
      | Some r => if (take_digits r =? "") then None else Some (take_digits r)
      | None => None
      end
    with
    | Some ds => Some ds
    | None =>
        match msg with
        | EmptyString => None
        | String _ msg' => match_position msg'
        end
    end.
Proof. by destruct msg. Qed.

Lemma match_position_skip (pre y : string) :
  match_position pre = None ->
  match_position (pre ++ "position " ++ y)
  = match_position ("position " ++ y).
Proof.
  induction pre as [|c pre IH]; [done|]. intros Hnone.
  rewrite match_position_step in Hnone.
  rewrite match_position_step at 1. rewrite strip_prefix_app.
  destruct (strip_prefix "position " (String c pre)) as [r|] eqn:Hstrip.
  - destruct (take_digits r =? "") eqn:Hr; [|done].
    apply String.eqb_eq in Hr.
    rewrite (take_digits_none_app r ("position " ++ y) Hr eq_refl).
    cbn [String.eqb]. rewrite string_app_cons. exact (IH Hnone).
  - destruct (strip_prefix (String c pre) "position ") as [rest|] eqn:Hrest.
    + assert (String c pre <> EmptyString) as Hne by discriminate.
      rewrite (position_literal_no_border _ _ y Hne Hstrip Hrest).
      rewrite string_app_cons. exact (IH Hnone).
    + rewrite string_app_cons. exact (IH Hnone).
Qed.

(** X18: From a message that holds the literal [position N], with no earlier
    match and no digit after the number, [parse] reads the offset N. *)
Theorem error_position_reads_back (pre rest : string) (n : nat) :
  match_position pre = None ->
  take_digits rest = EmptyString ->
  error_position (pre ++ "position " ++ toString n ++ rest) = Z.of_nat n.
Proof.
  intros Hpre Hrest. unfold error_position.
  rewrite (match_position_skip pre _ Hpre), match_position_step.
  change (strip_prefix "position " ("position " ++ ?y)) with (Some y).
  destruct (toString_digits n) as [Hne Hds].
  rewrite (take_digits_app _ _ Hds Hrest).
  apply String.eqb_neq in Hne. rewrite Hne. apply parseInt_toString.
Qed.

Lemma error_position_reads_back_sample :
  error_position ("Unexpected token } in JSON at position 6") = 6%Z.
Proof.
  apply (error_position_reads_back "Unexpected token } in JSON at " "" 6);
    reflexivity.
Defined.

(* ================================================================== *)
(** ** The matcher accepts only the words of its expression *)
(* ================================================================== *)

Lemma nullable_lang (r : regex) : nullable r = true -> lang r EmptyString.
Proof.
  induction r as [| |c|r1 IH1 r2 IH2|r1 IH1 r2 IH2|r IH]; cbn; try done.
  - intros _. constructor.
  - intros [H|H]%orb_true_iff; [apply lang_alt_l|apply lang_alt_r]; auto.
  - intros [H1 H2]%andb_true_iff.
    change EmptyString with (EmptyString ++ EmptyString)%string.
    apply lang_cat; auto.
  - intros _. constructor.
Qed.

Lemma derive_lang (a : ascii) (r : regex) :
  forall s, lang (derive a r) s -> lang r (String a s).
Proof.
  induction r as [| |c|r1 IH1 r2 IH2|r1 IH1 r2 IH2|r IH]; intros s; cbn.
  - inversion 1.
  - inversion 1.
  - destruct (c a) eqn:Hc; inversion 1; subst. by constructor.
  - inversion 1; subst; [apply lang_alt_l|apply lang_alt_r]; auto.
  - assert (forall s, lang (re_cat (derive a r1) r2) s ->
                      lang (re_cat r1 r2) (String a s)) as Hcat.
    { intros s'. inversion 1 as [| | | |? ? s1 s2 H1 H2| |]; subst.
      rewrite <- string_app_cons. apply lang_cat; auto. }
    destruct (nullable r1) eqn:Hn; [|apply Hcat].
    inversion 1 as [| |? ? ? Hl|? ? ? Hr| | |]; subst; [by apply Hcat|].
    change (String a s) with (EmptyString ++ String a s)%string.
    apply lang_cat; [by apply nullable_lang|auto].
  - inversion 1 as [| | | |? ? s1 s2 H1 H2| |]; subst.
    rewrite <- string_app_cons. apply lang_star_cons; auto.
Qed.

Lemma matches_lang (s : string) : forall r, matches r s = true -> lang r s.
Proof.
  induction s as [|a s IH]; intros r; cbn.
  - apply nullable_lang.
  - intros H. by apply derive_lang, IH.
Qed.

(** [test] on the anchored pattern decides membership in the language
    of the expression. *)
Lemma matches_iff_lang (r : regex) (s : string) :
  matches r s = true <-> lang r s.
Proof. split; [apply matches_lang|apply lang_matches]. Qed.

(* ================================================================== *)
(** ** What validatePath accepts *)
(* ================================================================== *)

Lemma lang_star_class (c : ascii -> bool) (s : string) :
  lang (re_star (re_class c)) s -> all_chars c s = true.
Proof.
  intros H. remember (re_star (re_class c)) as r eqn:Hr.
  induction H as [| | | | | |r' s1 s2 H1 _ H2 IH]; try discriminate Hr; [done|].
  injection Hr as ->. inversion H1; subst.
  rewrite string_app_cons. cbn [all_chars]. rewrite H0. by apply IH.
Qed.

Lemma lang_plus_class_inv (c : ascii -> bool) (s : string) :
  lang (re_plus (re_class c)) s -> s <> EmptyString /\ all_chars c s = true.
Proof.
  inversion 1 as [| | | |? ? s1 s2 H1 H2| |]; subst.
  inversion H1; subst. rewrite string_app_cons. split; [done|].
  cbn [all_chars]. rewrite H3. by apply lang_star_class.
Qed.

Lemma take_drop_digits (r : string) :
  (take_digits r ++ drop_digits r)%string = r
  /\ all_chars is_digit (take_digits r) = true.
Proof.
  induction r as [|c r [IH1 IH2]]; [done|]. cbn [take_digits drop_digits].
  destruct (is_digit c) eqn:Hc; [|done].
  rewrite string_app_cons, IH1. cbn [all_chars]. by rewrite Hc.
Qed.

Lemma drop_digits_app (ds rest : string) :
  all_chars is_digit ds = true -> take_digits rest = EmptyString ->
  drop_digits (ds ++ rest) = rest.
Proof.
  induction ds as [|c ds IH]; cbn [all_chars].
  - intros _ Hrest. change (drop_digits rest = rest).
    destruct rest as [|c rest]; [done|].
    cbn [take_digits drop_digits] in *. by destruct (is_digit c).
  - intros [Hc Hds]%andb_true_iff Hrest.
    rewrite string_app_cons. cbn [drop_digits]. by rewrite Hc, (IH Hds Hrest).
Qed.

Lemma lang_cat_inv (r1 r2 : regex) (s : string) :
  lang (re_cat r1 r2) s ->
  exists s1 s2, s = (s1 ++ s2)%string /\ lang r1 s1 /\ lang r2 s2.
Proof. inversion 1; subst. by eexists _, _. Qed.

Lemma lang_char_inv (c : ascii) (s : string) :
  lang (re_char c) s -> s = String c EmptyString.
Proof.
  inversion 1 as [|? a Ha| | | | |]; subst. by apply Ascii.eqb_eq in Ha as ->.
Qed.

(** The segment expression accepts the words and the bracketed
    indexes. *)
Lemma lang_segment_iff (s : string) :
  lang segment_re s <-> is_segment s = true.
Proof.
  unfold is_segment. split.
  - inversion 1 as [| |? ? ? Hw|? ? ? Hi| | |]; subst.
    + apply lang_plus_class_inv in Hw as [Hne Hall].
      apply orb_true_iff. left. unfold is_word_key.
      apply String.eqb_neq in Hne. by rewrite Hne, Hall.
    + apply lang_cat_inv in Hi as (s1 & s2 & -> & ->%lang_char_inv & H2).
      apply lang_cat_inv in H2 as (ds & s3 & -> & Hd & ->%lang_char_inv).
      apply lang_plus_class_inv in Hd as [Hne Hall].
      apply orb_true_iff. right.
      change (is_index_segment (String "[" (ds ++ "]")) = true).
      cbn [is_index_segment Ascii.eqb Bool.eqb andb].
      rewrite (take_digits_app ds "]" Hall eq_refl).
      rewrite (drop_digits_app ds "]" Hall eq_refl).
      apply String.eqb_neq in Hne. by rewrite Hne.
  - intros [Hw|Hi]%orb_true_iff; [by apply lang_segment_word|].
    destruct s as [|c r]; [done|]. cbn [is_index_segment] in Hi.
    apply andb_true_iff in Hi as [[Hc Hne]%andb_true_iff Hclose].
    apply Ascii.eqb_eq in Hc as ->. apply String.eqb_eq in Hclose.
    destruct (take_drop_digits r) as [Hr Hall]. rewrite Hclose in Hr.
    apply lang_alt_r. rewrite <- Hr.
    change (String "[" ?x) with (String "["%char EmptyString ++ x)%string.
    apply lang_cat; [by constructor|].
    apply lang_cat; [|by constructor].
    apply lang_plus_class; [|done]. intros Hnil.
    by rewrite Hnil in Hne.
Qed.

Lemma is_word_not_dot (c : ascii) : is_word c = true -> Ascii.eqb c dot = false.
Proof.
  intros Hc. destruct (Ascii.eqb c dot) eqn:Hd; [|done].
  apply Ascii.eqb_eq in Hd as ->. discriminate Hc.
Qed.

Lemma is_digit_not_dot (c : ascii) : is_digit c = true -> Ascii.eqb c dot = false.
Proof.
  intros Hc. destruct (Ascii.eqb c dot) eqn:Hd; [|done].
  apply Ascii.eqb_eq in Hd as ->. discriminate Hc.
Qed.

Lemma all_word_dot_free (s : string) :
  all_chars is_word s = true -> dot_free s = true.
Proof.
  induction s as [|c s IH]; [done|]. cbn [all_chars]. rewrite dot_free_cons.
  intros [Hc Hs]%andb_true_iff. by rewrite (is_word_not_dot c Hc), (IH Hs).
Qed.

Lemma all_digit_dot_free (s : string) :
  all_chars is_digit s = true -> dot_free s = true.
Proof.
  induction s as [|c s IH]; [done|]. cbn [all_chars]. rewrite dot_free_cons.
  intros [Hc Hs]%andb_true_iff. by rewrite (is_digit_not_dot c Hc), (IH Hs).
Qed.

Lemma dot_free_app (s t : string) :
  dot_free (s ++ t) = dot_free s && dot_free t.
Proof.
  induction s as [|c s IH]; [done|].
  rewrite string_app_cons, !dot_free_cons, IH. by rewrite andb_assoc.
Qed.

(** No segment holds a dot. *)
Lemma segment_dot_free (s : string) : is_segment s = true -> dot_free s = true.
Proof.
  unfold is_segment, is_word_key.
  intros [[_ Hw]%andb_true_iff|Hi]%orb_true_iff; [by apply all_word_dot_free|].
  destruct s as [|c r]; [done|]. cbn [is_index_segment] in Hi.
  apply andb_true_iff in Hi as [[Hc _]%andb_true_iff Hclose].
  apply Ascii.eqb_eq in Hc as ->. apply String.eqb_eq in Hclose.
  destruct (take_drop_digits r) as [Hr Hall]. rewrite Hclose in Hr.
  rewrite dot_free_cons, <- Hr, dot_free_app, (all_digit_dot_free _ Hall).
  done.
Qed.

Lemma split_at_dot (s x : string) :
  dot_free s = true -> split dot (s ++ String dot x) = s :: split dot x.
Proof.
  induction s as [|a s IH].
  - intros _. change (split dot (String dot x) = EmptyString :: split dot x).
    cbn [split]. by rewrite Ascii.eqb_refl.
  - rewrite dot_free_cons. intros [Ha Hs]%andb_true_iff.
    rewrite string_app_cons. cbn [split]. rewrite (IH Hs).
    by destruct (Ascii.eqb a dot).
Qed.

Lemma split_inv (p : string) :
  forall s rest, split dot p = s :: rest ->
    (rest = [] /\ p = s)
    \/ (exists p', p = (s ++ String dot p')%string /\ split dot p' = rest).
Proof.
  induction p as [|a p IH]; intros s rest; cbn [split].
  - intros [= <- <-]. by left.
  - destruct (Ascii.eqb a dot) eqn:Ha.
    + apply Ascii.eqb_eq in Ha as ->. intros [= <- <-]. right. by exists p.
    + destruct (split dot p) as [|h t] eqn:Hp; [by apply split_not_nil in Hp|].
      intros [= <- <-]. destruct (IH h t eq_refl) as [[-> ->]|(p' & -> & Hp')].
      * by left.
      * right. exists p'. by rewrite string_app_cons.
Qed.

Lemma lang_path_prepend (s p : string) :
  lang segment_re s -> lang path_re p -> lang path_re (s ++ String dot p).
Proof.
  intros Hs (s1 & rest & -> & H1 & Hrest)%lang_cat_inv.
  apply lang_cat; [done|].
  change (String dot (s1 ++ rest))
    with ((String dot EmptyString ++ s1) ++ rest)%string.
  apply lang_star_cons; [|done]. apply lang_cat; [by constructor|done].
Qed.

Lemma lang_path_pieces (rest : string) :
  lang (re_star (re_cat (re_char dot) segment_re)) rest ->
  forall s0, dot_free s0 = true ->
    exists pieces, split dot (s0 ++ rest) = s0 :: pieces
                   /\ forallb is_segment pieces = true.
Proof.
  intros H. remember (re_star (re_cat (re_char dot) segment_re)) as r eqn:Hr.
  induction H as [| | | | | |r' t1 t2 H1 _ H2 IH]; try discriminate Hr.
  - intros s0 Hs0. exists []. by rewrite string_app_nil_r, split_dot_free.
  - injection Hr as ->. intros s0 Hs0.
    apply lang_cat_inv in H1 as (d & s1 & -> & ->%lang_char_inv & Hs1).
    apply lang_segment_iff in Hs1.
    destruct (IH eq_refl s1 (segment_dot_free s1 Hs1)) as (pieces & Hsp & Hall).
    exists (s1 :: pieces).
    change (s0 ++ (String dot EmptyString ++ s1) ++ t2)%string
      with (s0 ++ String dot (s1 ++ t2))%string.
    rewrite (split_at_dot _ _ Hs0), Hsp. cbn [forallb]. by rewrite Hs1, Hall.
Qed.

Lemma pieces_lang_path (pieces : list string) :
  forall p, split dot p = pieces -> forallb is_segment pieces = true ->
            lang path_re p.
Proof.
  induction pieces as [|s rest IH]; intros p Hp; [by apply split_not_nil in Hp|].
  cbn [forallb]. intros [Hs Hrest]%andb_true_iff.
  apply lang_segment_iff in Hs.
  destruct (split_inv p s rest Hp) as [[-> ->]|(p' & -> & Hp')].
  - by apply lang_path_one.
  - apply lang_path_prepend; [done|]. by apply IH.
Qed.

(** X19: [validatePath] accepts a path exactly when each of the pieces between
    its dots is a word of [\w] characters or a bracketed run of digits. *)
Theorem validatePath_pieces (p : string) :
  validatePath p = forallb is_segment (split dot p).
Proof.
  apply eq_true_iff_eq. unfold validatePath. rewrite matches_iff_lang. split.
  - intros (s0 & rest & -> & Hs0 & Hrest)%lang_cat_inv.
    apply lang_segment_iff in Hs0.
    destruct (lang_path_pieces rest Hrest s0 (segment_dot_free s0 Hs0))
      as (pieces & -> & Hall).
    cbn [forallb]. by rewrite Hs0, Hall.
  - by apply pieces_lang_path.
Qed.

(* ================================================================== *)
(** ** The editor: what its tree and its error are the parse of *)
(* ================================================================== *)

Section Editor_facts.

Variable JSON_parse : string -> Completion JsVal.
Variable JSON_stringify : JsVal -> option nat -> string.
Variable initialJson : string.
Variable height : string.
Variable readOnly : bool.

Lemma parse_returns (text : string) (d : JsVal) :
  JSON_parse text = Return d ->
  parse JSON_parse text = {| data := d; error := None |}.
Proof. unfold parse. by intros ->. Qed.

Lemma parse_error_iff_throw (text : string) :
  error (parse JSON_parse text) = None
  <-> exists d, JSON_parse text = Return d.
Proof.
  unfold parse. destruct (JSON_parse text) as [d|msg]; cbn.
  - split; [by exists d|done].
  - split; [done|]. by intros [d Hd].
Qed.

Lemma shows_same (st st' : EditorState) (text : string) :
  jsonTree st' = jsonTree st -> parseError st' = parseError st ->
  shows JSON_parse st text -> shows JSON_parse st' text.
Proof. unfold shows. by intros -> ->. Qed.

Lemma parseJson_shows (text : string) (st : EditorState) :
  shows JSON_parse (parseJson JSON_parse text st) text.
Proof.
  unfold shows, parseJson.
  destruct (error (parse JSON_parse text)) as [e|]; by split.
Qed.

Lemma parseJson_keeps (text : string) (st : EditorState) :
  jsonInput (parseJson JSON_parse text st) = jsonInput st
  /\ viewMode (parseJson JSON_parse text st) = viewMode st
  /\ isEditing (parseJson JSON_parse text st) = isEditing st.
Proof. unfold parseJson. by destruct (error _). Qed.

Lemma shows_parsed (text : string) (st st' : EditorState) :
  jsonInput st' = text ->
  jsonTree st' = jsonTree (parseJson JSON_parse text st) ->
  parseError st' = parseError (parseJson JSON_parse text st) ->
  shows JSON_parse st' (jsonInput st').
Proof.
  intros -> Ht He.
  eapply shows_same; [exact Ht|exact He|apply parseJson_shows].
Qed.

Lemma toggleNode_same (p : string) (t : list JsonNode) :
  same_up_to_expanded (toggleNode p t) t.
Proof.
  unfold same_up_to_expanded, toggleNode, updateExpanded.
  rewrite map_map. apply map_ext. apply updateExpanded_erase.
Qed.

Lemma toggle_shows (p : string) (st st' : EditorState) (text : string) :
  jsonTree st' = toggleNode p (jsonTree st) ->
  parseError st' = parseError st ->
  shows JSON_parse st text -> shows JSON_parse st' text.
Proof.
  unfold shows. intros -> ->.
  destruct (error (parse JSON_parse text)) as [e|].
  - intros [He ->]. by split.
  - intros [He Hsame]. split; [done|].
    unfold same_up_to_expanded in *. by rewrite toggleNode_same.
Qed.

Lemma format_keeps (st st' : EditorState) :
  formatJson JSON_parse JSON_stringify st = Return st'
  \/ compactJson JSON_parse JSON_stringify st = Return st' ->
  jsonTree st' = jsonTree st /\ parseError st' = parseError st
  /\ viewMode st' = viewMode st /\ isEditing st' = isEditing st.
Proof.
  unfold formatJson, compactJson.
  destruct (parseError st) eqn:He; [by intros [[= <-]|[= <-]]|].
  destruct (JSON_parse (jsonInput st)); [|by intros [|]].
  by intros [[= <-]|[= <-]].
Qed.

Lemma reachable_shows (st : EditorState) :
  reachable JSON_parse JSON_stringify initialJson height readOnly st ->
  exists text, shows JSON_parse st text.
Proof.
  induction 1 as [|st ev st' _ [text IH] _ Hstep].
  - exists initialJson. apply parseJson_shows.
  - destruct ev as [m| | | |p|value]; cbn [handle] in Hstep.
    + injection Hstep as <-. exists text. by apply (shows_same st).
    + destruct (format_keeps st st' (or_introl Hstep)) as (Ht & He & _).
      exists text. by apply (shows_same st).
    + destruct (format_keeps st st' (or_intror Hstep)) as (Ht & He & _).
      exists text. by apply (shows_same st).
    + injection Hstep as <-. unfold toggleEditMode.
      destruct (isEditing st).
      * exists (jsonInput st).
        eapply shows_same; [| |apply (parseJson_shows (jsonInput st) st)]; done.
      * exists text. by apply (shows_same st).
    + injection Hstep as <-. exists text. by apply (toggle_shows p st).
    + injection Hstep as <-. unfold handleInputChange.
      destruct (viewMode st).
      * exists text. by apply (shows_same st).
      * exists value. apply parseJson_shows.
Qed.

Lemma renderNode_no_input (text : string) (n : JsonNode) :
  forall b, offers (InputChange text) (renderNode n b) = false.
Proof.
  induction n as [k v t q l e ch i IH] using JsonNode_nested_ind.
  intros b. cbn [renderNode offers fires existsb Event_eqb orb andb negb
                  type path level key value children bracket].
  destruct (is_container_type t); cbn [negb andb].
  - destruct (negb (not_expanded _));
      cbn [offers fires existsb Event_eqb orb andb negb bracket];
      [|done].
    destruct ch as [cs|]; [|done].
    cbn [offers fires existsb Event_eqb orb andb negb].
    rewrite existsb_app. cbn [existsb offers fires Event_eqb orb andb negb bracket].
    rewrite !orb_false_r.
    induction cs as [|c cs IHcs]; [done|].
    inversion IH as [|? ? Hc IH']; subst.
    cbn [map existsb]. by rewrite Hc, (IHcs IH').
  - cbn [offers fires existsb Event_eqb orb andb negb]. by destruct v.
Qed.

(** In tree view and out of edit mode no control takes text. *)
Lemma tree_view_takes_no_input (text : string) (st : EditorState) :
  viewMode st = TreeView -> isEditing st = false ->
  offers (InputChange text) (render height readOnly st) = false.
Proof.
  intros Hv Hed. unfold render. rewrite Hv, Hed.
  destruct (parseError st);
    cbn [offers fires existsb Event_eqb orb andb negb action_button];
    rewrite ?orb_false_r;
    (induction (jsonTree st) as [|n t IH]; [done|]);
    cbn [map existsb]; by rewrite renderNode_no_input, IH.
Qed.

Lemma shows_rewritten (st : EditorState) (d : JsVal) (indent : option nat) :
  reads_back JSON_parse JSON_stringify ->
  JSON_parse (jsonInput st) = Return d ->
  shows JSON_parse st (jsonInput st) ->
  shows JSON_parse (with_input (JSON_stringify d indent) st)
        (JSON_stringify d indent).
Proof.
  intros Hrt Hd. unfold shows.
  rewrite (parse_returns _ _ Hd), (parse_returns _ _ (Hrt _ _ indent Hd)).
  done.
Qed.

Lemma reachable_in_sync (st : EditorState) :
  reads_back JSON_parse JSON_stringify ->
  reachable JSON_parse JSON_stringify initialJson height readOnly st ->
  isEditing st = false -> shows JSON_parse st (jsonInput st).
Proof.
  intros Hrt. induction 1 as [|st ev st' _ IH Hoff Hstep].
  - intros _. unfold mounted.
    destruct (parseJson_keeps initialJson (first_render initialJson))
      as (-> & _).
    apply parseJson_shows.
  - destruct ev as [m| | | |p|value]; cbn [handle] in Hstep.
    + injection Hstep as <-. cbn. intros Hed. by apply (shows_same st), IH.
    + unfold formatJson in Hstep. destruct (parseError st) eqn:He.
      { injection Hstep as <-. exact IH. }
      destruct (JSON_parse (jsonInput st)) as [d|msg] eqn:Hd; [|done].
      injection Hstep as <-. cbn [isEditing with_input jsonInput]. intros Hed.
      by apply shows_rewritten, IH.
    + unfold compactJson in Hstep. destruct (parseError st) eqn:He.
      { injection Hstep as <-. exact IH. }
      destruct (JSON_parse (jsonInput st)) as [d|msg] eqn:Hd; [|done].
      injection Hstep as <-. cbn [isEditing with_input jsonInput]. intros Hed.
      by apply shows_rewritten, IH.
    + injection Hstep as <-. unfold toggleEditMode.
      destruct (isEditing st); [|done]. intros _.
      apply (shows_parsed (jsonInput st) st); [|done|done].
      apply parseJson_keeps.
    + injection Hstep as <-. cbn. intros Hed. by apply (toggle_shows p st), IH.
    + injection Hstep as <-. unfold handleInputChange.
      destruct (viewMode st) eqn:Hv.
      * cbn. intros Hed.
        by rewrite (tree_view_takes_no_input value st Hv Hed) in Hoff.
      * intros _.
        apply (shows_parsed value (with_input value st)); [|done|done].
        by destruct (parseJson_keeps value (with_input value st)) as (-> & _).
Qed.

(** X20: Out of edit mode the tree and the error on display are those of the
    text the editor holds, and no handler throws: whatever the events
    that led there, as long as the engine reads back what it writes. *)
Theorem not_editing_in_sync (st : EditorState) :
  reads_back JSON_parse JSON_stringify ->
  reachable JSON_parse JSON_stringify initialJson height readOnly st ->
  isEditing st = false ->
  shows JSON_parse st (jsonInput st)
  /\ forall ev, exists st',
       handle JSON_parse JSON_stringify ev st = Return st'.
Proof.
  intros Hrt Hst Hed.
  assert (shows JSON_parse st (jsonInput st)) as Hsh
    by by apply reachable_in_sync.
  split; [done|].
  assert (parseError st = None ->
          exists d, JSON_parse (jsonInput st) = Return d) as Hd.
  { intros He. apply parse_error_iff_throw. unfold shows in Hsh.
    destruct (error (parse JSON_parse (jsonInput st))); [|done].
    destruct Hsh as [Hsome _]. by rewrite He in Hsome. }
  intros [m| | | |p|value]; cbn [handle]; try by eexists.
  - unfold formatJson. destruct (parseError st); [by eexists|].
    destruct (Hd eq_refl) as [d ->]. by eexists.
  - unfold compactJson. destruct (parseError st); [by eexists|].
    destruct (Hd eq_refl) as [d ->]. by eexists.
Qed.

(** X21: Whatever the events, the tree and the error the editor holds are
    those of one parse of some text; in particular the tree is empty
    whenever an error is on display. *)
Theorem editor_holds_one_parse (st : EditorState) :
  reachable JSON_parse JSON_stringify initialJson height readOnly st ->
  (exists text, shows JSON_parse st text)
  /\ (parseError st <> None -> jsonTree st = []).
Proof.
  intros [text Hsh]%reachable_shows. split; [by exists text|].
  unfold shows in Hsh. destruct (error (parse JSON_parse text)).
  - by destruct Hsh as [_ ->].
  - by destruct Hsh as [-> _].
Qed.

(** X22: A text typed in edit mode of the tree view is not parsed until it is
    applied: the format and the compact button stay enabled, and a click
    on either throws the engine's error out of the handler. *)
Theorem format_throws_on_unapplied_edit (d : JsVal) (bad msg : string) :
  JSON_parse initialJson = Return d ->
  JSON_parse bad = Throw msg ->
  run JSON_parse JSON_stringify height readOnly
      [ToggleEditMode; InputChange bad; FormatJson]
      (mounted JSON_parse initialJson) = Some (Throw msg)
  /\ run JSON_parse JSON_stringify height readOnly
        [ToggleEditMode; InputChange bad; CompactJson]
        (mounted JSON_parse initialJson) = Some (Throw msg).
Proof.
  intros Hd Hbad. unfold mounted, parseJson.
  rewrite (parse_returns _ _ Hd).
  cbn [error data run render offers fires existsb Event_eqb ViewMode_eqb
       orb andb negb first_render viewMode isEditing parseError jsonInput
       jsonTree handle toggleEditMode handleInputChange with_input
       formatJson compactJson action_button textarea app].
  by rewrite Hbad.
Qed.

(** X23: The [readOnly] prop guards the text area of the raw view only: there
    no control takes text, but a read-only editor still takes any text
    through the edit mode of the tree view, and shows its parse once it
    is applied. *)
Theorem readOnly_guards_raw_view_only (text : string) :
  (forall st, viewMode st = RawView ->
              offers (InputChange text) (render height true st) = false)
  /\ exists st,
       run JSON_parse JSON_stringify height true
           [ToggleEditMode; InputChange text; ToggleEditMode]
           (mounted JSON_parse initialJson) = Some (Return st)
       /\ jsonInput st = text
       /\ isEditing st = false
       /\ shows JSON_parse st text.
Proof.
  split.
  - intros st Hv. unfold render. rewrite Hv.
    by destruct (parseError st).
  - unfold mounted.
    destruct (parseJson_keeps initialJson (first_render initialJson))
      as (_ & Hv & Hed).
    destruct (parseJson JSON_parse initialJson (first_render initialJson))
      as [inp tree err vm ed].
    cbn in Hv, Hed. subst vm ed.
    eexists. split; [|split; [|split]].
    + destruct err;
        cbn [run render offers fires existsb Event_eqb ViewMode_eqb
             orb andb negb action_button textarea app
             handle toggleEditMode handleInputChange with_input
             viewMode isEditing parseError jsonInput jsonTree];
        reflexivity.
    + cbn. apply parseJson_keeps.
    + done.
    + eapply shows_same; [| |apply parseJson_shows]; done.
Qed.

End Editor_facts.

(* ================================================================== *)
(** ** What the tree view puts on display *)
(* ================================================================== *)

Lemma flat_map_map {A B C : Type} (f : A -> B) (g : B -> list C) (l : list A) :
  flat_map g (map f l) = flat_map (fun a => g (f a)) l.
Proof. induction l as [|a l IH]; [done|]. cbn. by rewrite IH. Qed.

Lemma flat_map_ext_Forall {A B : Type} (f g : A -> list B) (l : list A) :
  Forall (fun a => f a = g a) l -> flat_map f l = flat_map g l.
Proof. induction 1 as [|a l Ha _ IH]; [done|]. cbn. by rewrite Ha, IH. Qed.

Lemma filter_flat_map {A B : Type} (p : B -> bool) (f : A -> list B)
    (l : list A) :
  List.filter p (flat_map f l) = flat_map (fun a => List.filter p (f a)) l.
Proof.
  induction l as [|a l IH]; [done|]. cbn. by rewrite List.filter_app, IH.
Qed.

Lemma map_flat_map {A B C : Type} (g : B -> C) (f : A -> list B) (l : list A) :
  map g (flat_map f l) = flat_map (fun a => map g (f a)) l.
Proof. induction l as [|a l IH]; [done|]. cbn. by rewrite map_app, IH. Qed.

(** The nodes [renderNode] makes an element for: the node, and the
    children it has when it is a container that is expanded. *)
Lemma displayed_renderNode (n : JsonNode) (b : bool) :
  displayed (renderNode n b)
  = path n ::
    (if is_container_type (type n) && negb (not_expanded n) then
       match children n with
       | Some cs =>
           flat_map (fun c => displayed (renderNode c (type n =? "array"))) cs
       | None => []
       end
     else []).
Proof.
  destruct n as [k v t q l e ch i].
  cbn [renderNode displayed flat_map app type path level key value children
       bracket].
  f_equal.
  destruct (is_container_type t); cbn [negb andb].
  - destruct (negb (not_expanded _)); cbn [displayed flat_map app bracket];
      [|done].
    destruct ch as [cs|]; [|done]. cbn [displayed flat_map app].
    rewrite flat_map_app, flat_map_map. cbn [flat_map displayed app bracket].
    by rewrite !app_nil_r.
  - by destruct v.
Qed.

Lemma fresh_children (n : JsonNode) (cs : list JsonNode) :
  fresh n -> children n = Some cs ->
  Forall (fun c => fresh c /\ level c = S (level n)) cs.
Proof.
  destruct n as [k v t q l e ch i]. unfold fresh. cbn [flatten children level].
  intros Hn ->. inversion Hn as [|? ? (_ & Hch & _) Hrest]; subst.
  cbn [children type value path level] in Hch.
  destruct (is_container_type t); [|done]. injection Hch as ->.
  pose proof (toJsonTree_projected_at v q (S l)) as Hlv.
  rewrite forallb_forall in Hlv. apply List.Forall_forall. intros c Hc. split.
  - rewrite List.Forall_forall in Hrest. apply List.Forall_forall. intros m Hm.
    apply Hrest. apply List.in_flat_map. by exists c.
  - specialize (Hlv c Hc). unfold projected_at in Hlv.
    apply andb_true_iff in Hlv as [[Hl _]%andb_true_iff _].
    by apply Nat.eqb_eq in Hl.
Qed.

Lemma fresh_displayed (n : JsonNode) :
  fresh n -> forall b,
    displayed (renderNode n b)
    = map path (List.filter (fun m => level m <=? Nat.max (level n) 2)%nat
                            (flatten n))
    /\ Forall (fun m => level n <= level m)%nat (flatten n).
Proof.
  induction n as [k v t q l e ch i IH] using JsonNode_nested_ind.
  intros Hn b. rewrite displayed_renderNode.
  pose proof (fun cs => fresh_children _ cs Hn) as Hcs.
  inversion Hn as [|? ? (_ & Hch & He) _]; subst.
  cbn [children type value path level expanded flatten List.filter map
       not_expanded] in *.
  assert ((l <=? Nat.max l 2)%nat = true) as -> by (apply Nat.leb_le; lia).
  cbn [map]. subst e. cbn [not_expanded expanded].
  replace (negb (if (l <? 2)%nat then false else true)) with (l <? 2)%nat
    by by destruct (l <? 2)%nat.
  destruct (is_container_type t).
  - subst ch. specialize (Hcs _ eq_refl).
    set (cs := toJsonTree v q (S l)) in *. clearbody cs.
    assert (Forall (fun c => forall b',
              displayed (renderNode c b')
              = map path (List.filter (fun m => level m <=? Nat.max (S l) 2)%nat
                                      (flatten c))
              /\ Forall (fun m => S l <= level m)%nat (flatten c)) cs) as Hall.
    { clear -IH Hcs. induction cs as [|c cs IHcs]; [constructor|].
      inversion IH as [|? ? Hc IH']; subst.
      inversion Hcs as [|? ? [Hf Hl] Hcs']; subst.
      constructor; [|by apply IHcs].
      intros b'. destruct (Hc Hf b') as [Hd Hlv]. by rewrite Hl in Hd, Hlv. }
    clear IH Hcs Hn. split.
    + f_equal. rewrite filter_flat_map, map_flat_map.
      destruct (l <? 2)%nat eqn:Hl2; cbn [negb andb].
      * apply Nat.ltb_lt in Hl2.
        replace (Nat.max l 2) with (Nat.max (S l) 2) by lia.
        apply flat_map_ext_Forall. eapply Forall_impl; [exact Hall|].
        intros c Hc. apply Hc.
      * apply Nat.ltb_ge in Hl2. symmetry.
        induction Hall as [|c cs' Hc _ IHcs]; [done|].
        cbn [flat_map]. rewrite IHcs, app_nil_r.
        destruct (Hc false) as [_ Hlv]. clear -Hlv Hl2.
        induction Hlv as [|m ms Hm _ IHm]; [done|].
        cbn [List.filter].
        assert ((level m <=? Nat.max l 2)%nat = false) as ->
          by (apply Nat.leb_gt; lia).
        exact IHm.
    + constructor; [cbn; lia|].
      apply Forall_flat_map. eapply Forall_impl; [exact Hall|].
      intros c Hc. destruct (Hc false) as [_ Hlv].
      eapply Forall_impl; [exact Hlv|]. cbn. intros; lia.
  - subst ch. split; [by rewrite andb_false_l|].
    constructor; [cbn; lia|constructor].
Qed.

Lemma toJsonTree_fresh (v : JsVal) (parentPath : string) (lv : nat) :
  Forall (fun n => fresh n /\ level n = lv) (toJsonTree v parentPath lv).
Proof.
  pose proof (flatten_projects_value v parentPath lv) as Hall.
  pose proof (toJsonTree_projected_at v parentPath lv) as Hlv.
  rewrite forallb_forall in Hlv. rewrite List.Forall_forall in Hall.
  apply List.Forall_forall. intros n Hn. split.
  - apply List.Forall_forall. intros m Hm. apply Hall.
    apply List.in_flat_map. by exists n.
  - specialize (Hlv n Hn). unfold projected_at in Hlv.
    apply andb_true_iff in Hlv as [[Hl _]%andb_true_iff _].
    by apply Nat.eqb_eq in Hl.
Qed.

Lemma toJsonTree_displayed (v : JsVal) (parentPath : string) (b : bool) :
  flat_map (fun n => displayed (renderNode n b)) (toJsonTree v parentPath 0)
  = map path (List.filter (fun m => level m <=? 2)%nat
                (flat_map flatten (toJsonTree v parentPath 0))).
Proof.
  rewrite filter_flat_map, map_flat_map. apply flat_map_ext_Forall.
  eapply Forall_impl; [apply toJsonTree_fresh|].
  intros n [Hf Hl]. destruct (fresh_displayed n Hf b) as [-> _].
  by rewrite Hl.
Qed.

(** X24: Once mounted on a text that parses, the tree view has on display the
    nodes of the first three levels of the tree, in document order, and
    no other. *)
Theorem three_levels_on_display
    (JSON_parse : string -> Completion JsVal)
    (initialJson height : string) (readOnly : bool) (d : JsVal) :
  JSON_parse initialJson = Return d ->
  displayed (render height readOnly (mounted JSON_parse initialJson))
  = map path (List.filter (fun m => level m <=? 2)%nat
                (flat_map flatten (toJsonTree d "" 0))).
Proof.
  intros Hd. unfold mounted, parseJson. rewrite (parse_returns _ _ _ Hd).
  cbn [error data render first_render viewMode isEditing parseError
       jsonTree displayed flat_map app action_button].
  rewrite !app_nil_r, flat_map_map. apply toJsonTree_displayed.
Qed.

(** The toggle buttons [renderNode] makes: one for the node when it is a
    container, and those of its children when it is expanded as well. *)
Lemma toggles_renderNode (p : string) (n : JsonNode) (b : bool) :
  offers (ToggleNode p) (renderNode n b)
  = is_container_type (type n)
    && ((p =? path n)
        || (negb (not_expanded n)
            && match children n with
               | Some cs =>
                   existsb (fun c => offers (ToggleNode p)
                                       (renderNode c (type n =? "array"))) cs
               | None => false
               end)).
Proof.
  destruct n as [k v t q l e ch i].
  cbn [renderNode offers fires existsb Event_eqb orb andb negb
       type path level key value children bracket].
  destruct (is_container_type t); cbn [negb andb orb]; [|by destruct v].
  destruct (negb (not_expanded _)); [destruct ch as [cs|]|];
    cbn [offers fires existsb Event_eqb orb andb negb bracket];
    rewrite ?existsb_app;
    cbn [offers fires existsb Event_eqb orb andb negb bracket];
    unfold fires; cbn [existsb Event_eqb orb andb negb];
    rewrite ?orb_false_r, ?andb_true_r; try done.
  f_equal. induction cs as [|c cs IH]; [done|].
  cbn [map existsb]. by rewrite IH.
Qed.

Lemma exists_rendered {A : Type} (f : Element -> bool) (g : A -> Element)
    (l : list A) :
  existsb f (map g l) = existsb (fun a => f (g a)) l.
Proof. induction l as [|a l IH]; [done|]. cbn. by rewrite IH. Qed.

Lemma toggle_button_found (p : string) (n : JsonNode) :
  forall b, offers (ToggleNode p) (renderNode n b) = true ->
            find_in p n <> None.
Proof.
  induction n as [k v t q l e ch i IH] using JsonNode_nested_ind.
  intros b. rewrite toggles_renderNode.
  cbn [find_in type path children].
  intros [_ [Hp|[_ Hcs]%andb_true_iff]%orb_true_iff]%andb_true_iff.
  - apply String.eqb_eq in Hp as ->. by rewrite String.eqb_refl.
  - destruct (q =? p); [done|]. destruct ch as [cs|]; [|done].
    induction cs as [|c cs IHcs]; [done|].
    inversion IH as [|? ? Hc IH']; subst.
    cbn [existsb first_some] in *.
    apply orb_true_iff in Hcs as [Hoff|Hrest].
    + specialize (Hc _ Hoff). by destruct (find_in p c).
    + destruct (find_in p c); [done|]. by apply IHcs.
Qed.

(** X25: Every toggle button on display changes the tree when it is
    clicked: the buttons are there in tree view out of edit mode only,
    and each is for the path of a node of the tree. *)
Theorem offered_toggle_changes_tree
    (height : string) (readOnly : bool) (st : EditorState) (p : string) :
  offers (ToggleNode p) (render height readOnly st) = true ->
  viewMode st = TreeView /\ isEditing st = false
  /\ findNodeByPath (jsonTree st) p <> None
  /\ toggleNode p (jsonTree st) <> jsonTree st.
Proof.
  destruct st as [inp tree err vm ed]. unfold render.
  cbn [viewMode isEditing parseError jsonTree jsonInput].
  intros Hoff.
  assert (vm = TreeView /\ ed = false
          /\ existsb (fun n => offers (ToggleNode p) (renderNode n false)) tree
             = true) as (-> & -> & Htree).
  { destruct vm, ed, err;
      cbn [offers fires existsb Event_eqb ViewMode_eqb orb andb negb
           action_button textarea app] in Hoff;
      unfold fires in Hoff;
      cbn [offers existsb Event_eqb ViewMode_eqb orb andb negb] in Hoff;
      try discriminate Hoff;
      rewrite ?orb_false_r, exists_rendered in Hoff; done. }
  clear Hoff.
  assert (findNodeByPath tree p <> None) as Hfound.
  { unfold findNodeByPath. induction tree as [|n t IH]; [done|].
    cbn [existsb first_some] in *.
    apply orb_true_iff in Htree as [Hn|Ht].
    - apply toggle_button_found in Hn. by destruct (find_in p n).
    - destruct (find_in p n); [done|]. by apply IH. }
  repeat split; [done|]. intros Hfix. by apply toggleNode_fixed in Hfix.
Qed.

(* ================================================================== *)
(** ** The colours on display *)
(* ================================================================== *)

Lemma colours_renderNode (n : JsonNode) (b : bool) :
  colours (renderNode n b)
  = if is_container_type (type n) then
      if negb (not_expanded n) then
        match children n with
        | Some cs =>
            flat_map (fun c => colours (renderNode c (type n =? "array"))) cs
        | None => []
        end
      else []
    else [getTypeColor (type n)].
Proof.
  destruct n as [k v t q l e ch i].
  cbn [renderNode colours flat_map app type path level key value children
       bracket].
  destruct (is_container_type t); cbn [negb andb]; [|by destruct v].
  destruct (negb (not_expanded _)); [destruct ch as [cs|]|];
    cbn [colours flat_map app bracket]; try done.
  rewrite flat_map_app, flat_map_map. cbn [flat_map colours app bracket].
  by rewrite !app_nil_r.
Qed.

Lemma scalar_typed_erase (n : JsonNode) :
  scalar_typed (erase_expanded n) = scalar_typed n.
Proof.
  induction n as [k v t q l e ch i IH] using JsonNode_nested_ind.
  cbn [erase_expanded scalar_typed]. f_equal.
  destruct ch as [cs|]; [|done].
  induction cs as [|c cs IHcs]; [done|].
  inversion IH as [|? ? Hc IH']; subst.
  cbn [map forallb]. by rewrite Hc, (IHcs IH').
Qed.

Lemma scalar_typed_same (t t0 : list JsonNode) :
  same_up_to_expanded t t0 -> forallb scalar_typed t = forallb scalar_typed t0.
Proof.
  unfold same_up_to_expanded. intros Hsame.
  assert (forall l, forallb scalar_typed (map erase_expanded l)
                    = forallb scalar_typed l) as Herase.
  { induction l as [|n l IH]; [done|].
    cbn [map forallb]. by rewrite scalar_typed_erase, IH. }
  by rewrite <- (Herase t), Hsame, Herase.
Qed.

Lemma node_type_json (x : JsVal) :
  json_value x = true ->
  is_container_type (node_type x)
  || existsb (String.eqb (node_type x)) ["string"; "number"; "boolean"]
  = true.
Proof. by destruct x. Qed.

Lemma toJsonTree_scalar_typed (v : JsVal) :
  json_value v = true ->
  forall parentPath lv,
    forallb scalar_typed (toJsonTree v parentPath lv) = true.
Proof.
  induction v as [| | | | |elems props IHe _|props IHp] using JsVal_nested_ind;
    try done.
  - intros Hv parentPath lv. rewrite toJsonTree_array.
    simpl in Hv. destruct props; [|discriminate].
    generalize 0%nat.
    induction elems as [|e es IH]; intros i; [done|].
    inversion IHe as [|? ? Hx IHe']; subst.
    destruct e as [x|]; [|discriminate].
    cbn [forallb] in Hv. apply andb_true_iff in Hv as [Hjx Hes].
    cbn [array_nodes forallb scalar_typed].
    rewrite (node_type_json x Hjx), (IH IHe' Hes). cbn [andb].
    rewrite andb_true_r. destruct (is_container_type (node_type x)); [|done].
    by apply Hx.
  - intros Hv parentPath lv. rewrite toJsonTree_object.
    simpl in Hv.
    induction props as [|[k x] ps IH]; [done|].
    inversion IHp as [|? ? Hx IHp']; subst. simpl in Hx.
    cbn [forallb] in Hv. apply andb_true_iff in Hv as [Hjx Hps].
    cbn [object_nodes forallb scalar_typed].
    rewrite (node_type_json x Hjx), (IH IHp' Hps). cbn [andb].
    rewrite andb_true_r. destruct (is_container_type (node_type x)); [|done].
    by apply Hx.
Qed.

Lemma scalar_typed_colours (n : JsonNode) :
  scalar_typed n = true ->
  forall b,
    Forall (fun c => In c [Str "#10b981"; Str "#3b82f6"; Str "#8b5cf6"])
           (colours (renderNode n b)).
Proof.
  induction n as [k v t q l e ch i IH] using JsonNode_nested_ind.
  cbn [scalar_typed]. intros [Ht Hch]%andb_true_iff b.
  rewrite colours_renderNode. cbn [type children].
  destruct (is_container_type t).
  - destruct (negb (not_expanded _)); [|constructor].
    destruct ch as [cs|]; [|constructor].
    apply Forall_flat_map.
    induction cs as [|c cs IHcs]; [constructor|].
    inversion IH as [|? ? Hc IH']; subst.
    cbn [forallb] in Hch. apply andb_true_iff in Hch as [Hsc Hcs].
    constructor; [by apply Hc|by apply IHcs].
  - cbn [orb existsb] in Ht. constructor; [|constructor].
    repeat (apply orb_true_iff in Ht as [->%String.eqb_eq|Ht]);
      [cbn; tauto..|discriminate Ht].
Qed.

Section Colours.

Variable JSON_parse : string -> Completion JsVal.
Variable JSON_stringify : JsVal -> option nat -> string.
Variable initialJson : string.
Variable height : string.
Variable readOnly : bool.

(** X26: Whatever the events, the editor asks [getTypeColor] for the colours
    of [string], [number] and [boolean] only, as long as the engine
    parses to JSON values: the colours the table has for [object],
    [array] and [null], and the fallback, never come on display. *)
Theorem editor_shows_three_colours (st : EditorState) :
  (forall text d, JSON_parse text = Return d -> json_value d = true) ->
  reachable JSON_parse JSON_stringify initialJson height readOnly st ->
  Forall (fun c => In c [Str "#10b981"; Str "#3b82f6"; Str "#8b5cf6"])
         (colours (render height readOnly st)).
Proof.
  intros Hjson [text Hsh]%reachable_shows.
  assert (forallb scalar_typed (jsonTree st) = true) as Htyped.
  { unfold shows, parse in Hsh.
    destruct (JSON_parse text) as [d|msg] eqn:Hd; cbn [error data] in Hsh.
    - destruct Hsh as [_ Hsame]. rewrite (scalar_typed_same _ _ Hsame).
      apply toJsonTree_scalar_typed. by apply (Hjson text).
    - by destruct Hsh as [_ ->]. }
  destruct st as [inp tree err vm ed]. cbn [jsonTree] in Htyped. clear Hsh.
  unfold render. cbn [viewMode isEditing parseError jsonTree jsonInput].
  destruct vm, ed, err;
    cbn [colours flat_map app action_button textarea];
    rewrite ?app_nil_r; try constructor.
  all: rewrite flat_map_map; apply Forall_flat_map;
    rewrite forallb_forall in Htyped; apply List.Forall_forall;
    intros n Hn; by apply scalar_typed_colours, Htyped.
Qed.

End Colours.

(* ================================================================== *)
(** ** null on display *)
(* ================================================================== *)

Lemma node_type_null_as_empty (x : JsVal) :
  node_type (null_as_empty x) = node_type x.
Proof. by destruct x. Qed.

Lemma scalar_null_as_empty (x : JsVal) :
  is_container_type (node_type x) = false -> null_as_empty x = x.
Proof. by destruct x. Qed.

(** Two nodes that differ in their value, shown or not, and in their
    children, rendered alike or not. *)
Lemma renderNode_alike k v v' t q l e ch ch' i i' (b : bool) :
  (is_container_type t = false -> v = v') ->
  (is_container_type t = true ->
   option_map (map (fun c => renderNode c (t =? "array"))) ch
   = option_map (map (fun c => renderNode c (t =? "array"))) ch') ->
  renderNode (mkNode k v t q l e ch i) b
  = renderNode (mkNode k v' t q l e ch' i') b.
Proof.
  intros Hv Hch.
  cbn [renderNode type path level key value children not_expanded expanded].
  destruct (is_container_type t); cbn [negb andb].
  - specialize (Hch eq_refl). do 3 f_equal.
    destruct (negb _); [|done].
    destruct ch as [cs|], ch' as [cs'|]; try done.
    cbn [option_map] in Hch. injection Hch as ->. done.
  - by rewrite (Hv eq_refl).
Qed.

(** X27: The tree view draws a [null] exactly as it draws an empty Object:
    the render of a value and the render of the value with [{}] for each
    of its [null] members are the same elements. *)
Theorem null_drawn_as_empty_object (v : JsVal) :
  forall parentPath lv b,
    map (fun n => renderNode n b) (toJsonTree v parentPath lv)
    = map (fun n => renderNode n b)
          (toJsonTree (null_as_empty v) parentPath lv).
Proof.
  induction v as [| | | | |elems props IHe _|props IHp] using JsVal_nested_ind;
    try done.
  - intros parentPath lv b. cbn [null_as_empty]. rewrite !toJsonTree_array.
    generalize 0%nat.
    induction elems as [|e es IH]; intros i; [done|].
    inversion IHe as [|? ? Hx IHe']; subst.
    destruct e as [x|]; cbn [map array_nodes]; [|by apply IH].
    rewrite (IH IHe'), node_type_null_as_empty. f_equal.
    apply renderNode_alike.
    + intros Hs. by rewrite scalar_null_as_empty.
    + intros ->. cbn [option_map]. f_equal. apply Hx.
  - intros parentPath lv b. cbn [null_as_empty]. rewrite !toJsonTree_object.
    induction props as [|[k x] ps IH]; [done|].
    inversion IHp as [|? ? Hx IHp']; subst. simpl in Hx.
    cbn [map object_nodes].
    rewrite (IH IHp'), node_type_null_as_empty. f_equal.
    apply renderNode_alike.
    + intros Hs. by rewrite scalar_null_as_empty.
    + intros ->. cbn [option_map]. f_equal. apply Hx.
Qed.

(* ================================================================== *)
(** ** The round trip of a fresh tree *)
(* ================================================================== *)

Lemma as_arrays_scalar (d : nat) (x : JsVal) :
  is_container_type (node_type x) = false -> as_arrays d x = x.
Proof. destruct d; [done|]. by destruct x. Qed.

(** What [fromJsonTree] assigns for the node [toJsonTree] makes of a
    member at level [lv], once the round trip of the member is known. *)
Lemma assigned_fresh_member (x : JsVal) k p lv i :
  (forall p' lv',
     tame (S (2 - lv')) x = true -> typeof x = "object" ->
     fromJsonTree (toJsonTree x p' lv') = Some (as_arrays (S (2 - lv')) x)) ->
  tame (2 - lv) x = true ->
  assigned_value
    (mkNode k x (node_type x) p lv (Some (lv <? 2)%nat)
       (if is_container_type (node_type x)
        then Some (toJsonTree x p (S lv)) else None) i)
  = Some (as_arrays (2 - lv) x).
Proof.
  intros IH Hx. cbn [assigned_value].
  destruct (is_container_type (node_type x)) eqn:Hc;
    [|by rewrite as_arrays_scalar].
  destruct (lv <? 2)%nat eqn:Hlv.
  - apply Nat.ltb_lt in Hlv.
    replace (2 - lv)%nat with (S (2 - S lv)) in * by lia.
    apply (IH p (S lv) Hx). by destruct x.
  - apply Nat.ltb_ge in Hlv. by replace (2 - lv)%nat with 0%nat by lia.
Qed.

Lemma set_prop_new (acc : list (string * JsVal)) (k : string) (x : JsVal) :
  existsb (String.eqb k) (map fst acc) = false ->
  set_prop acc k x = acc ++ [(k, x)].
Proof.
  induction acc as [|[k' y] acc IH]; [done|]. cbn [map fst existsb set_prop].
  intros [Hk Hacc]%orb_false_iff. rewrite String.eqb_sym, Hk.
  by rewrite (IH Hacc).
Qed.

Lemma array_put_name (a : list (option JsVal) * list (string * JsVal))
    (k : string) (x : JsVal) :
  name_key k = true ->
  existsb (String.eqb k) (map fst a.2) = false ->
  array_put a k x = Some (a.1, a.2 ++ [(k, x)]).
Proof.
  unfold name_key, array_put. intros Hk Hnew.
  destruct (array_index k); [done|]. apply negb_true_iff in Hk as ->.
  by rewrite set_prop_new.
Qed.

Lemma assign_fresh_elements parentPath lv (es : list (option JsVal)) :
  forall acc : list (option JsVal),
    Forall (fun e => match e with
                     | Some x =>
                         forall p' lv',
                           tame (S (2 - lv')) x = true ->
                           typeof x = "object" ->
                           fromJsonTree (toJsonTree x p' lv')
                           = Some (as_arrays (S (2 - lv')) x)
                     | None => True
                     end) es ->
    forallb (fun e => match e with
                      | Some x => tame (2 - lv) x
                      | None => false
                      end) es = true ->
    (N.of_nat (length acc + length es) <= 4294967295)%N ->
    fold_left put_entry
      (map (fun c => (key c, assigned_value c))
           (array_nodes parentPath lv es (length acc)))
      (Some (acc, []))
    = Some (acc ++ map (fun e => match e with
                                 | Some x => Some (as_arrays (2 - lv) x)
                                 | None => None
                                 end) es, []).
Proof.
  induction es as [|e es IH]; intros acc HIH Hes Hlen.
  - cbn. by rewrite app_nil_r.
  - cbn [forallb] in Hes. apply andb_true_iff in Hes as [He Hes].
    destruct e as [x|]; [|discriminate He].
    inversion HIH as [|? ? Hx HIH']; subst.
    cbn [array_nodes map fold_left put_entry fst snd key].
    rewrite (assigned_fresh_member x _ _ lv _ Hx He).
    unfold array_put. cbn [fst snd] in *.
    rewrite array_index_toString by (cbn [length] in Hlen; lia).
    rewrite set_elem_push.
    replace (S (length acc))
      with (length (acc ++ [Some (as_arrays (2 - lv) x)]))
      by (rewrite length_app; cbn; lia).
    rewrite (IH (acc ++ [Some (as_arrays (2 - lv) x)]) HIH' Hes).
    + by rewrite <- app_assoc.
    + rewrite length_app. cbn [length] in *. lia.
Qed.

Lemma assign_fresh_properties parentPath lv (props : list (string * JsVal)) :
  forall acc : list (string * JsVal),
    Forall (fun kv =>
              forall p' lv',
                tame (S (2 - lv')) kv.2 = true ->
                typeof kv.2 = "object" ->
                fromJsonTree (toJsonTree kv.2 p' lv')
                = Some (as_arrays (S (2 - lv')) kv.2)) props ->
    forallb name_key (map fst props) = true ->
    distinct_keys (map fst acc ++ map fst props) = true ->
    forallb (fun kv => tame (2 - lv) kv.2) props = true ->
    fold_left put_entry
      (map (fun c => (key c, assigned_value c))
           (object_nodes parentPath lv props))
      (Some ([], acc))
    = Some ([], acc ++ map (fun kv => (kv.1, as_arrays (2 - lv) kv.2)) props).
Proof.
  induction props as [|[k x] ps IH]; intros acc HIH Hname Hdist Htame.
  - cbn. by rewrite app_nil_r.
  - inversion HIH as [|? ? Hx HIH']; subst. cbn [fst snd] in Hx.
    cbn [map fst forallb] in Hname, Htame.
    apply andb_true_iff in Hname as [Hk Hname].
    apply andb_true_iff in Htame as [Hx' Htame]. cbn [snd] in Hx'.
    cbn [object_nodes map fold_left put_entry fst snd key].
    rewrite (assigned_fresh_member x _ _ lv _ Hx Hx').
    rewrite array_put_name; [|done|].
    + cbn [fst snd]. rewrite (IH _ HIH' Hname); [by rewrite <- app_assoc| |done].
      rewrite map_app. cbn [map fst]. by rewrite <- app_assoc.
    + cbn [snd]. clear -Hdist.
      induction acc as [|[k' y] acc IHacc].
      * done.
      * cbn [map fst app distinct_keys existsb] in *.
        apply andb_true_iff in Hdist as [Hk' Hdist].
        apply negb_true_iff in Hk'. rewrite existsb_app in Hk'.
        apply orb_false_iff in Hk' as [_ Hk']. cbn [existsb] in Hk'.
        apply orb_false_iff in Hk' as [Hk' _].
        rewrite String.eqb_sym, Hk'. by apply IHacc.
Qed.

Lemma fresh_round_trip (v : JsVal) :
  forall parentPath lv,
    tame (S (2 - lv)) v = true -> typeof v = "object" ->
    fromJsonTree (toJsonTree v parentPath lv)
    = Some (as_arrays (S (2 - lv)) v).
Proof.
  induction v as [| | | | |elems props IHe _|props IHp] using JsVal_nested_ind;
    try done.
  - intros parentPath lv. cbn [tame as_arrays].
    intros [Hlen Hes]%andb_true_iff _. apply N.leb_le in Hlen.
    unfold fromJsonTree, assign_all. rewrite toJsonTree_array.
    pose proof (assign_fresh_elements parentPath lv elems [] IHe Hes Hlen)
      as Hfold.
    cbn [length app] in Hfold. by rewrite Hfold.
  - intros parentPath lv. cbn [tame as_arrays].
    intros [[Hname Hdist]%andb_true_iff Htame]%andb_true_iff _.
    unfold fromJsonTree, assign_all. rewrite toJsonTree_object.
    pose proof (assign_fresh_properties parentPath lv props [] IHp Hname
                  Hdist Htame) as Hfold.
    cbn [app] in Hfold. by rewrite Hfold.
Qed.

(** X28: Converting a value to a tree and the fresh tree back turns the
    Objects and the [null]s of the first three levels into Arrays: the
    members of an Object come back as named properties of an Array
    without elements, a [null] comes back as an empty Array, and what
    lies deeper comes back as it was. *)
Theorem fromJsonTree_of_fresh_tree (v : JsVal) :
  tame 3 v = true ->
  typeof v = "object" ->
  fromJsonTree (toJsonTree v "" 0) = Some (as_arrays 3 v).
Proof. exact (fresh_round_trip v "" 0%nat). Qed.

Lemma fromJsonTree_of_fresh_tree_sample :
  fromJsonTree (toJsonTree deep_value "" 0)
  = Some (JArr [] [("a", JNum 1);
                   ("b", JArr [] [("c", JArr [] []);
                                  ("d", JArr [] [("e", JObj [("f", JNum 1)])])])]).
Proof.
  apply (fromJsonTree_of_fresh_tree deep_value); reflexivity.
Defined.

(* ================================================================== *)
(** ** The editor of the running example *)
(* ================================================================== *)

Lemma sample_engine_reads_back : reads_back sample_parse sample_stringify.
Proof.
  intros text d indent. unfold sample_parse.
  destruct (text =? sample_text); [by intros [= <-]|].
  destruct (text =? "null"); [by intros [= <-]|done].
Qed.

Lemma sample_engine_json (text : string) (d : JsVal) :
  sample_parse text = Return d -> json_value d = true.
Proof.
  unfold sample_parse.
  destruct (text =? sample_text); [by intros [= <-]|].
  destruct (text =? "null"); [by intros [= <-]|done].
Qed.

Lemma sample_editor_raw_reachable :
  reachable sample_parse sample_stringify sample_text "600px" false
            sample_editor_raw.
Proof.
  eapply (reachable_step _ _ _ _ _ _ (InputChange "{"));
    [eapply (reachable_step _ _ _ _ _ _ (SetViewMode RawView));
     [apply reachable_mounted|reflexivity|reflexivity]
    |reflexivity|reflexivity].
Qed.

Lemma editor_holds_one_parse_sample :
  (exists text, shows sample_parse sample_editor_raw text)
  /\ (parseError sample_editor_raw <> None -> jsonTree sample_editor_raw = []).
Proof.
  apply (editor_holds_one_parse sample_parse sample_stringify sample_text
           "600px" false sample_editor_raw).
  apply sample_editor_raw_reachable.
Defined.

Lemma not_editing_in_sync_sample :
  shows sample_parse sample_editor_raw "{"
  /\ forall ev, exists st',
       handle sample_parse sample_stringify ev sample_editor_raw = Return st'.
Proof.
  apply (not_editing_in_sync sample_parse sample_stringify sample_text
           "600px" false sample_editor_raw).
  - apply sample_engine_reads_back.
  - apply sample_editor_raw_reachable.
  - reflexivity.
Defined.

Lemma format_throws_on_unapplied_edit_sample :
  run sample_parse sample_stringify "600px" false
      [ToggleEditMode; InputChange "{"; FormatJson] sample_editor
  = Some (Throw "Unexpected token")
  /\ run sample_parse sample_stringify "600px" false
       [ToggleEditMode; InputChange "{"; CompactJson] sample_editor
     = Some (Throw "Unexpected token").
Proof.
  apply (format_throws_on_unapplied_edit sample_parse sample_stringify
           sample_text "600px" false sample_value "{" "Unexpected token");
    reflexivity.
Defined.

Lemma three_levels_on_display_sample :
  displayed (render "600px" false (mounted (fun _ => Return deep_value) ""))
  = ["a"; "b"; "b.c"; "b.d"; "b.d.e"].
Proof.
  apply (three_levels_on_display (fun _ => Return deep_value) "" "600px" false
           deep_value).
  reflexivity.
Defined.

Lemma offered_toggle_changes_tree_sample :
  viewMode sample_editor = TreeView /\ isEditing sample_editor = false
  /\ findNodeByPath (jsonTree sample_editor) "b" <> None
  /\ toggleNode "b" (jsonTree sample_editor) <> jsonTree sample_editor.
Proof.
  apply (offered_toggle_changes_tree "600px" false sample_editor "b").
  reflexivity.
Defined.

Lemma editor_shows_three_colours_sample :
  Forall (fun c => In c [Str "#10b981"; Str "#3b82f6"; Str "#8b5cf6"])
         (colours (render "600px" false sample_editor)).
Proof.
  apply (editor_shows_three_colours sample_parse sample_stringify sample_text
           "600px" false sample_editor).
  - apply sample_engine_json.
  - apply reachable_mounted.
Defined.
